(** * Infinite Vibes: the streaming audio engine

    A shallow embedding of the PCM decoder ([utils/audio]), the envelope
    shaper and the gapless scheduler ([services/audio-service]) of the
    Infinite Vibes DJ application, with the properties the engine's
    specification states about them.

    Conventions of the embedding.
    - A typed array ([Uint8Array], [Int16Array], [Float32Array]) is a list;
      an indexed store is stdpp's list insert, which like a typed array
      ignores a store past the end.
    - Integers held in typed arrays are [Z] with the wrap-around of the
      element type written out ([to_uint8], [to_int16]).
    - Sample values, clock readings and durations are finite JavaScript
      numbers; they are modelled by exact rationals [Q] (rounding is not
      modelled).  The volume is supplied by the caller and may be any
      IEEE 754 double, NaN and the infinities included, so it is modelled
      by [spec_float]; so is the sample count of [createSilence], which
      the rounding of two double-precision operations decides.
    - A JavaScript exception is the left injection of a sum type.
    - An operation of the service returns the service after it and the
      trace of what it did to the outside (events, calls on the audio
      graph, console output).  The [async] methods run to completion, and
      event listeners only observe. *)

From Stdlib Require Import ZArith QArith Qminmax Qround Qabs Lia Lqa String Ascii List SpecFloat.
From stdpp Require Import base option list strings.

Local Open Scope Z_scope.

(** ** Exceptions *)

Inductive exn : Type :=
| InvalidCharacterError   (* atob on malformed base64 *)
| NotSupportedError       (* createBuffer with a zero length *)
| TypeError.              (* a non-finite value given to an AudioParam *)

Definition throws (A : Type) : Type := (exn + A)%type.

Definition ret {A} (a : A) : throws A := inr a.
Definition throw {A} (e : exn) : throws A := inl e.
Definition bind {A B} (m : throws A) (k : A -> throws B) : throws B :=
  match m with
  | inl e => inl e
  | inr a => k a
  end.

Notation "'let*' x ':=' m 'in' k" := (bind m (fun x => k))
  (at level 10, x name, m at level 100, k at level 200).

(** ** Loops *)

(** [for (let i = 0; i < n; i++) body(i)] threading the mutated value. *)
Fixpoint for_loop {A : Type} (n : nat) (body : nat -> A -> A) (a : A) : A :=
  match n with
  | O => a
  | S n' => body n' (for_loop n' body a)
  end.

(** ** Typed array element conversions *)

Definition to_uint8 (z : Z) : Z := z mod 256.
Definition to_int16 (z : Z) : Z := (z + 32768) mod 65536 - 32768.

Definition is_byte (z : Z) : Prop := 0 <= z < 256.
Definition is_int16 (z : Z) : Prop := -32768 <= z <= 32767.

(** A typed array read; every read of the decoder is in range. *)
Definition get (l : list Z) (i : nat) : Z :=
  match l !! i with
  | Some x => x
  | None => 0  (* [undefined], coerced to 0 by the integer operations *)
  end.

(** ** Base64 *)

Module Base64.

Definition alphabet : list ascii :=
  list_ascii_of_string
    "ABCDEFGHIJKLMNOPQRSTUVWXYZabcdefghijklmnopqrstuvwxyz0123456789+/".

Definition sextet_char (n : Z) : ascii := nth (Z.to_nat n) alphabet "A"%char.

Fixpoint index_of (c : ascii) (l : list ascii) (i : Z) : option Z :=
  match l with
  | [] => None
  | x :: r => if Ascii.eqb c x then Some i else index_of c r (i + 1)
  end.

Definition char_sextet (c : ascii) : option Z := index_of c alphabet 0.

Definition pad : ascii := "="%char.

Definition is_sextet (z : Z) : Prop := 0 <= z < 64.

(** RFC 4648 encoding with padding, as the producer of a chunk applies
    it: three bytes give four characters. *)
Fixpoint sextets_of_bytes (bs : list Z) : list Z :=
  match bs with
  | a :: b :: c :: rest =>
      let n := a * 65536 + b * 256 + c in
      [n / 262144; (n / 4096) mod 64; (n / 64) mod 64; n mod 64]
        ++ sextets_of_bytes rest
  | [a; b] =>
      let n := (a * 256 + b) * 4 in
      [n / 4096; (n / 64) mod 64; n mod 64]
  | [a] =>
      let n := a * 16 in
      [n / 64; n mod 64]
  | [] => []
  end.

Definition padding (nbytes : nat) : list ascii :=
  match (nbytes mod 3)%nat with
  | 1%nat => [pad; pad]
  | 2%nat => [pad]
  | _ => []
  end.

Definition encode (bs : list Z) : string :=
  string_of_list_ascii
    (map sextet_char (sextets_of_bytes bs) ++ padding (length bs)).

(** [atob], following the forgiving-base64 decode of the HTML standard. *)

Definition is_ascii_whitespace (c : ascii) : bool :=
  let n := nat_of_ascii c in
  (n =? 9)%nat || (n =? 10)%nat || (n =? 12)%nat || (n =? 13)%nat
  || (n =? 32)%nat.

Definition strip_padding (data : list ascii) : list ascii :=
  match rev data with
  | x :: y :: r =>
      if Ascii.eqb x pad
      then if Ascii.eqb y pad then rev r else rev (y :: r)
      else data
  | [x] => if Ascii.eqb x pad then [] else data
  | [] => data
  end.

Fixpoint bytes_of_sextets (ss : list Z) : list Z :=
  match ss with
  | a :: b :: c :: d :: rest =>
      let n := a * 262144 + b * 4096 + c * 64 + d in
      [n / 65536; (n / 256) mod 256; n mod 256] ++ bytes_of_sextets rest
  | [a; b; c] =>
      (* 18 bits: the last two are discarded *)
      let n := (a * 4096 + b * 64 + c) / 4 in
      [n / 256; n mod 256]
  | [a; b] =>
      (* 12 bits: the last four are discarded *)
      [(a * 64 + b) / 16]
  | _ => []
  end.

(** The result is the binary string, one code unit per decoded byte. *)
Definition atob (s : string) : throws (list Z) :=
  let data :=
    List.filter (fun c => negb (is_ascii_whitespace c))
      (list_ascii_of_string s) in
  let data :=
    if (length data mod 4 =? 0)%nat then strip_padding data else data in
  if (length data mod 4 =? 1)%nat then throw InvalidCharacterError
  else
    match mapM char_sextet data with
    | None => throw InvalidCharacterError
    | Some ss => ret (bytes_of_sextets ss)
    end.

End Base64.

(** ** The decoder (utils/audio) *)

Definition base64ToUint8Array (base64 : string) : throws (list Z) :=
  let* binaryString := Base64.atob base64 in
  let length := length binaryString in
  let bytes := replicate length 0 in
  ret (for_loop length
         (fun i bytes => <[i := to_uint8 (get binaryString i)]> bytes)
         bytes).

(** [new Int16Array(len / 2)] truncates a fractional length, so an odd
    trailing byte is left out.  On bytes the 32-bit [<<] and [|] do not
    wrap; the store into the [Int16Array] does ([to_int16]). *)
Definition uint8ArrayToInt16Array (uint8Array : list Z) : list Z :=
  let int16Array := replicate (length uint8Array / 2)%nat 0 in
  for_loop (length int16Array)
    (fun i int16Array =>
       let lowByte := get uint8Array (i * 2) in
       let highByte := get uint8Array (i * 2 + 1) in
       let int16Array :=
         <[i := to_int16 (Z.lor (Z.shiftl highByte 8) lowByte)]> int16Array in
       if get int16Array i >? 32767
       then <[i := to_int16 (get int16Array i - 65536)]> int16Array
       else int16Array)
    int16Array.

Definition scale : Q := (1 / 32768)%Q.

Definition int16ArrayToFloat32Array (int16Array : list Z) : list Q :=
  let float32Array := replicate (length int16Array) 0%Q in
  for_loop (length int16Array)
    (fun i float32Array =>
       <[i := (inject_Z (get int16Array i) * scale)%Q]> float32Array)
    float32Array.

Definition base64PcmToFloat32 (base64 : string) : throws (list Q) :=
  let* uint8Array := base64ToUint8Array base64 in
  let int16Array := uint8ArrayToInt16Array uint8Array in
  ret (int16ArrayToFloat32Array int16Array).

(** The byte representation of 16-bit signed little-endian samples. *)
Definition pcm16le (samples : list Z) : list Z :=
  flat_map (fun s => let u := s mod 65536 in [u mod 256; u / 256]) samples.


(** ** The envelope shaper (utils/audio)

    [fadeSamples] is a sample count; a negative one leaves the loops
    without iterations, as in the source. *)

Definition applyFadeIn (data : list Q) (fadeSamples : Z) : list Q :=
  let result := data in
  let fadeLength := Z.min fadeSamples (Z.of_nat (length data)) in
  for_loop (Z.to_nat fadeLength)
    (fun i result =>
       let gain := (inject_Z (Z.of_nat i) / inject_Z fadeLength)%Q in
       alter (fun x => (x * gain)%Q) i result)
    result.

Definition applyFadeOut (data : list Q) (fadeSamples : Z) : list Q :=
  let result := data in
  let fadeLength := Z.min fadeSamples (Z.of_nat (length data)) in
  let startIndex := Z.of_nat (length data) - fadeLength in
  for_loop (Z.to_nat fadeLength)
    (fun i result =>
       let gain := (1 - inject_Z (Z.of_nat i) / inject_Z fadeLength)%Q in
       alter (fun x => (x * gain)%Q) (Z.to_nat (startIndex + Z.of_nat i)) result)
    result.

Definition applyCrossfade (current next : list Q) (fadeSamples : Z)
  : list Q * list Q :=
  (applyFadeOut current fadeSamples, applyFadeIn next fadeSamples).

(** ** Configuration (utils/constants) *)

Module AUDIO_CONFIG.
Definition SAMPLE_RATE : positive := 24000.
Definition CHANNELS : Z := 1.
Definition BIT_DEPTH : Z := 16.
Definition BUFFER_SIZE : Z := 4096.
Definition LOOKAHEAD_TIME : Q := 1 # 10.
Definition UNDERRUN_THRESHOLD : Q := 1 # 20.
Definition FADE_DURATION : Q := 1 # 20.
End AUDIO_CONFIG.

(** ** JavaScript numbers that may be NaN *)

Definition number : Type := spec_float.

Definition NaN : number := S754_nan.
Definition zero : number := S754_zero false.
Definition one : number := S754_finite false 4503599627370496 (-52).

Definition is_nan_b (x : number) : bool :=
  match x with S754_nan => true | _ => false end.
Definition is_pos_zero (x : number) : bool :=
  match x with S754_zero false => true | _ => false end.
Definition is_neg_zero (x : number) : bool :=
  match x with S754_zero true => true | _ => false end.

(** [Math.min] and [Math.max] of two arguments (ECMAScript 21.3.2):
    NaN is contagious and -0 is below +0. *)
Definition Math_min (a b : number) : number :=
  if is_nan_b a || is_nan_b b then NaN
  else if is_neg_zero b && is_pos_zero a then b
  else if SFltb b a then b else a.

Definition Math_max (a b : number) : number :=
  if is_nan_b a || is_nan_b b then NaN
  else if is_pos_zero b && is_neg_zero a then b
  else if SFltb a b then b else a.

(** [0 <= x <= 1] as JavaScript evaluates it: false on NaN. *)
Definition in_unit_interval (x : number) : bool := SFleb zero x && SFleb x one.

(** ** The platform objects the service holds *)

Inductive PlaybackState : Type := playing | paused | stopped | connecting.

Inductive AudioContextState : Type := suspended | running | closed.

#[global] Instance PlaybackState_eq_dec : EqDecision PlaybackState.
Proof. solve_decision. Defined.
#[global] Instance AudioContextState_eq_dec : EqDecision AudioContextState.
Proof. solve_decision. Defined.

(** An [AudioBuffer] of one channel.  The platform only makes buffers
    with a positive sample rate. *)
Record AudioBuffer : Type := {
  channelData : list Q;
  sampleRate : positive
}.

Definition duration (buffer : AudioBuffer) : Q :=
  Z.of_nat (length (channelData buffer)) # sampleRate buffer.

(** The output clock [currentTime] belongs to the context; the
    environment advances it. *)
Record AudioContext : Type := {
  state : AudioContextState;
  currentTime : Q
}.

(** An [AudioBufferSourceNode]: an object identity and its buffer. *)
Record AudioBufferSourceNode : Type := {
  node : nat;
  buffer : AudioBuffer
}.

Inductive AudioEvent : Type :=
| StateChange (state : PlaybackState)
| VolumeChange (volume : number)
| Underrun
| BufferUpdate (bufferLevel : Q).

(** What the service does to the outside, in order: events handed to
    the listeners, calls on the audio graph, console output.  Listeners
    are observers; they do not call back into the service. *)
Inductive effect : Type :=
| Emit (event : AudioEvent)
| Start (source : AudioBufferSourceNode) (when : Q)
| StopSource (source : AudioBufferSourceNode)
| Disconnect (source : AudioBufferSourceNode)
| SetTargetAtTime (target : number) (startTime : Q)
| Resume
| Suspend
| Close
| RequestAnimationFrame
| ConsoleWarn (message : string)
| ConsoleError (message : string) (error : exn)
| Uncaught (error : exn).

(** [createBuffer] refuses a buffer of no frames.  It also refuses a
    sample rate outside the range the audio context supports, a range
    that always includes 8000 to 96000 Hz; [sampleRate] is taken to be a
    supported rate, as the 24000 Hz of the service is. *)
Definition createAudioBuffer (audioContext : AudioContext) (data : list Q)
    (sampleRate : positive) : throws AudioBuffer :=
  match data with
  | [] => throw NotSupportedError
  | _ => ret {| channelData := data; sampleRate := sampleRate |}
  end.

Definition decodeBase64ToAudioBuffer (audioContext : AudioContext)
    (base64 : string) (sampleRate : positive) : throws AudioBuffer :=
  let* float32Data := base64PcmToFloat32 base64 in
  createAudioBuffer audioContext float32Data sampleRate.

(** ** The audio service (services/audio-service) *)

Record AudioService : Type := {
  audioContext : option AudioContext;
  gainNode : option number;           (* the gain node, with its target value *)
  playbackState : PlaybackState;
  volume : number;
  nextStartTime : Q;
  scheduledSources : list AudioBufferSourceNode;
  audioQueue : list AudioBuffer;
  isProcessingQueue : bool;
  bufferLevel : Q;
  totalBufferedDuration : Q;
  nextNode : nat                      (* identity of the next node created *)
}.

(** The constructor. *)
Definition new_AudioService : AudioService := {|
  audioContext := None;
  gainNode := None;
  playbackState := stopped;
  volume := one;
  nextStartTime := 0;
  scheduledSources := [];
  audioQueue := [];
  isProcessingQueue := false;
  bufferLevel := 0;
  totalBufferedDuration := 0;
  nextNode := O
|}.

(** Field assignments. *)
Definition set_audioContext (v : option AudioContext) (s : AudioService) :=
  {| audioContext := v; gainNode := gainNode s;
     playbackState := playbackState s; volume := volume s;
     nextStartTime := nextStartTime s; scheduledSources := scheduledSources s;
     audioQueue := audioQueue s; isProcessingQueue := isProcessingQueue s;
     bufferLevel := bufferLevel s;
     totalBufferedDuration := totalBufferedDuration s; nextNode := nextNode s |}.
Definition set_gainNode (v : option number) (s : AudioService) :=
  {| audioContext := audioContext s; gainNode := v;
     playbackState := playbackState s; volume := volume s;
     nextStartTime := nextStartTime s; scheduledSources := scheduledSources s;
     audioQueue := audioQueue s; isProcessingQueue := isProcessingQueue s;
     bufferLevel := bufferLevel s;
     totalBufferedDuration := totalBufferedDuration s; nextNode := nextNode s |}.
Definition set_playbackState (v : PlaybackState) (s : AudioService) :=
  {| audioContext := audioContext s; gainNode := gainNode s;
     playbackState := v; volume := volume s;
     nextStartTime := nextStartTime s; scheduledSources := scheduledSources s;
     audioQueue := audioQueue s; isProcessingQueue := isProcessingQueue s;
     bufferLevel := bufferLevel s;
     totalBufferedDuration := totalBufferedDuration s; nextNode := nextNode s |}.
Definition set_volume (v : number) (s : AudioService) :=
  {| audioContext := audioContext s; gainNode := gainNode s;
     playbackState := playbackState s; volume := v;
     nextStartTime := nextStartTime s; scheduledSources := scheduledSources s;
     audioQueue := audioQueue s; isProcessingQueue := isProcessingQueue s;
     bufferLevel := bufferLevel s;
     totalBufferedDuration := totalBufferedDuration s; nextNode := nextNode s |}.
Definition set_nextStartTime (v : Q) (s : AudioService) :=
  {| audioContext := audioContext s; gainNode := gainNode s;
     playbackState := playbackState s; volume := volume s;
     nextStartTime := v; scheduledSources := scheduledSources s;
     audioQueue := audioQueue s; isProcessingQueue := isProcessingQueue s;
     bufferLevel := bufferLevel s;
     totalBufferedDuration := totalBufferedDuration s; nextNode := nextNode s |}.
Definition set_scheduledSources (v : list AudioBufferSourceNode) (s : AudioService) :=
  {| audioContext := audioContext s; gainNode := gainNode s;
     playbackState := playbackState s; volume := volume s;
     nextStartTime := nextStartTime s; scheduledSources := v;
     audioQueue := audioQueue s; isProcessingQueue := isProcessingQueue s;
     bufferLevel := bufferLevel s;
     totalBufferedDuration := totalBufferedDuration s; nextNode := nextNode s |}.
Definition set_audioQueue (v : list AudioBuffer) (s : AudioService) :=
  {| audioContext := audioContext s; gainNode := gainNode s;
     playbackState := playbackState s; volume := volume s;
     nextStartTime := nextStartTime s; scheduledSources := scheduledSources s;
     audioQueue := v; isProcessingQueue := isProcessingQueue s;
     bufferLevel := bufferLevel s;
     totalBufferedDuration := totalBufferedDuration s; nextNode := nextNode s |}.
Definition set_isProcessingQueue (v : bool) (s : AudioService) :=
  {| audioContext := audioContext s; gainNode := gainNode s;
     playbackState := playbackState s; volume := volume s;
     nextStartTime := nextStartTime s; scheduledSources := scheduledSources s;
     audioQueue := audioQueue s; isProcessingQueue := v;
     bufferLevel := bufferLevel s;
     totalBufferedDuration := totalBufferedDuration s; nextNode := nextNode s |}.
Definition set_bufferLevel (v : Q) (s : AudioService) :=
  {| audioContext := audioContext s; gainNode := gainNode s;
     playbackState := playbackState s; volume := volume s;
     nextStartTime := nextStartTime s; scheduledSources := scheduledSources s;
     audioQueue := audioQueue s; isProcessingQueue := isProcessingQueue s;
     bufferLevel := v;
     totalBufferedDuration := totalBufferedDuration s; nextNode := nextNode s |}.
Definition set_totalBufferedDuration (v : Q) (s : AudioService) :=
  {| audioContext := audioContext s; gainNode := gainNode s;
     playbackState := playbackState s; volume := volume s;
     nextStartTime := nextStartTime s; scheduledSources := scheduledSources s;
     audioQueue := audioQueue s; isProcessingQueue := isProcessingQueue s;
     bufferLevel := bufferLevel s;
     totalBufferedDuration := v; nextNode := nextNode s |}.
Definition set_nextNode (v : nat) (s : AudioService) :=
  {| audioContext := audioContext s; gainNode := gainNode s;
     playbackState := playbackState s; volume := volume s;
     nextStartTime := nextStartTime s; scheduledSources := scheduledSources s;
     audioQueue := audioQueue s; isProcessingQueue := isProcessingQueue s;
     bufferLevel := bufferLevel s;
     totalBufferedDuration := totalBufferedDuration s; nextNode := v |}.

Definition Qltb (x y : Q) : bool := negb (Qle_bool y x).

Definition getPlaybackState (s : AudioService) : PlaybackState := playbackState s.
Definition getVolume (s : AudioService) : number := volume s.
Definition getBufferLevel (s : AudioService) : Q := bufferLevel s.

(** An operation gives the service after it and what it did. *)
Definition emit (event : AudioEvent) : list effect := [Emit event].

Definition setPlaybackState (st : PlaybackState) (s : AudioService)
  : AudioService * list effect :=
  if decide (playbackState s <> st)
  then (set_playbackState st s, emit (StateChange st))
  else (s, []).

(** [created] is what [new AudioContext] does: it raises, or gives a
    context in some state with its clock at zero. *)
Definition initialize (created : throws AudioContextState) (s : AudioService)
  : AudioService * list effect * bool :=
  match audioContext s with
  | Some _ => (s, [], true)
  | None =>
      match created with
      | inr st =>
          let s := set_audioContext (Some {| state := st; currentTime := 0 |}) s in
          (* gain.value = this.volume raises on NaN, inside the try *)
          if is_nan_b (volume s)
          then (set_gainNode (Some one) s,
                [ConsoleError "Failed to initialize AudioContext:" TypeError],
                false)
          else (set_gainNode (Some (volume s)) s, [], true)
      | inl error =>
          (s, [ConsoleError "Failed to initialize AudioContext:" error], false)
      end
  end.

(** [setTargetAtTime] takes a finite target and raises a TypeError
    otherwise; after the clamp the only non-finite value left is NaN.
    The exception leaves [setVolume] before the event is emitted. *)
Definition setVolume (v : number) (s : AudioService)
  : AudioService * list effect * throws unit :=
  let s := set_volume (Math_max zero (Math_min one v)) s in
  match gainNode s with
  | Some _ =>
      let now := match audioContext s with
                 | Some ctx => currentTime ctx
                 | None => 0%Q
                 end in
      if is_nan_b (volume s) then (s, [], throw TypeError)
      else
        let s := set_gainNode (Some (volume s)) s in
        (s, SetTargetAtTime (volume s) now :: emit (VolumeChange (volume s)),
         ret tt)
  | None => (s, emit (VolumeChange (volume s)), ret tt)
  end.

(** The scheduling loop of [processAudioQueue], one iteration per
    buffer shifted off the queue.  [source.start] is given a time that
    is at least the clock reading, so it does not raise. *)
Fixpoint schedule (currentTime : Q) (queue : list AudioBuffer) (s : AudioService)
  : AudioService * list effect :=
  match queue with
  | [] => (s, [])
  | buffer :: rest =>
      let s := set_audioQueue rest s in
      (* Check for underrun *)
      let '(s, t1) :=
        if Qltb (nextStartTime s) currentTime
        then (set_nextStartTime currentTime s,
              ConsoleWarn "Audio underrun detected" :: emit Underrun)
        else (s, []) in
      (* Create and schedule source *)
      let source := {| node := nextNode s; buffer := buffer |} in
      let s := set_nextNode (S (nextNode s)) s in
      let t2 := [Start source (nextStartTime s)] in
      let s := set_scheduledSources (scheduledSources s ++ [source]) s in
      (* Update next start time for gapless playback *)
      let s := set_nextStartTime (nextStartTime s + duration buffer)%Q s in
      (* Only schedule a limited amount ahead *)
      if Qltb (AUDIO_CONFIG.LOOKAHEAD_TIME * 10)%Q (nextStartTime s - currentTime)%Q
      then (s, t1 ++ t2)
      else
        let '(s, t3) := schedule currentTime rest s in
        (s, t1 ++ t2 ++ t3)
  end.

Definition processAudioQueue (s : AudioService) : AudioService * list effect :=
  match audioContext s with
  | Some ctx =>
      if isProcessingQueue s || negb (bool_decide (playbackState s = playing))
      then (s, [])
      else
        let s := set_isProcessingQueue true s in
        let currentTime := currentTime ctx in
        let '(s, t1) := schedule currentTime (audioQueue s) s in
        let s := set_isProcessingQueue false s in
        (* Continue processing if there's more in the queue *)
        if negb (length (audioQueue s) =? 0)%nat
           && bool_decide (playbackState s = playing)
        then (s, t1 ++ [RequestAnimationFrame])
        else (s, t1)
  | None => (s, [])
  end.

(** The [onended] handler registered for [source]. *)
Fixpoint indexOf (l : list AudioBufferSourceNode) (source : AudioBufferSourceNode)
  : option nat :=
  match l with
  | [] => None
  | x :: r =>
      if (node x =? node source)%nat then Some O
      else option_map S (indexOf r source)
  end.

Definition onended (source : AudioBufferSourceNode) (s : AudioService)
  : AudioService * list effect :=
  let s := match indexOf (scheduledSources s) source with
           | Some index => set_scheduledSources (delete index (scheduledSources s)) s
           | None => s
           end in
  let s := set_totalBufferedDuration
             (Qmax 0 (totalBufferedDuration s - duration (buffer source))) s in
  let s := set_bufferLevel (Qmin 1 (totalBufferedDuration s / 5)) s in
  (s, [Disconnect source]).

Definition play (created : throws AudioContextState) (s : AudioService)
  : AudioService * list effect * bool :=
  let '(s, t0, initialized) :=
    match audioContext s with
    | None => initialize created s
    | Some _ => (s, [], true)
    end in
  if negb initialized then (s, t0, false)
  else
    match audioContext s with
    | None => (s, t0 ++ [Uncaught TypeError], false)
    | Some ctx =>
        let '(s, t1) :=
          if decide (state ctx = suspended)
          then (set_audioContext
                  (Some {| state := running; currentTime := currentTime ctx |}) s,
                [Resume])
          else (s, []) in
        let '(s, t2) := setPlaybackState playing s in
        let '(s, t3) := processAudioQueue s in
        (s, t0 ++ t1 ++ t2 ++ t3, true)
    end.

Definition pause (s : AudioService) : AudioService * list effect :=
  let '(s, t1) :=
    match audioContext s with
    | Some ctx =>
        if decide (state ctx = running)
        then (set_audioContext
                (Some {| state := suspended; currentTime := currentTime ctx |}) s,
              [Suspend])
        else (s, [])
    | None => (s, [])
    end in
  let '(s, t2) := setPlaybackState paused s in
  (s, t1 ++ t2).

Definition stop (s : AudioService) : AudioService * list effect :=
  (* Stop all scheduled sources *)
  let t1 := flat_map (fun source => [StopSource source; Disconnect source])
              (scheduledSources s) in
  let s := set_scheduledSources [] s in
  (* Clear the queue *)
  let s := set_audioQueue [] s in
  let s := set_totalBufferedDuration 0%Q s in
  let s := set_bufferLevel 0%Q s in
  (* Reset timing *)
  let s := set_nextStartTime 0%Q s in
  let '(s, t2) :=
    match audioContext s with
    | Some ctx =>
        (set_audioContext
           (Some {| state := suspended; currentTime := currentTime ctx |}) s,
         [Suspend])
    | None => (s, [])
    end in
  let '(s, t3) := setPlaybackState stopped s in
  (s, t1 ++ t2 ++ t3 ++ emit (BufferUpdate 0%Q)).

Definition fadeSamples : Z :=
  Qfloor (AUDIO_CONFIG.FADE_DURATION * inject_Z (Zpos AUDIO_CONFIG.SAMPLE_RATE)).

Definition queueAudioChunk (base64Data : string) (s : AudioService)
  : AudioService * list effect :=
  match audioContext s with
  | None => (s, [ConsoleWarn "AudioContext not initialized"])
  | Some ctx =>
      match
        (* Decode Base64 to Float32Array *)
        let* float32Data := base64PcmToFloat32 base64Data in
        (* Apply fade-in if this is the first chunk after silence *)
        let processedData :=
          if (length (audioQueue s) =? 0)%nat
             && (length (scheduledSources s) =? 0)%nat
          then applyFadeIn float32Data fadeSamples
          else float32Data in
        createAudioBuffer ctx processedData AUDIO_CONFIG.SAMPLE_RATE
      with
      | inr buffer =>
          (* Add to queue *)
          let s := set_audioQueue (audioQueue s ++ [buffer]) s in
          let s := set_totalBufferedDuration
                     (totalBufferedDuration s + duration buffer)%Q s in
          (* Update buffer level (assuming 5 seconds is "full") *)
          let s := set_bufferLevel (Qmin 1 (totalBufferedDuration s / 5)) s in
          let t1 := emit (BufferUpdate (bufferLevel s)) in
          (* Process queue if playing *)
          let '(s, t2) :=
            if decide (playbackState s = playing)
            then processAudioQueue s
            else (s, []) in
          (s, t1 ++ t2)
      | inl error =>
          (s, [ConsoleError "Failed to queue audio chunk:" error])
      end
  end.

Definition dispose (s : AudioService) : AudioService * list effect :=
  let '(s, t1) := stop s in
  let '(s, t2) :=
    match audioContext s with
    | Some _ => (set_audioContext None s, [Close])
    | None => (s, [])
    end in
  let s := set_gainNode None s in
  (s, t1 ++ t2).

(** ** The service driven by its callers and by the platform *)

Inductive op : Type :=
| Initialize (created : throws AudioContextState)
| Play (created : throws AudioContextState)
| Pause
| Stop
| Dispose
| SetVolume (v : number)
| QueueAudioChunk (base64Data : string)
| AnimationFrame                         (* the callback given to requestAnimationFrame *)
| Ended (source : AudioBufferSourceNode)  (* a source finished playing *)
| Clock (t : Q).                         (* the output clock has reached [t] *)

Definition advance_clock (t : Q) (s : AudioService) : AudioService :=
  match audioContext s with
  | Some ctx =>
      set_audioContext
        (Some {| state := state ctx; currentTime := Qmax (currentTime ctx) t |}) s
  | None => s
  end.

Definition step (o : op) (s : AudioService) : AudioService * list effect :=
  match o with
  | Initialize created => let '(s, t, _) := initialize created s in (s, t)
  | Play created => let '(s, t, _) := play created s in (s, t)
  | Pause => pause s
  | Stop => stop s
  | Dispose => dispose s
  | SetVolume v =>
      let '(s, t, r) := setVolume v s in
      match r with
      | inl error => (s, t ++ [Uncaught error])
      | inr _ => (s, t)
      end
  | QueueAudioChunk base64Data => queueAudioChunk base64Data s
  | AnimationFrame => processAudioQueue s
  | Ended source => onended source s
  | Clock t => (advance_clock t s, [])
  end.

Fixpoint run (ops : list op) (s : AudioService) : AudioService * list effect :=
  match ops with
  | [] => (s, [])
  | o :: ops' =>
      let '(s1, t1) := step o s in
      let '(s2, t2) := run ops' s1 in
      (s2, t1 ++ t2)
  end.

(** ** Reading a trace *)

(** The scheduling part of a trace: segments handed to the output and
    underrun events. *)
Definition is_scheduling (e : effect) : bool :=
  match e with
  | Start _ _ | Emit Underrun => true
  | _ => false
  end.

(** The buffers handed to the output, in order. *)
Fixpoint started (t : list effect) : list AudioBuffer :=
  match t with
  | [] => []
  | Start source _ :: t' => buffer source :: started t'
  | _ :: t' => started t'
  end.

(** The start times of the segments handed to the output, in order. *)
Fixpoint start_times (t : list effect) : list Q :=
  match t with
  | [] => []
  | Start _ when :: t' => when :: start_times t'
  | _ :: t' => start_times t'
  end.

(** [gapless expected t]: every segment of [t] that follows another
    without an underrun between them starts where that one ends;
    [expected] is the end of the segment before [t], if there is one. *)
Fixpoint gapless (expected : option Q) (t : list effect) : Prop :=
  match t with
  | [] => True
  | Emit Underrun :: t' => gapless None t'
  | Start source when :: t' =>
      match expected with Some e => when = e | None => True end
      /\ gapless (Some (when + duration (buffer source))%Q) t'
  | _ :: t' => gapless expected t'
  end.

Fixpoint timeline_end (expected : option Q) (t : list effect) : option Q :=
  match t with
  | [] => expected
  | Emit Underrun :: t' => timeline_end None t'
  | Start source when :: t' =>
      timeline_end (Some (when + duration (buffer source))%Q) t'
  | _ :: t' => timeline_end expected t'
  end.

(** The look-ahead ceiling of the scheduling loop. *)
Definition lookahead_ceiling : Q := (AUDIO_CONFIG.LOOKAHEAD_TIME * 10)%Q.

(** The service after one iteration of the scheduling loop. *)
Definition scheduled_one (start : Q) (b : AudioBuffer) (rest : list AudioBuffer)
    (s : AudioService) : AudioService :=
  {| audioContext := audioContext s; gainNode := gainNode s;
     playbackState := playbackState s; volume := volume s;
     nextStartTime := (start + duration b)%Q;
     scheduledSources :=
       scheduledSources s ++ [{| node := nextNode s; buffer := b |}];
     audioQueue := rest; isProcessingQueue := isProcessingQueue s;
     bufferLevel := bufferLevel s;
     totalBufferedDuration := totalBufferedDuration s;
     nextNode := S (nextNode s) |}.

(** ** Example states *)

(** A buffer of [n] frames of silence at the configured rate. *)
Definition silence (n : Z) : AudioBuffer :=
  {| channelData := replicate (Z.to_nat n) 0%Q;
     sampleRate := AUDIO_CONFIG.SAMPLE_RATE |}.

(** The service while playing, with the clock at [now], nothing
    scheduled yet and [queue] waiting. *)
Definition playing_at (now next : Q) (queue : list AudioBuffer) : AudioService :=
  {| audioContext := Some {| state := running; currentTime := now |};
     gainNode := Some one;
     playbackState := playing;
     volume := one;
     nextStartTime := next;
     scheduledSources := [];
     audioQueue := queue;
     isProcessingQueue := false;
     bufferLevel := 0;
     totalBufferedDuration := 0;
     nextNode := O |}.

(** The reading of the output clock. *)
Definition clock (s : AudioService) : Q :=
  match audioContext s with
  | Some ctx => currentTime ctx
  | None => 0%Q
  end.

(** Every operation but the hard stop keeps the timeline. *)
Definition keeps_timeline (o : op) : bool :=
  match o with
  | Stop | Dispose => false
  | _ => true
  end.

(** A trace that hands nothing to the output and reports no underrun. *)
Definition quiet (t : list effect) : Prop :=
  Forall (fun e => is_scheduling e = false) t.

(** ** Chunks and the buffers made from them *)

(** What happens while the service is playing. *)
Definition playing_op (o : op) : bool :=
  match o with
  | QueueAudioChunk _ | AnimationFrame | Ended _ | Clock _ | SetVolume _ => true
  | _ => false
  end.

(** The chunks given to [queueAudioChunk], in order. *)
Fixpoint chunks (ops : list op) : list string :=
  match ops with
  | [] => []
  | QueueAudioChunk base64Data :: ops' => base64Data :: chunks ops'
  | _ :: ops' => chunks ops'
  end.

(** A chunk that decodes to at least one sample. *)
Definition valid_chunk (c : string) : Prop :=
  exists data, base64PcmToFloat32 c = inr data /\ data <> [].

(** [b] is the buffer made from chunk [c]: its samples, with the entry
    fade when the chunk arrived in silence. *)
Definition is_chunk_of (b : AudioBuffer) (c : string) : Prop :=
  sampleRate b = AUDIO_CONFIG.SAMPLE_RATE /\
  exists data, base64PcmToFloat32 c = inr data /\
    (channelData b = data \/ channelData b = applyFadeIn data fadeSamples).

(** The service is initialized, playing, and not inside the draining
    routine. *)
Definition ready (s : AudioService) : Prop :=
  audioContext s <> None /\ playbackState s = playing /\
  isProcessingQueue s = false.

(** ** The service as its callers can reach it *)

(** What holds of the service after any sequence of operations on a
    new instance. *)
Definition service_inv (s : AudioService) : Prop :=
  isProcessingQueue s = false /\
  (0 <= totalBufferedDuration s)%Q /\
  (bufferLevel s == Qmin 1 (totalBufferedDuration s / 5))%Q /\
  (0 <= clock s)%Q /\
  (0 <= nextStartTime s)%Q /\
  (audioContext s = None <-> gainNode s = None) /\
  (playbackState s = playing -> audioContext s <> None) /\
  Forall (fun source => (node source < nextNode s)%nat) (scheduledSources s) /\
  NoDup (map node (scheduledSources s)).

Definition is_play (o : op) : bool :=
  match o with
  | Play _ => true
  | _ => false
  end.

(** The sources handed to the output, in order. *)
Fixpoint started_sources (t : list effect) : list AudioBufferSourceNode :=
  match t with
  | [] => []
  | Start source _ :: t' => source :: started_sources t'
  | _ :: t' => started_sources t'
  end.


(** ** Measuring and combining sample data (utils/audio) *)

(** A read of a [Float32Array] at an index below its length, which is
    where the loops of this part read. *)
Definition sample (data : list Q) (i : nat) : Q :=
  match data !! i with
  | Some x => x
  | None => 0
  end.

Definition calculatePeak (data : list Q) : Q :=
  let peak := 0%Q in
  for_loop (length data)
    (fun i peak =>
       let abs := Qabs (sample data i) in
       if Qltb peak abs then abs else peak)
    peak.

Definition normalize (data : list Q) (targetPeak : Q) : list Q :=
  let currentPeak := calculatePeak data in
  if Qeq_bool currentPeak 0 then data
  else
    let gain := (targetPeak / currentPeak)%Q in
    let result := replicate (length data) 0%Q in
    for_loop (length data)
      (fun i result => <[i := (sample data i * gain)%Q]> result)
      result.

(** [target.set(source, offset)], here always with room for the source. *)
Definition typed_array_set (target source : list Q) (offset : nat) : list Q :=
  for_loop (length source)
    (fun i target => <[(offset + i)%nat := sample source i]> target)
    target.

Definition concatenateAudioData (arrays : list (list Q)) : list Q :=
  let totalLength := fold_left (fun sum arr => (sum + length arr)%nat) arrays 0%nat in
  let result := replicate totalLength 0%Q in
  let offset := 0%nat in
  (fold_left
     (fun '(result, offset) arr =>
        (typed_array_set result arr offset, (offset + length arr)%nat))
     arrays (result, offset)).1.

(** An argument of [mixAudioData]. *)
Record Track : Type := { data : list Q; gain : Q }.

(** [Math.max(...lengths)] of a list that is not empty. *)
Definition max_length (lengths : list nat) : nat := foldr Nat.max 0%nat lengths.

Definition mixAudioData (arrays : list Track) : list Q :=
  match arrays with
  | [] => []
  | _ =>
      let maxLength := max_length (map (fun a => length (data a)) arrays) in
      let result := replicate maxLength 0%Q in
      fold_left
        (fun result a =>
           for_loop (length (data a))
             (fun i result =>
                alter (fun r => (r + sample (data a) i * gain a)%Q) i result)
             result)
        arrays result
  end.

(** ** Silence, in double precision

    The length of the array [createSilence] returns is decided by the
    rounding of two double-precision operations, so they are modelled
    bit for bit, with the operations the Standard Library specifies
    IEEE 754 binary64 by. *)

(** The double nearest to an integer. *)
Definition of_Z (z : Z) : number := binary_normalize 53 1024 z 0 false.

(** [Math.round]: the integer nearest to a finite number, a half going
    towards +infinity; NaN and the infinities are returned as they are.
    The sign of a zero result is not kept. *)
Definition Math_round (x : number) : number :=
  match x with
  | S754_finite sign m e =>
      let n := if sign then Z.neg m else Z.pos m in
      of_Z (if 0 <=? e then n * 2 ^ e
            else (2 * n + 2 ^ (- e)) / 2 ^ (- e + 1))
  | _ => x
  end.

(** [ToIndex], which the typed array constructors apply to a length:
    NaN counts as 0, a fraction is cut off, and a negative or too large
    integer is a [RangeError], here [None]. *)
Definition ToIndex (x : number) : option Z :=
  match x with
  | S754_nan | S754_zero _ => Some 0
  | S754_infinity _ => None
  | S754_finite sign m e =>
      let n := if sign then Z.neg m else Z.pos m in
      let integer := if 0 <=? e then n * 2 ^ e else Z.quot n (2 ^ (- e)) in
      if (integer <? 0) || (2 ^ 53 - 1 <? integer) then None else Some integer
  end.

(** [new Float32Array(length)]: [length] zeros.  An engine also refuses
    a length it cannot find the memory for, with a [RangeError]; where
    that begins depends on the engine and is not modelled. *)
Definition new_Float32Array (length : number) : option (list Q) :=
  match ToIndex length with
  | Some n => Some (replicate (Z.to_nat n) 0%Q)
  | None => None
  end.

Definition createSilence (durationMs sampleRate : number) : option (list Q) :=
  let samples :=
    Math_round (SFmul 53 1024 (SFdiv 53 1024 durationMs (of_Z 1000)) sampleRate) in
  new_Float32Array samples.

(** What one argument of [mixAudioData] adds to the sample at [i]. *)
Definition contribution (i : nat) (a : Track) : Q :=
  match data a !! i with
  | Some x => (x * gain a)%Q
  | None => 0
  end.

(** ** The animation frames of the platform *)


(** * Proof tactics *)

(** Reads of a field after assignments. *)
Ltac simpl_fields :=
  cbn [audioContext gainNode playbackState volume nextStartTime
       scheduledSources audioQueue isProcessingQueue bufferLevel
       totalBufferedDuration nextNode
       set_audioContext set_gainNode set_playbackState set_volume
       set_nextStartTime set_scheduledSources set_audioQueue
       set_isProcessingQueue set_bufferLevel set_totalBufferedDuration
       set_nextNode scheduled_one fst snd] in *.

(** A trace of effects none of which is a segment or an underrun. *)
Ltac quiet_trace :=
  repeat (apply Forall_cons_2; [reflexivity|]); apply Forall_nil_2.

(** * Properties of the decoder *)

Section ForLoop.
Context {A : Type}.

(** A loop whose body stores one element per index fills the array
    with the stored values, index by index. *)
Lemma for_loop_store (body : nat -> list A -> list A) (g : nat -> A)
    (n : nat) (l0 : list A) :
  (forall i l, (i < n)%nat -> length l = length l0 ->
               body i l = <[i := g i]> l) ->
  (n <= length l0)%nat ->
  length (for_loop n body l0) = length l0 /\
  forall i, for_loop n body l0 !! i
            = if decide (i < n)%nat then Some (g i) else l0 !! i.
Proof.
  intros Hbody. induction n as [|n IH]; intros Hn; cbn [for_loop].
  - split; [done|]. intros i. destruct (decide (i < 0)%nat); [lia|done].
  - destruct IH as [Hlen Hlk]; [intros; apply Hbody; lia | lia |].
    rewrite Hbody by (lia || done). rewrite length_insert. split; [done|].
    intros i. destruct (decide (i = n)) as [->|Hne].
    + rewrite list_lookup_insert_eq by lia. case_decide; [done|lia].
    + rewrite list_lookup_insert_ne by done. rewrite Hlk.
      repeat case_decide; try lia; done.
Qed.

Lemma for_loop_fill (body : nat -> list A -> list A) (g : nat -> A)
    (n : nat) (d : A) :
  (forall i l, (i < n)%nat -> length l = n -> body i l = <[i := g i]> l) ->
  for_loop n body (replicate n d) = map g (seq 0 n).
Proof.
  intros Hbody.
  destruct (for_loop_store body g n (replicate n d)) as [Hlen Hlk].
  { intros i l Hi Hl. apply Hbody; [done|]. by rewrite Hl, length_replicate. }
  { by rewrite length_replicate. }
  apply list_eq. intros i. rewrite Hlk, list_lookup_fmap.
  case_decide as Hi.
  - by rewrite lookup_seq_lt.
  - rewrite lookup_seq_ge by lia.
    apply lookup_replicate_None. lia.
Qed.
End ForLoop.

Lemma map_get_seq {B : Type} (f : Z -> B) (l : list Z) :
  map (fun i => f (get l i)) (seq 0 (length l)) = map f l.
Proof.
  apply list_eq. intros i. rewrite !list_lookup_fmap.
  destruct (l !! i) as [x|] eqn:Hx.
  - rewrite lookup_seq_lt by (by eapply lookup_lt_Some).
    simpl. unfold get. by rewrite Hx.
  - by rewrite lookup_seq_ge by (by apply lookup_ge_None).
Qed.


Lemma list_ind3 {A : Type} (P : list A -> Prop) :
  P [] -> (forall a, P [a]) -> (forall a b, P [a; b]) ->
  (forall a b c r, P r -> P (a :: b :: c :: r)) ->
  forall l, P l.
Proof.
  intros H0 H1 H2 H3.
  assert (forall l, P l /\ (forall a, P (a :: l)) /\ (forall a b, P (a :: b :: l)))
    as H; [|intros l; apply H].
  induction l as [|x l (IH0 & IH1 & IH2)]; [auto|].
  split; [exact (IH1 x)|]. split; [intros a; exact (IH2 a x)|].
  intros a b. apply H3, IH0.
Qed.

Lemma filter_all {A : Type} (f : A -> bool) (l : list A) :
  Forall (fun x => f x = true) l -> List.filter f l = l.
Proof.
  induction 1 as [|x l Hx _ IH]; simpl; [done|]. by rewrite Hx, IH.
Qed.

Module Base64Facts.
Import Base64.

Lemma sextet_char_spec (n : Z) :
  is_sextet n ->
  char_sextet (sextet_char n) = Some n /\
  is_ascii_whitespace (sextet_char n) = false /\
  Ascii.eqb (sextet_char n) pad = false.
Proof.
  intros Hn. assert (exists k : nat, n = Z.of_nat k /\ (k < 64)%nat) as (k & -> & Hk).
  { exists (Z.to_nat n). unfold is_sextet in Hn. lia. }
  clear Hn. do 64 (destruct k as [|k]; [vm_compute; done|]). lia.
Qed.

Lemma sextets_of_bytes_range (bs : list Z) :
  Forall is_byte bs -> Forall is_sextet (sextets_of_bytes bs).
Proof.
  induction bs as [|a|a b|a b c r IH] using list_ind3; intros Hbs.
  - constructor.
  - inversion_clear Hbs as [|? ? Ha _]. unfold is_byte in Ha.
    cbn [sextets_of_bytes]. repeat constructor; unfold is_sextet;
      (Z.div_mod_to_equations; lia).
  - inversion_clear Hbs as [|? ? Ha Hbs']. inversion_clear Hbs' as [|? ? Hb _].
    unfold is_byte in Ha, Hb.
    cbn [sextets_of_bytes]. repeat constructor; unfold is_sextet;
      (Z.div_mod_to_equations; lia).
  - inversion_clear Hbs as [|? ? Ha Hbs']. inversion_clear Hbs' as [|? ? Hb Hbs].
    inversion_clear Hbs as [|? ? Hc Hr]. unfold is_byte in Ha, Hb, Hc.
    cbn [sextets_of_bytes app]. repeat apply Forall_cons_2; [..|by apply IH];
      unfold is_sextet; (Z.div_mod_to_equations; lia).
Qed.

Lemma bytes_of_sextets_of_bytes (bs : list Z) :
  Forall is_byte bs -> bytes_of_sextets (sextets_of_bytes bs) = bs.
Proof.
  induction bs as [|a|a b|a b c r IH] using list_ind3; intros Hbs.
  - done.
  - inversion_clear Hbs as [|? ? Ha _]. unfold is_byte in Ha.
    cbn [sextets_of_bytes bytes_of_sextets]. f_equal.
    Z.div_mod_to_equations; lia.
  - inversion_clear Hbs as [|? ? Ha Hbs']. inversion_clear Hbs' as [|? ? Hb _].
    unfold is_byte in Ha, Hb.
    cbn [sextets_of_bytes bytes_of_sextets].
    f_equal; [|f_equal]; (Z.div_mod_to_equations; lia).
  - inversion_clear Hbs as [|? ? Ha Hbs']. inversion_clear Hbs' as [|? ? Hb Hbs].
    inversion_clear Hbs as [|? ? Hc Hr]. unfold is_byte in Ha, Hb, Hc.
    cbn [sextets_of_bytes bytes_of_sextets app]. rewrite IH by done.
    f_equal; [|f_equal; [|f_equal]]; (Z.div_mod_to_equations; lia).
Qed.

(** The encoded text is a whole number of four-character groups, and
    without its padding it never has one character left over. *)
Lemma encode_lengths (bs : list Z) :
  ((length (sextets_of_bytes bs) + length (padding (length bs))) mod 4 = 0 /\
   length (sextets_of_bytes bs) mod 4 <> 1)%nat /\
  (padding (length bs) = [] \/ padding (length bs) = [pad] \/
   padding (length bs) = [pad; pad]).
Proof.
  induction bs as [|a|a b|a b c r IH] using list_ind3.
  - cbn. auto.
  - cbn. auto.
  - cbn. auto.
  - destruct IH as [[IH1 IH2] IH3].
    assert (padding (length (a :: b :: c :: r)) = padding (length r)) as ->.
    { unfold padding. cbn [length].
      by replace (S (S (S (length r)))) with (length r + 1 * 3)%nat
        by lia; rewrite Nat.Div0.mod_add. }
    cbn [sextets_of_bytes length app].
    split; [|done]. split.
    + replace (S (S (S (S (length (sextets_of_bytes r)))))
               + length (padding (length r)))%nat
        with ((length (sextets_of_bytes r) + length (padding (length r)))
              + 1 * 4)%nat by lia.
      by rewrite Nat.Div0.mod_add.
    + replace (S (S (S (S (length (sextets_of_bytes r))))))
        with (length (sextets_of_bytes r) + 1 * 4)%nat by lia.
      by rewrite Nat.Div0.mod_add.
Qed.

Lemma strip_padding_app (cs pd : list ascii) :
  Forall (fun c => Ascii.eqb c pad = false) cs ->
  pd = [] \/ pd = [pad] \/ pd = [pad; pad] ->
  strip_padding (cs ++ pd) = cs.
Proof.
  intros Hcs Hpd. unfold strip_padding. rewrite rev_app_distr.
  assert (Forall (fun c => Ascii.eqb c pad = false) (rev cs)) as Hrev.
  { apply Forall_forall. intros c Hc. rewrite Forall_forall in Hcs.
    apply Hcs. apply list_elem_of_In. apply in_rev.
    by apply list_elem_of_In. }
  pose proof (rev_involutive cs) as Hinv.
  destruct Hpd as [-> | [-> | ->]]; cbn [rev app].
  - rewrite app_nil_r.
    destruct (rev cs) as [|x [|y r]]; [done| |].
    + inversion_clear Hrev as [|? ? Hx _]. by rewrite Hx.
    + inversion_clear Hrev as [|? ? Hx _]. by rewrite Hx.
  - destruct (rev cs) as [|y r].
    + cbn in Hinv. by subst cs.
    + inversion_clear Hrev as [|? ? Hy _]. cbn. by rewrite Hy.
  - by cbn.
Qed.

Lemma atob_encode (bs : list Z) :
  Forall is_byte bs -> atob (encode bs) = inr bs.
Proof.
  intros Hbs. unfold atob, encode.
  rewrite list_ascii_of_string_of_list_ascii.
  pose proof (sextets_of_bytes_range bs Hbs) as Hss.
  destruct (encode_lengths bs) as [[Hlen4 Hlen1] Hpad].
  assert (Forall (fun c => Ascii.eqb c pad = false)
            (map sextet_char (sextets_of_bytes bs))) as Hnopad.
  { apply Forall_fmap. eapply Forall_impl; [exact Hss|].
    intros n Hn. by apply sextet_char_spec. }
  rewrite filter_all.
  2:{ apply Forall_app. split.
      - apply Forall_fmap. eapply Forall_impl; [exact Hss|].
        intros n Hn. unfold compose.
        destruct (sextet_char_spec n Hn) as (_ & -> & _). done.
      - destruct Hpad as [-> | [-> | ->]]; repeat constructor. }
  rewrite length_app, length_map, Hlen4. cbn [Nat.eqb].
  rewrite strip_padding_app by done. rewrite length_map.
  destruct (Nat.eqb_spec (length (sextets_of_bytes bs) mod 4) 1) as [|_]; [done|].
  rewrite (mapM_fmap_Forall_Some char_sextet sextet_char).
  - unfold ret. by rewrite bytes_of_sextets_of_bytes.
  - eapply Forall_impl; [exact Hss|]. intros n Hn. by apply sextet_char_spec.
Qed.

End Base64Facts.

Lemma map_to_uint8_bytes (bs : list Z) :
  Forall is_byte bs -> map to_uint8 bs = bs.
Proof.
  induction 1 as [|b bs Hb _ IH]; cbn; [done|].
  rewrite IH. f_equal. unfold to_uint8. by apply Z.mod_small.
Qed.

Lemma base64ToUint8Array_encode (bs : list Z) :
  Forall is_byte bs -> base64ToUint8Array (Base64.encode bs) = inr bs.
Proof.
  intros Hbs. unfold base64ToUint8Array.
  rewrite Base64Facts.atob_encode by done. cbn [bind]. unfold ret. f_equal.
  rewrite (for_loop_fill _ (fun i => to_uint8 (get bs i))) by done.
  rewrite (map_get_seq to_uint8). by apply map_to_uint8_bytes.
Qed.

Lemma land_shifted_byte (hi lo : Z) :
  is_byte lo -> Z.land (hi * 2 ^ 8) lo = 0.
Proof.
  intros Hlo. apply Z.bits_inj'. intros n Hn.
  rewrite Z.land_spec, Z.bits_0.
  destruct (Z.lt_ge_cases n 8) as [Hlt|Hge].
  - by rewrite Z.mul_pow2_bits_low by lia.
  - assert (Z.testbit lo n = false) as ->; [|apply andb_false_r].
    destruct (decide (lo = 0)) as [->|Hne]; [apply Z.bits_0|].
    apply Z.bits_above_log2; [unfold is_byte in Hlo; lia|].
    assert (Z.log2 lo < 8); [|lia].
    apply Z.log2_lt_pow2; unfold is_byte in Hlo; lia.
Qed.

Lemma lor_shiftl_bytes (hi lo : Z) :
  is_byte lo -> Z.lor (Z.shiftl hi 8) lo = hi * 256 + lo.
Proof.
  intros Hlo. rewrite Z.shiftl_mul_pow2 by lia.
  pose proof (land_shifted_byte hi lo Hlo) as Hland.
  rewrite <- Z.lxor_lor by done. rewrite <- Z.add_nocarry_lxor by done.
  reflexivity.
Qed.

Lemma to_int16_range (z : Z) : is_int16 (to_int16 z).
Proof. unfold is_int16, to_int16. Z.div_mod_to_equations; lia. Qed.

(** The sign fix-up after the store never fires: the element read back
    from the [Int16Array] is already at most 32767. *)
Lemma uint8ArrayToInt16Array_spec (u8 : list Z) :
  uint8ArrayToInt16Array u8 =
  map (fun i => to_int16 (Z.lor (Z.shiftl (get u8 (i * 2 + 1)) 8) (get u8 (i * 2))))
    (seq 0 (length u8 / 2)).
Proof.
  unfold uint8ArrayToInt16Array. rewrite length_replicate.
  apply for_loop_fill. intros i l Hi Hl. cbv zeta.
  set (v := to_int16 _).
  assert (get (<[i:=v]> l) i = v) as ->.
  { unfold get. by rewrite list_lookup_insert_eq by lia. }
  pose proof (to_int16_range
                (Z.lor (Z.shiftl (get u8 (i * 2 + 1)) 8) (get u8 (i * 2)))) as Hv.
  fold v in Hv. unfold is_int16 in Hv.
  rewrite Z.gtb_ltb. by destruct (Z.ltb_spec 32767 v); [lia|].
Qed.

Lemma uint8ArrayToInt16Array_length (u8 : list Z) :
  length (uint8ArrayToInt16Array u8) = (length u8 / 2)%nat.
Proof. by rewrite uint8ArrayToInt16Array_spec, length_map, length_seq. Qed.

Lemma pcm16le_length (ss : list Z) : length (pcm16le ss) = (length ss * 2)%nat.
Proof.
  unfold pcm16le. induction ss as [|s ss IH]; cbn; [done|]. by rewrite IH.
Qed.

Lemma pcm16le_bytes (ss : list Z) : Forall is_byte (pcm16le ss).
Proof.
  induction ss as [|s ss IH]; cbn; [constructor|].
  repeat apply Forall_cons_2; [..|done]; unfold is_byte;
    (Z.div_mod_to_equations; lia).
Qed.

Lemma pcm16le_lookup (ss : list Z) (i : nat) (s : Z) :
  ss !! i = Some s ->
  pcm16le ss !! (i * 2)%nat = Some ((s mod 65536) mod 256) /\
  pcm16le ss !! (i * 2 + 1)%nat = Some ((s mod 65536) / 256).
Proof.
  revert i. induction ss as [|x ss IH]; intros [|i] H; try done.
  - cbn in H. injection H as ->. done.
  - cbn in H. apply IH in H. exact H.
Qed.

Lemma uint8ArrayToInt16Array_pcm16le (ss : list Z) :
  Forall is_int16 ss -> uint8ArrayToInt16Array (pcm16le ss) = ss.
Proof.
  intros Hss. rewrite uint8ArrayToInt16Array_spec, pcm16le_length.
  rewrite Nat.div_mul by done.
  apply list_eq. intros i. rewrite list_lookup_fmap.
  destruct (ss !! i) as [s|] eqn:Hs.
  - rewrite lookup_seq_lt by (by eapply lookup_lt_Some). cbn [fmap option_fmap option_map].
    f_equal. destruct (pcm16le_lookup _ _ _ Hs) as [Hlo Hhi].
    cbn [Nat.add]. unfold get. rewrite Hlo, Hhi.
    rewrite lor_shiftl_bytes by (unfold is_byte; Z.div_mod_to_equations; lia).
    pose proof (proj1 (Forall_lookup _ _) Hss i s Hs) as Hs16.
    unfold is_int16 in Hs16. unfold to_int16. Z.div_mod_to_equations; lia.
  - by rewrite lookup_seq_ge by (by apply lookup_ge_None).
Qed.

Lemma int16ArrayToFloat32Array_spec (l : list Z) :
  int16ArrayToFloat32Array l = map (fun z => (inject_Z z * scale)%Q) l.
Proof.
  unfold int16ArrayToFloat32Array.
  rewrite (for_loop_fill _ (fun i => (inject_Z (get l i) * scale)%Q)) by done.
  apply (map_get_seq (fun z => (inject_Z z * scale)%Q)).
Qed.

(** C3: decoding the base64 text of N 16-bit signed little-endian
    samples gives N floats, the i-th being sample i divided by 32768,
    all of them between -1 and 1. *)
Theorem decode_round_trip (samples : list Z) :
  Forall is_int16 samples ->
  exists out : list Q,
    base64PcmToFloat32 (Base64.encode (pcm16le samples)) = inr out /\
    length out = length samples /\
    (forall i s, samples !! i = Some s ->
       exists x, out !! i = Some x /\ (x == inject_Z s / 32768)%Q) /\
    Forall (fun x => (-1 <= x <= 1)%Q) out.
Proof.
  intros Hss. exists (map (fun z => (inject_Z z * scale)%Q) samples).
  split; [|split; [|split]].
  - unfold base64PcmToFloat32.
    rewrite base64ToUint8Array_encode by apply pcm16le_bytes. cbn [bind].
    rewrite uint8ArrayToInt16Array_pcm16le by done.
    by rewrite int16ArrayToFloat32Array_spec.
  - by rewrite length_map.
  - intros i s Hs. eexists. rewrite list_lookup_fmap, Hs. split; [done|].
    unfold scale, Qdiv. by rewrite Qmult_1_l.
  - apply Forall_fmap. eapply Forall_impl; [exact Hss|].
    intros s Hs. unfold is_int16 in Hs. unfold compose, scale, Qle. cbn. lia.
Qed.

Lemma decode_round_trip_witness :
  exists out : list Q,
    base64PcmToFloat32 (Base64.encode (pcm16le [0; -32768; 32767; -1])) = inr out /\
    length out = 4%nat /\
    (forall i s, [0; -32768; 32767; -1] !! i = Some s ->
       exists x, out !! i = Some x /\ (x == inject_Z s / 32768)%Q) /\
    Forall (fun x => (-1 <= x <= 1)%Q) out.
Proof.
  apply (decode_round_trip [0; -32768; 32767; -1]).
  repeat constructor; unfold is_int16; lia.
Defined.

(** * Properties of the envelope shaper *)

Section ForLoopAlter.
Context {A : Type}.

Lemma for_loop_ext (body1 body2 : nat -> A -> A) (n : nat) (a : A) :
  (forall i x, (i < n)%nat -> body1 i x = body2 i x) ->
  for_loop n body1 a = for_loop n body2 a.
Proof.
  intros Hext. induction n as [|n IH]; cbn [for_loop]; [done|].
  rewrite IH by (intros; apply Hext; lia). apply Hext. lia.
Qed.

Lemma for_loop_alter_length (f : nat -> A -> A) (start n : nat) (l0 : list A) :
  length (for_loop n (fun i l => alter (f i) (start + i)%nat l) l0) = length l0.
Proof.
  induction n as [|n IH]; cbn [for_loop]; [done|]. by rewrite length_alter.
Qed.

(** A loop that scales the elements [start .. start + n - 1] in turn. *)
Lemma for_loop_alter_lookup (f : nat -> A -> A) (start n : nat) (l0 : list A)
    (j : nat) :
  for_loop n (fun i l => alter (f i) (start + i)%nat l) l0 !! j =
  if decide (start <= j < start + n)%nat
  then f (j - start)%nat <$> l0 !! j
  else l0 !! j.
Proof.
  induction n as [|n IH]; cbn [for_loop].
  - case_decide; [lia|done].
  - destruct (decide (start + n = j)%nat) as [<-|Hne].
    + rewrite list_lookup_alter_eq, IH.
      rewrite decide_False by lia. rewrite decide_True by lia.
      by replace (start + n - start)%nat with n by lia.
    + rewrite list_lookup_alter_ne by done. rewrite IH.
      repeat case_decide; (done || lia).
Qed.
End ForLoopAlter.

Lemma applyFadeIn_lookup (data : list Q) (fadeSamples : Z) (j : nat) :
  let fadeLength := Z.min fadeSamples (Z.of_nat (length data)) in
  applyFadeIn data fadeSamples !! j =
  (fun x => if decide (j < Z.to_nat fadeLength)%nat
            then (x * (inject_Z (Z.of_nat j) / inject_Z fadeLength))%Q
            else x) <$> data !! j.
Proof.
  intros fadeLength. unfold applyFadeIn. fold fadeLength.
  pose proof (for_loop_alter_lookup
    (fun i x => (x * (inject_Z (Z.of_nat i) / inject_Z fadeLength))%Q)
    0 (Z.to_nat fadeLength) data j) as H.
  cbn [Nat.add] in H. rewrite H. clear H.
  destruct (data !! j) as [x|]; repeat case_decide; try lia; try done.
  cbn. by rewrite Nat.sub_0_r.
Qed.

Lemma applyFadeOut_spec (data : list Q) (fadeSamples : Z) :
  let fadeLength := Z.min fadeSamples (Z.of_nat (length data)) in
  applyFadeOut data fadeSamples =
  for_loop (Z.to_nat fadeLength)
    (fun i l =>
       alter (fun x => (x * (1 - inject_Z (Z.of_nat i) / inject_Z fadeLength))%Q)
         ((length data - Z.to_nat fadeLength) + i)%nat l)
    data.
Proof.
  intros fadeLength. unfold applyFadeOut. fold fadeLength.
  apply for_loop_ext. intros i l Hi. cbv zeta. f_equal.
  unfold fadeLength in *. lia.
Qed.

Lemma applyFadeOut_length (data : list Q) (fadeSamples : Z) :
  length (applyFadeOut data fadeSamples) = length data.
Proof.
  rewrite applyFadeOut_spec. cbv zeta.
  apply (for_loop_alter_length
           (fun i x => (x * (1 - inject_Z (Z.of_nat i) / inject_Z _))%Q)).
Qed.

Lemma applyFadeOut_lookup (data : list Q) (fadeSamples : Z) (j : nat) :
  let fadeLength := Z.min fadeSamples (Z.of_nat (length data)) in
  let start := (length data - Z.to_nat fadeLength)%nat in
  applyFadeOut data fadeSamples !! j =
  (fun x => if decide (start <= j < length data)%nat
            then (x * (1 - inject_Z (Z.of_nat (j - start)) / inject_Z fadeLength))%Q
            else x) <$> data !! j.
Proof.
  intros fadeLength start. rewrite applyFadeOut_spec. cbv zeta.
  fold fadeLength. fold start.
  rewrite (for_loop_alter_lookup
    (fun i x => (x * (1 - inject_Z (Z.of_nat i) / inject_Z fadeLength))%Q)).
  destruct (data !! j) as [x|] eqn:Hx.
  - apply lookup_lt_Some in Hx.
    assert (start + Z.to_nat fadeLength = length data)%nat
      by (unfold start, fadeLength; lia).
    repeat case_decide; try lia; done.
  - by case_decide.
Qed.

(** C8, as the code has it: the exit fade is the entry fade mirrored in
    time and moved by one sample.  At distance [d] from the end the exit
    fade applies the gain [(d + 1) / fadeLength]; at distance [d] from the
    start the entry fade applies [d / fadeLength]. *)
Theorem fade_out_shifted_mirror (data : list Q) (fadeSamples : Z) (d : nat) :
  let fadeLength := Z.min fadeSamples (Z.of_nat (length data)) in
  let exit_gain :=
    (1 - inject_Z (Z.of_nat (Z.to_nat fadeLength - 1 - d)) / inject_Z fadeLength)%Q in
  let entry_gain := (inject_Z (Z.of_nat d) / inject_Z fadeLength)%Q in
  reverse (applyFadeOut data fadeSamples) !! d =
    (fun x => if decide (d < Z.to_nat fadeLength)%nat then (x * exit_gain)%Q else x)
      <$> reverse data !! d /\
  applyFadeIn (reverse data) fadeSamples !! d =
    (fun x => if decide (d < Z.to_nat fadeLength)%nat then (x * entry_gain)%Q else x)
      <$> reverse data !! d /\
  (if decide (d < Z.to_nat fadeLength)%nat
   then (exit_gain == inject_Z (Z.of_nat d + 1) / inject_Z fadeLength)%Q
   else True).
Proof.
  intros fadeLength exit_gain entry_gain. split; [|split].
  - destruct (decide (d < length data)%nat) as [Hd|Hd].
    + rewrite reverse_lookup by (by rewrite applyFadeOut_length).
      rewrite (reverse_lookup data) by done.
      rewrite applyFadeOut_length, applyFadeOut_lookup. cbv zeta.
      fold fadeLength.
      destruct (data !! (length data - S d)%nat) as [x|]; [|done].
      cbn. f_equal. unfold exit_gain.
      assert (Z.to_nat fadeLength <= length data)%nat
        by (unfold fadeLength; lia).
      repeat case_decide; try lia; try done.
      do 4 f_equal. lia.
    + rewrite !(proj2 (lookup_ge_None _ _));
        rewrite ?length_reverse, ?applyFadeOut_length; (done || lia).
  - rewrite applyFadeIn_lookup. cbv zeta. rewrite length_reverse.
    by fold fadeLength.
  - case_decide as Hd; [|done]. unfold exit_gain.
    assert (0 < fadeLength) as Hpos by lia.
    replace (Z.of_nat (Z.to_nat fadeLength - 1 - d))
      with (fadeLength + - (Z.of_nat d + 1)) by lia.
    rewrite inject_Z_plus, inject_Z_opp. field.
    intros H0. unfold Qeq in H0. cbn in H0. lia.
Qed.

(** C8, as it is stated, fails on a buffer of one sample: the entry fade
    silences the sample and the exit fade keeps it. *)
Lemma fade_out_mirror_counterexample :
  ~ Forall2 Qeq (reverse (applyFadeOut [1%Q] 1)) (applyFadeIn (reverse [1%Q]) 1).
Proof.
  intros H. vm_compute in H. inversion H as [|? ? ? ? Hq _]; subst.
  vm_compute in Hq. discriminate Hq.
Qed.

(** * Properties of the audio service *)

(** ** Volume *)

Lemma SFltb_leb (x y : number) : SFltb x y = true -> SFleb x y = true.
Proof. unfold SFltb, SFleb. by destruct (SFcompare x y) as [[]|]. Qed.

Lemma clamp_in_unit_interval (v : number) :
  is_nan_b v = false ->
  is_nan_b (Math_max zero (Math_min one v)) = false /\
  in_unit_interval (Math_max zero (Math_min one v)) = true.
Proof.
  intros Hv. unfold Math_min. rewrite Hv. cbn [is_nan_b one orb].
  assert (is_pos_zero one = false) as -> by done. rewrite andb_false_r.
  destruct (SFltb v one) eqn:Hlt1.
  - unfold Math_max. rewrite Hv. cbn [is_nan_b zero orb].
    assert (is_neg_zero zero = false) as -> by done. rewrite andb_false_r.
    destruct (SFltb zero v) eqn:Hlt0; [|done].
    split; [done|]. unfold in_unit_interval.
    by rewrite (SFltb_leb _ _ Hlt0), (SFltb_leb _ _ Hlt1).
  - done.
Qed.

(** What the clamp achieves.  For every input but NaN, [setVolume]
    stores the clamped value, [getVolume] returns it, the one
    volume-change event carries it, and it lies in [0, 1]. *)
Lemma setVolume_clamps (v : number) (s : AudioService) :
  is_nan_b v = false ->
  let s' := (setVolume v s).1.1 in
  volume s' = Math_max zero (Math_min one v) /\
  getVolume s' = Math_max zero (Math_min one v) /\
  (setVolume v s).2 = ret tt /\
  (forall x, In (Emit (VolumeChange x)) (setVolume v s).1.2 <-> x = getVolume s') /\
  in_unit_interval (getVolume s') = true.
Proof.
  intros Hv. destruct (clamp_in_unit_interval v Hv) as [Hnan Hunit].
  unfold setVolume, getVolume.
  destruct (gainNode s) as [g|] eqn:Hg; cbn [gainNode set_volume volume].
  - rewrite Hg, Hnan. cbn. repeat split; try done.
    + intros [H|[H|[]]]; [discriminate|by injection H].
    + intros ->. right. by left.
  - rewrite Hg. cbn. repeat split; try done.
    + intros [H|[]]. by injection H.
    + intros ->. by left.
Qed.

Lemma setVolume_clamps_witness :
  let s' := (setVolume (S754_infinity false) new_AudioService).1.1 in
  volume s' = one /\ getVolume s' = one /\
  (setVolume (S754_infinity false) new_AudioService).2 = ret tt /\
  (forall x, In (Emit (VolumeChange x))
               (setVolume (S754_infinity false) new_AudioService).1.2
             <-> x = getVolume s') /\
  in_unit_interval (getVolume s') = true.
Proof.
  apply (setVolume_clamps (S754_infinity false) new_AudioService). reflexivity.
Defined.

(** C9: at NaN the clamp of [setVolume] misses.  [Math.min(1, NaN)]
    and [Math.max(0, NaN)] are NaN, so NaN is stored and [getVolume]
    returns it, a value outside [0, 1].  Before the service is initialized
    the volume-change event carries NaN; on an initialized service
    [setTargetAtTime] raises a TypeError after NaN has been stored, and no
    event is emitted. *)
Theorem setVolume_nan :
  let s0 := new_AudioService in
  let s1 := (initialize (inr running) new_AudioService).1.1 in
  in_unit_interval NaN = false /\
  (getVolume (setVolume NaN s0).1.1 = NaN /\
   (setVolume NaN s0).1.2 = [Emit (VolumeChange NaN)] /\
   (setVolume NaN s0).2 = ret tt) /\
  (gainNode s1 = Some one /\
   getVolume (setVolume NaN s1).1.1 = NaN /\
   (setVolume NaN s1).1.2 = [] /\
   (setVolume NaN s1).2 = throw TypeError).
Proof. vm_compute. done. Qed.

(** ** Chunks that are not queued *)

(** C10: before the audio context exists a chunk is discarded with a
    console warning only, and the service is left as it was. *)
Theorem queueAudioChunk_uninitialized (base64Data : string) (s : AudioService) :
  audioContext s = None ->
  queueAudioChunk base64Data s = (s, [ConsoleWarn "AudioContext not initialized"]).
Proof. intros H. unfold queueAudioChunk. by rewrite H. Qed.

Lemma queueAudioChunk_uninitialized_witness :
  queueAudioChunk "ZADIANT+" new_AudioService
  = (new_AudioService, [ConsoleWarn "AudioContext not initialized"]).
Proof. apply (queueAudioChunk_uninitialized "ZADIANT+" new_AudioService). reflexivity. Defined.

(** C7, as it is stated, fails on a chunk of three bytes: it is queued
    as one sample. *)
Lemma odd_chunk_counterexample :
  let s := (initialize (inr running) new_AudioService).1.1 in
  let s' := (queueAudioChunk "AAAA" s).1 in
  base64ToUint8Array "AAAA" = inr [0; 0; 0] /\
  audioQueue s = [] /\
  length (audioQueue s') = 1%nat /\
  ~ (totalBufferedDuration s' == totalBufferedDuration s)%Q /\
  ~ (bufferLevel s' == bufferLevel s)%Q.
Proof. vm_compute. repeat split; try done; intros H; discriminate H. Qed.

(** ** The scheduling loop *)

Lemma Qltb_lt (x y : Q) : Qltb x y = true <-> (x < y)%Q.
Proof.
  unfold Qltb. rewrite negb_true_iff, <- not_true_iff_false, Qle_bool_iff.
  split; [apply Qnot_le_lt | apply Qlt_not_le].
Qed.

Lemma Qltb_ge (x y : Q) : Qltb x y = false <-> (y <= x)%Q.
Proof. unfold Qltb. by rewrite negb_false_iff, Qle_bool_iff. Qed.

Lemma duration_nonneg (b : AudioBuffer) : (0 <= duration b)%Q.
Proof. unfold duration, Qle. cbn. lia. Qed.

Lemma Qle_plus_duration (x y : Q) (b : AudioBuffer) :
  (x <= y)%Q -> (x <= y + duration b)%Q.
Proof.
  intros Hxy. rewrite <- (Qplus_0_r x).
  apply Qplus_le_compat; [done|apply duration_nonneg].
Qed.

(** One iteration, with the underrun test and the look-ahead test
    spelled out. *)
Lemma schedule_cons (now : Q) (b : AudioBuffer) (rest : list AudioBuffer)
    (s : AudioService) :
  schedule now (b :: rest) s =
  let underrun := Qltb (nextStartTime s) now in
  let start := if underrun then now else nextStartTime s in
  let t1 := if underrun
            then [ConsoleWarn "Audio underrun detected"; Emit Underrun]
            else [] in
  let source := {| node := nextNode s; buffer := b |} in
  let s1 := scheduled_one start b rest s in
  if Qltb lookahead_ceiling (start + duration b - now)%Q
  then (s1, t1 ++ [Start source start])
  else (let '(s2, t3) := schedule now rest s1 in
        (s2, t1 ++ [Start source start] ++ t3)).
Proof.
  cbn [schedule]. cbv zeta. unfold lookahead_ceiling. simpl_fields.
  destruct (Qltb (nextStartTime s) now); reflexivity.
Qed.

(** After its first iteration the loop is never behind the clock, so it
    reports no further underrun. *)
Lemma schedule_no_underrun (now : Q) (queue : list AudioBuffer) (s : AudioService) :
  (now <= nextStartTime s)%Q ->
  ~ In (Emit Underrun) (schedule now queue s).2 /\
  (now <= nextStartTime (schedule now queue s).1)%Q.
Proof.
  revert s. induction queue as [|b rest IH]; intros s Hnow.
  - cbn [schedule fst snd In]. tauto.
  - rewrite schedule_cons. cbv zeta.
    apply Qltb_ge in Hnow as Hge. rewrite Hge.
    assert (now <= nextStartTime (scheduled_one (nextStartTime s) b rest s))%Q
      as Hnext.
    { simpl_fields. by apply Qle_plus_duration. }
    destruct (Qltb lookahead_ceiling _).
    + cbn [fst snd app In]. split; [|done]. intros [H|[]]. discriminate H.
    + specialize (IH _ Hnext).
      destruct (schedule now rest _) as [s2 t3]. cbn [fst snd app In] in *.
      split; [|tauto]. intros [H|H]; [discriminate H|tauto].
Qed.

(** The loop never moves [nextStartTime] back. *)
Lemma schedule_monotone (now : Q) (queue : list AudioBuffer) (s : AudioService) :
  (nextStartTime s <= nextStartTime (schedule now queue s).1)%Q.
Proof.
  revert s. induction queue as [|b rest IH]; intros s.
  - cbn [schedule fst]. apply Qle_refl.
  - rewrite schedule_cons. cbv zeta.
    set (start := if Qltb (nextStartTime s) now then now else nextStartTime s).
    assert (nextStartTime s <= start)%Q as Hstart.
    { unfold start. destruct (Qltb (nextStartTime s) now) eqn:Hlt.
      - apply Qltb_lt in Hlt. by apply Qlt_le_weak.
      - apply Qle_refl. }
    assert (nextStartTime s <= nextStartTime (scheduled_one start b rest s))%Q
      as Hone.
    { simpl_fields. by apply Qle_plus_duration. }
    destruct (Qltb lookahead_ceiling _); [done|].
    specialize (IH (scheduled_one start b rest s)).
    destruct (schedule now rest _) as [s2 t3]. cbn [fst] in *.
    by eapply Qle_trans.
Qed.

(** C2: a buffer dequeued while [nextStartTime] is behind the clock
    reading of the drain is scheduled whole at that clock reading, with
    one underrun event and no other in that drain. *)
Theorem underrun_recovery (s : AudioService) (ctx : AudioContext)
    (b : AudioBuffer) (rest : list AudioBuffer) :
  audioContext s = Some ctx ->
  playbackState s = playing ->
  isProcessingQueue s = false ->
  audioQueue s = b :: rest ->
  (nextStartTime s < currentTime ctx)%Q ->
  exists t,
    (processAudioQueue s).2 =
      ConsoleWarn "Audio underrun detected" :: Emit Underrun
      :: Start {| node := nextNode s; buffer := b |} (currentTime ctx) :: t /\
    ~ In (Emit Underrun) t /\
    (currentTime ctx + duration b <= nextStartTime (processAudioQueue s).1)%Q.
Proof.
  intros Hctx Hplay Hproc Hqueue Hlt.
  unfold processAudioQueue. rewrite Hctx, Hplay, Hproc.
  rewrite bool_decide_eq_true_2 by done. cbn [orb negb].
  simpl_fields. rewrite Hqueue, schedule_cons.
  cbv zeta. simpl_fields.
  apply Qltb_lt in Hlt. rewrite Hlt.
  set (s1 := scheduled_one _ _ _ _).
  assert (currentTime ctx <= nextStartTime s1)%Q as Hs1.
  { unfold s1. simpl_fields. apply Qle_plus_duration, Qle_refl. }
  destruct (Qltb lookahead_ceiling _).
  - exists (if negb (length (audioQueue (set_isProcessingQueue false s1)) =? 0)%nat
               && bool_decide (playbackState (set_isProcessingQueue false s1)
                               = playing)
            then [RequestAnimationFrame] else []).
    destruct (negb _ && _); cbn [fst snd app]; simpl_fields.
    + split; [done|]. split; [|apply Qle_refl].
      intros [H|[]]. discriminate H.
    + split; [done|]. split; [intros []|apply Qle_refl].
  - destruct (schedule_no_underrun (currentTime ctx) rest s1 Hs1) as [Hno _].
    pose proof (schedule_monotone (currentTime ctx) rest s1) as Hmono.
    destruct (schedule (currentTime ctx) rest s1) as [s2 t3].
    cbn [fst snd] in *.
    exists (if negb (length (audioQueue (set_isProcessingQueue false s2)) =? 0)%nat
               && bool_decide (playbackState (set_isProcessingQueue false s2)
                               = playing)
            then t3 ++ [RequestAnimationFrame] else t3).
    destruct (negb _ && _); cbn [fst snd app]; simpl_fields.
    + split; [done|]. split; [|done].
      rewrite in_app_iff. intros [H|[H|[]]]; [tauto|discriminate H].
    + split; [done|]. split; done.
Qed.

Lemma underrun_recovery_witness :
  exists t,
    (processAudioQueue (playing_at 5 0 [silence 3; silence 2])).2 =
      ConsoleWarn "Audio underrun detected" :: Emit Underrun
      :: Start {| node := 0; buffer := silence 3 |} 5 :: t /\
    ~ In (Emit Underrun) t /\
    (5 + duration (silence 3)
     <= nextStartTime (processAudioQueue (playing_at 5 0 [silence 3; silence 2])).1)%Q.
Proof.
  apply (underrun_recovery (playing_at 5 0 [silence 3; silence 2])
           {| state := running; currentTime := 5 |} (silence 3) [silence 2]);
    reflexivity.
Defined.

(** ** The look-ahead ceiling *)

Lemma schedule_head (now : Q) (queue : list AudioBuffer) (s : AudioService)
    (b : AudioBufferSourceNode) (t2 : Q) (post : list effect) :
  (schedule now queue s).2 = Start b t2 :: post -> t2 = nextStartTime s.
Proof.
  destruct queue as [|x rest]; [discriminate|].
  rewrite schedule_cons. cbv zeta.
  destruct (Qltb (nextStartTime s) now).
  - destruct (Qltb lookahead_ceiling _); [discriminate|].
    destruct (schedule now rest _). discriminate.
  - destruct (Qltb lookahead_ceiling _).
    + cbn [snd app]. intros H. by injection H.
    + destruct (schedule now rest _). cbn [snd app]. intros H. by injection H.
Qed.

(** Inside one run of the loop, a segment that follows another was
    dequeued with [nextStartTime] at most the ceiling ahead of the clock,
    and starts where the one before it ends. *)
Lemma schedule_lookahead (now : Q) (queue : list AudioBuffer) (s : AudioService)
    (pre : list effect) (a : AudioBufferSourceNode) (t1 : Q)
    (b : AudioBufferSourceNode) (t2 : Q) (post : list effect) :
  (schedule now queue s).2 = pre ++ Start a t1 :: Start b t2 :: post ->
  t2 = (t1 + duration (buffer a))%Q /\ (t2 - now <= lookahead_ceiling)%Q.
Proof.
  revert s pre. induction queue as [|x rest IH]; intros s pre.
  - cbn [schedule snd]. by destruct pre.
  - rewrite schedule_cons. cbv zeta.
    set (start := if Qltb (nextStartTime s) now then now else nextStartTime s).
    set (t0 := if Qltb (nextStartTime s) now
               then [ConsoleWarn "Audio underrun detected"; Emit Underrun]
               else []).
    assert (forall t3 pre',
              Start {| node := nextNode s; buffer := x |} start :: t3
              = pre' ++ Start a t1 :: Start b t2 :: post ->
              (t3 = Start b t2 :: post /\
               a = {| node := nextNode s; buffer := x |} /\ t1 = start) \/
              exists pre'', t3 = pre'' ++ Start a t1 :: Start b t2 :: post)
      as Hsplit.
    { intros t3 [|e pre'] H.
      - left. injection H as Ha Ht Ht3. by subst.
      - right. injection H as _ H. by exists pre'. }
    assert (forall t3 pre',
              t0 ++ Start {| node := nextNode s; buffer := x |} start :: t3
              = pre' ++ Start a t1 :: Start b t2 :: post ->
              (t3 = Start b t2 :: post /\
               a = {| node := nextNode s; buffer := x |} /\ t1 = start) \/
              exists pre'', t3 = pre'' ++ Start a t1 :: Start b t2 :: post)
      as Hsplit0.
    { intros t3 pre' H. unfold t0 in H.
      destruct (Qltb (nextStartTime s) now); [|by eapply Hsplit].
      destruct pre' as [|e1 [|e2 pre']]; try discriminate H.
      injection H as _ _ H. by eapply Hsplit. }
    destruct (Qltb lookahead_ceiling _) eqn:Hahead.
    + cbn [snd]. intros H. apply (Hsplit0 []) in H.
      destruct H as [[H _]|[pre'' H]]; [discriminate H|by destruct pre''].
    + pose proof (schedule_head now rest (scheduled_one start x rest s)) as Hhead.
      specialize (IH (scheduled_one start x rest s)).
      destruct (schedule now rest _) as [s2 t3]. cbn [snd] in *.
      intros H. apply Hsplit0 in H.
      destruct H as [(H & -> & ->)|[pre'' H]]; [|by eapply IH].
      apply Hhead in H. simpl_fields. subst t2. split; [done|].
      by apply Qltb_ge in Hahead.
Qed.

(** Where the ceiling does hold: in one run of the draining routine
    every buffer after the first is dequeued with [nextStartTime - now] at
    most the ceiling (ten times the look-ahead constant). *)
Lemma lookahead_after_first (s : AudioService) (ctx : AudioContext)
    (pre : list effect) (a : AudioBufferSourceNode) (t1 : Q)
    (b : AudioBufferSourceNode) (t2 : Q) (post : list effect) :
  audioContext s = Some ctx ->
  (processAudioQueue s).2 = pre ++ Start a t1 :: Start b t2 :: post ->
  t2 = (t1 + duration (buffer a))%Q /\
  (t2 - currentTime ctx <= AUDIO_CONFIG.LOOKAHEAD_TIME * 10)%Q.
Proof.
  intros Hctx. unfold processAudioQueue. rewrite Hctx.
  destruct (isProcessingQueue s || _); [by destruct pre|].
  pose proof (schedule_lookahead (currentTime ctx) (audioQueue s)
                (set_isProcessingQueue true s)) as Hloop.
  simpl_fields.
  destruct (schedule (currentTime ctx) (audioQueue s) _) as [s2 t3].
  cbn [snd] in *.
  destruct (negb _ && _); cbn [snd]; [|by apply Hloop].
  destruct post as [|e post _] using rev_ind.
  - change (pre ++ [Start a t1; Start b t2])
      with (pre ++ [Start a t1] ++ [Start b t2]).
    rewrite app_assoc. intros H. apply app_inj_tail in H as [_ H]. discriminate H.
  - change (pre ++ Start a t1 :: Start b t2 :: post ++ [e])
      with (pre ++ (Start a t1 :: Start b t2 :: post) ++ [e]).
    rewrite app_assoc. intros H. apply app_inj_tail in H as [H _].
    by eapply Hloop.
Qed.

Lemma lookahead_after_first_witness :
  (0 + duration (silence 3))%Q = (0 + duration (silence 3))%Q /\
  (0 + duration (silence 3) - 0 <= AUDIO_CONFIG.LOOKAHEAD_TIME * 10)%Q.
Proof.
  apply (lookahead_after_first (playing_at 0 0 [silence 3; silence 2])
           {| state := running; currentTime := 0 |}
           [] {| node := 0; buffer := silence 3 |} 0
           {| node := 1; buffer := silence 2 |} (0 + duration (silence 3))%Q []);
    reflexivity.
Defined.

(** The two ways past the ceiling.  A drain that starts with
    [nextStartTime] already beyond the ceiling still dequeues one buffer;
    and inside a drain a buffer is dequeued when [nextStartTime - now] has
    just reached the ceiling. *)
Lemma lookahead_first_buffer_unguarded :
  let s := playing_at 0 5 [silence 2] in
  (AUDIO_CONFIG.LOOKAHEAD_TIME * 10 <= nextStartTime s - 0)%Q /\
  (processAudioQueue s).2 = [Start {| node := 0; buffer := silence 2 |} 5] /\
  let s' := playing_at 0 0 [silence 24000; silence 2] in
  start_times (processAudioQueue s').2 = [0; 24000 # 24000]%Q /\
  ((24000 # 24000) - 0 == AUDIO_CONFIG.LOOKAHEAD_TIME * 10)%Q.
Proof. vm_compute. repeat split; try done; intros H; discriminate H. Qed.

(** C4: while chunks stream in, the ceiling never takes effect.  Sixty
    chunks of 500 samples (1/48 s) each, queued one after the other on a
    playing service with the clock at 0, are all handed to the output at
    once, chunk [i] at [i / 48] s: every [queueAudioChunk] runs the
    draining routine, whose loop dequeues its first buffer before it tests
    the look-ahead.  Chunk 48 is dequeued when [nextStartTime - now] has
    reached the ceiling of 1 s, and the eleven after it when it is beyond
    the ceiling. *)
Theorem lookahead_ceiling_defeated :
  let chunk := Base64.encode (pcm16le (replicate 500 0)) in
  let r := run (replicate 60 (QueueAudioChunk chunk)) (playing_at 0 0 []) in
  Qred lookahead_ceiling = 1%Q /\
  map (fun b => Qred (duration b)) (started r.2) = replicate 60 (1 # 48)%Q /\
  map Qred (start_times r.2)
  = map (fun i => Qred (Z.of_nat i # 48)) (seq 0 60) /\
  audioQueue r.1 = [] /\
  Qred (nextStartTime r.1 - clock r.1) = (5 # 4)%Q.
Proof. vm_compute. done. Qed.

(** The scenario of the specification: three buffers of 100 ms drained
    at clock time 7 start at 7, 7.1 and 7.2. *)
Example three_buffers_scenario :
  Forall2 Qeq
    (start_times
       (processAudioQueue
          (playing_at 7 7 [silence 2400; silence 2400; silence 2400])).2)
    [7; 7 + (1 # 10); 7 + (2 # 10)]%Q.
Proof. vm_compute. repeat constructor. Qed.

(** ** The gapless timeline *)

Lemma gapless_app (e : option Q) (t1 t2 : list effect) :
  gapless e (t1 ++ t2) <-> gapless e t1 /\ gapless (timeline_end e t1) t2.
Proof.
  revert e. induction t1 as [|x t1 IH]; intros e; cbn [app].
  - cbn [gapless timeline_end]. tauto.
  - destruct x as [[]| | | | | | | | | | |]; cbn [gapless timeline_end];
      rewrite ?IH; tauto.
Qed.

Lemma timeline_end_app (e : option Q) (t1 t2 : list effect) :
  timeline_end e (t1 ++ t2) = timeline_end (timeline_end e t1) t2.
Proof.
  revert e. induction t1 as [|x t1 IH]; intros e; cbn [app]; [done|].
  destruct x as [[]| | | | | | | | | | |]; cbn [timeline_end]; by rewrite ?IH.
Qed.

Lemma gapless_first (x : Q) (t : list effect) (b : AudioBufferSourceNode)
    (t2 : Q) (post : list effect) :
  gapless (Some x) t ->
  List.filter is_scheduling t = Start b t2 :: post -> t2 = x.
Proof.
  induction t as [|y t IH]; [discriminate|].
  destruct y as [[]| | | | | | | | | | |];
    cbn [gapless List.filter is_scheduling]; try (by apply IH).
  - discriminate.
  - intros [-> _] H. by injection H.
Qed.

Lemma gapless_adjacent (e : option Q) (t : list effect) (pre : list effect)
    (a : AudioBufferSourceNode) (t1 : Q) (b : AudioBufferSourceNode) (t2 : Q)
    (post : list effect) :
  gapless e t ->
  List.filter is_scheduling t = pre ++ Start a t1 :: Start b t2 :: post ->
  t2 = (t1 + duration (buffer a))%Q.
Proof.
  revert e pre. induction t as [|y t IH]; intros e pre; [by destruct pre|].
  destruct y as [[]| | | | | | | | | | |];
    cbn [gapless List.filter is_scheduling]; try (by apply IH).
  - intros Hg H. destruct pre as [|p pre]; [discriminate|].
    injection H as _ H. by eapply IH.
  - intros [_ Hg] H. destruct pre as [|p pre].
    + injection H as -> -> H. by eapply gapless_first.
    + injection H as _ H. by eapply IH.
Qed.

(** [timeline s t s']: the trace [t] is gapless after the segment that
    ends at [nextStartTime s], and its last segment ends at
    [nextStartTime s']. *)
Lemma timeline_compose (x y z : Q) (t1 t2 : list effect) :
  gapless (Some x) t1 /\ timeline_end (Some x) t1 = Some y ->
  gapless (Some y) t2 /\ timeline_end (Some y) t2 = Some z ->
  gapless (Some x) (t1 ++ t2) /\ timeline_end (Some x) (t1 ++ t2) = Some z.
Proof.
  intros [Hg1 He1] [Hg2 He2]. rewrite gapless_app, timeline_end_app, He1. tauto.
Qed.

Lemma schedule_timeline (now : Q) (queue : list AudioBuffer) (s : AudioService) :
  gapless (Some (nextStartTime s)) (schedule now queue s).2 /\
  timeline_end (Some (nextStartTime s)) (schedule now queue s).2
  = Some (nextStartTime (schedule now queue s).1).
Proof.
  revert s. induction queue as [|b rest IH]; intros s.
  - cbn [schedule fst snd gapless timeline_end]. done.
  - rewrite schedule_cons. cbv zeta.
    set (start := if Qltb (nextStartTime s) now then now else nextStartTime s).
    specialize (IH (scheduled_one start b rest s)).
    destruct (Qltb lookahead_ceiling _).
    + unfold start. destruct (Qltb (nextStartTime s) now);
        cbn [fst snd app gapless timeline_end buffer]; simpl_fields; done.
    + destruct (schedule now rest _) as [s2 t3]. simpl_fields.
      unfold start in *. destruct (Qltb (nextStartTime s) now);
        cbn [fst snd app gapless timeline_end buffer]; tauto.
Qed.

Lemma processAudioQueue_timeline (s : AudioService) :
  gapless (Some (nextStartTime s)) (processAudioQueue s).2 /\
  timeline_end (Some (nextStartTime s)) (processAudioQueue s).2
  = Some (nextStartTime (processAudioQueue s).1).
Proof.
  unfold processAudioQueue. destruct (audioContext s) as [ctx|]; [|done].
  destruct (isProcessingQueue s || _); [done|].
  pose proof (schedule_timeline (currentTime ctx) (audioQueue s)
                (set_isProcessingQueue true s)) as H.
  simpl_fields.
  destruct (schedule (currentTime ctx) (audioQueue s) _) as [s2 t3].
  simpl_fields.
  destruct (negb _ && _); cbn [fst snd]; simpl_fields; [|done].
  rewrite gapless_app, timeline_end_app. destruct H as [Hg ->].
  cbn [gapless timeline_end]. done.
Qed.

Lemma quiet_skip (e : option Q) (t t' : list effect) :
  quiet t ->
  (gapless e (t ++ t') <-> gapless e t') /\
  timeline_end e (t ++ t') = timeline_end e t' /\
  started (t ++ t') = started t'.
Proof.
  induction 1 as [|x t Hx _ IH]; [done|].
  destruct x as [[]| | | | | | | | | | |]; try discriminate Hx;
    cbn [app gapless timeline_end started]; exact IH.
Qed.

(** Every operation that keeps the timeline either leaves
    [nextStartTime] alone and schedules nothing, or does so and then runs
    the draining routine. *)
Lemma step_shape (o : op) (s : AudioService) :
  keeps_timeline o = true ->
  (quiet (step o s).2 /\ nextStartTime (step o s).1 = nextStartTime s) \/
  (exists s_mid t_pre,
     quiet t_pre /\ nextStartTime s_mid = nextStartTime s /\
     step o s = ((processAudioQueue s_mid).1, t_pre ++ (processAudioQueue s_mid).2)).
Proof.
  intros Hkeep. destruct o as [created|created| | | |v|c| |source|t];
    try discriminate Hkeep; cbn [step].
  - (* initialize *)
    left. unfold initialize. destruct (audioContext s); [split; [quiet_trace|done]|].
    destruct created; [split; [quiet_trace|done]|]. simpl_fields.
    destruct (is_nan_b (volume s)); split; (quiet_trace || done).
  - (* play *)
    unfold play, initialize.
    destruct (audioContext s) as [ctx|] eqn:Hctx;
      [|destruct created as [error|st];
        [left; split; [quiet_trace|done]|]; simpl_fields;
        destruct (is_nan_b (volume s));
        [left; split; [quiet_trace|done]|]];
      cbv beta iota; cbn [negb]; simpl_fields; rewrite ?Hctx; cbv beta iota;
      unfold setPlaybackState; repeat case_decide; simpl_fields;
      cbv beta iota; right;
      match goal with
      | |- context [processAudioQueue ?x] =>
          exists x; destruct (processAudioQueue x) as [s3 t3] eqn:E
      end; cbn [fst snd emit]; rewrite ?app_assoc;
      (eexists; split; [|split; [|reflexivity]];
       [cbn [app]; quiet_trace|done]).
  - (* pause *)
    left. unfold pause, setPlaybackState.
    destruct (audioContext s); repeat case_decide; simpl_fields;
      cbn [fst snd app emit]; split; (quiet_trace || done).
  - (* setVolume *)
    left. unfold setVolume. simpl_fields.
    destruct (gainNode s); [destruct (is_nan_b _)|];
      cbn [fst snd app emit throw ret]; simpl_fields; split; (quiet_trace || done).
  - (* queueAudioChunk *)
    unfold queueAudioChunk. destruct (audioContext s) as [ctx|];
      [|left; split; [quiet_trace|done]].
    destruct (bind _ _) as [error|b]; [left; split; [quiet_trace|done]|].
    simpl_fields. case_decide.
    + right.
      match goal with
      | |- context [processAudioQueue ?x] =>
          exists x; destruct (processAudioQueue x) as [s3 t3] eqn:E
      end. cbn [fst snd emit].
      eexists. split; [|split; [|reflexivity]]; [quiet_trace|done].
    + left. cbn [fst snd app emit]. split; [quiet_trace|done].
  - (* the animation frame *)
    right. exists s, []. split; [quiet_trace|]. split; [done|].
    by destruct (processAudioQueue s).
  - (* onended *)
    left. unfold onended. destruct (indexOf _ _); simpl_fields;
      cbn [fst snd]; split; (quiet_trace || done).
  - (* the clock *)
    left. unfold advance_clock. destruct (audioContext s); simpl_fields;
      cbn [fst snd]; split; (quiet_trace || done).
Qed.

Lemma schedule_nothing_started (now : Q) (queue : list AudioBuffer)
    (s : AudioService) :
  started (schedule now queue s).2 = [] -> (schedule now queue s).1 = s.
Proof.
  destruct queue as [|b rest]; [done|]. rewrite schedule_cons. cbv zeta.
  destruct (Qltb lookahead_ceiling _); [|destruct (schedule now rest _)];
    destruct (Qltb (nextStartTime s) now); discriminate.
Qed.

Lemma processAudioQueue_monotone (s : AudioService) :
  (nextStartTime s <= nextStartTime (processAudioQueue s).1)%Q /\
  (started (processAudioQueue s).2 = [] ->
   nextStartTime (processAudioQueue s).1 = nextStartTime s).
Proof.
  unfold processAudioQueue.
  destruct (audioContext s) as [ctx|]; [|split; [apply Qle_refl|done]].
  destruct (isProcessingQueue s || _); [split; [apply Qle_refl|done]|].
  pose proof (schedule_monotone (currentTime ctx) (audioQueue s)
                (set_isProcessingQueue true s)) as Hmono.
  pose proof (schedule_nothing_started (currentTime ctx) (audioQueue s)
                (set_isProcessingQueue true s)) as Hnone.
  simpl_fields.
  destruct (schedule (currentTime ctx) (audioQueue s) _) as [s2 t3].
  simpl_fields.
  assert (started (t3 ++ [RequestAnimationFrame]) = started t3) as Hraf.
  { clear. induction t3 as [|x t3 IH]; [done|].
    destruct x; cbn [app started]; by rewrite ?IH. }
  destruct (negb _ && _); cbn [fst snd]; simpl_fields; rewrite ?Hraf;
    (split; [done|]); intros H; apply Hnone in H; by subst s2.
Qed.

Lemma step_timeline (o : op) (s : AudioService) :
  keeps_timeline o = true ->
  gapless (Some (nextStartTime s)) (step o s).2 /\
  timeline_end (Some (nextStartTime s)) (step o s).2
  = Some (nextStartTime (step o s).1).
Proof.
  intros Hkeep.
  destruct (step_shape o s Hkeep) as [[Hq Hn]|(s_mid & t_pre & Hq & Hn & ->)].
  - destruct (quiet_skip (Some (nextStartTime s)) _ [] Hq) as (Hg & He & _).
    rewrite app_nil_r in Hg, He. rewrite He, Hn. split; [by apply Hg|done].
  - cbn [fst snd].
    destruct (quiet_skip (Some (nextStartTime s)) _ (processAudioQueue s_mid).2 Hq)
      as (Hg & He & _).
    rewrite Hg, He, <- Hn. apply processAudioQueue_timeline.
Qed.

Lemma run_timeline (ops : list op) (s : AudioService) :
  Forall (fun o => keeps_timeline o = true) ops ->
  gapless (Some (nextStartTime s)) (run ops s).2 /\
  timeline_end (Some (nextStartTime s)) (run ops s).2
  = Some (nextStartTime (run ops s).1).
Proof.
  intros Hops. revert s. induction Hops as [|o ops Ho _ IH]; intros s.
  - done.
  - cbn [run]. pose proof (step_timeline o s Ho) as H1.
    destruct (step o s) as [s1 t1]. specialize (IH s1).
    destruct (run ops s1) as [s2 t2]. cbn [fst snd] in *.
    by eapply timeline_compose.
Qed.

(** C1: while the timeline is kept (no hard stop), a segment scheduled
    right after another, with no underrun between the two, starts exactly
    where the other ends.  One run of the draining routine is the case of
    a single animation frame. *)
Theorem gapless_invariant (ops : list op) (s : AudioService)
    (pre : list effect) (a : AudioBufferSourceNode) (t1 : Q)
    (b : AudioBufferSourceNode) (t2 : Q) (post : list effect) :
  Forall (fun o => keeps_timeline o = true) ops ->
  List.filter is_scheduling (run ops s).2
  = pre ++ Start a t1 :: Start b t2 :: post ->
  t2 = (t1 + duration (buffer a))%Q.
Proof.
  intros Hops. destruct (run_timeline ops s Hops) as [Hg _].
  by apply gapless_adjacent with (e := Some (nextStartTime s)).
Qed.

Lemma gapless_invariant_witness :
  (0 + duration (silence 3) + duration (silence 2))%Q
  = (0 + duration (silence 3) + duration (silence 2))%Q.
Proof.
  apply (gapless_invariant
           [AnimationFrame; Clock (1 # 100000); QueueAudioChunk "ZADIANT+"]
           (playing_at 0 0 [silence 3; silence 2])
           [Start {| node := 0; buffer := silence 3 |} 0]
           {| node := 1; buffer := silence 2 |} (0 + duration (silence 3))%Q
           {| node := 2;
              buffer := {| channelData := [100 # 32768; 200 # 32768; -300 # 32768]%Q;
                           sampleRate := AUDIO_CONFIG.SAMPLE_RATE |} |}
           (0 + duration (silence 3) + duration (silence 2))%Q []).
  - repeat constructor.
  - vm_compute. reflexivity.
Defined.

(** ** The reset and the monotonicity of [nextStartTime] *)

(** C6, as the code has it: a stop resets [nextStartTime] to zero;
    every other operation, starting playback included, leaves it where it
    is or moves it forward, and leaves it where it is when it hands
    nothing to the output. *)
Theorem nextStartTime_discipline (s : AudioService) (o : op) :
  keeps_timeline o = true ->
  nextStartTime (stop s).1 = 0%Q /\
  (nextStartTime s <= nextStartTime (step o s).1)%Q /\
  (started (step o s).2 = [] -> nextStartTime (step o s).1 = nextStartTime s).
Proof.
  intros Hkeep. split.
  - unfold stop, setPlaybackState.
    simpl_fields. destruct (audioContext s); cbv beta iota; simpl_fields;
      by destruct (decide (playbackState s <> stopped)).
  - destruct (step_shape o s Hkeep) as [[Hq Hn]|(s_mid & t_pre & Hq & Hn & ->)].
    + rewrite Hn. split; [apply Qle_refl|done].
    + cbn [fst snd].
      destruct (quiet_skip None _ (processAudioQueue s_mid).2 Hq) as (_ & _ & ->).
      rewrite <- Hn. apply processAudioQueue_monotone.
Qed.

Lemma nextStartTime_discipline_witness :
  nextStartTime (stop (playing_at 5 0 [silence 3])).1 = 0%Q /\
  (nextStartTime (playing_at 5 0 [silence 3])
   <= nextStartTime (step AnimationFrame (playing_at 5 0 [silence 3])).1)%Q /\
  (started (step AnimationFrame (playing_at 5 0 [silence 3])).2 = [] ->
   nextStartTime (step AnimationFrame (playing_at 5 0 [silence 3])).1
   = nextStartTime (playing_at 5 0 [silence 3])).
Proof.
  apply (nextStartTime_discipline (playing_at 5 0 [silence 3]) AnimationFrame).
  reflexivity.
Defined.

(** C6, as it is stated, fails: with the clock at 5, a stop leaves
    [nextStartTime] at 0, and starting playback again leaves it there. *)
Lemma nextStartTime_reset_counterexample :
  let s := playing_at 5 7 [] in
  let s1 := (stop s).1 in
  let s2 := (play (inr running) s1).1.1 in
  clock s1 = 5%Q /\ nextStartTime s1 = 0%Q /\
  playbackState s2 = playing /\ clock s2 = 5%Q /\ nextStartTime s2 = 0%Q /\
  ~ (0 == 5)%Q.
Proof. vm_compute. repeat split; try done. Qed.

(** ** Order preservation *)

Lemma started_app (t1 t2 : list effect) :
  started (t1 ++ t2) = started t1 ++ started t2.
Proof.
  induction t1 as [|x t1 IH]; [done|].
  destruct x; cbn [app started]; by rewrite ?IH.
Qed.

Lemma schedule_queue (now : Q) (queue : list AudioBuffer) (s : AudioService) :
  audioQueue s = queue ->
  started (schedule now queue s).2 ++ audioQueue (schedule now queue s).1 = queue /\
  audioContext (schedule now queue s).1 = audioContext s /\
  playbackState (schedule now queue s).1 = playbackState s /\
  isProcessingQueue (schedule now queue s).1 = isProcessingQueue s /\
  (queue <> [] -> (length (audioQueue (schedule now queue s).1) < length queue)%nat).
Proof.
  revert s. induction queue as [|b rest IH]; intros s Hq.
  - cbn [schedule fst snd started app]. by rewrite Hq.
  - rewrite schedule_cons. cbv zeta.
    set (start := if Qltb (nextStartTime s) now then now else nextStartTime s).
    set (t0 := if Qltb (nextStartTime s) now then _ else _).
    assert (forall t, started (t0 ++ t) = started t) as Ht0.
    { intros t. unfold t0. by destruct (Qltb (nextStartTime s) now). }
    destruct (Qltb lookahead_ceiling _).
    + cbn [fst snd]. rewrite Ht0. simpl_fields. cbn [started buffer app length].
      repeat split; try done. lia.
    + destruct (IH (scheduled_one start b rest s)) as (H1 & H2 & H3 & H4 & H5);
        [done|].
      destruct (schedule now rest _) as [s2 t3]. cbn [fst snd] in *.
      rewrite Ht0. cbn [app started buffer length]. simpl_fields.
      rewrite H1. repeat split; try done.
      intros _. destruct rest as [|r rest]; [|specialize (H5 ltac:(done)); lia].
      destruct (audioQueue s2); [cbn; lia|].
      by destruct (started t3).
Qed.

Lemma processAudioQueue_queue (s : AudioService) :
  started (processAudioQueue s).2 ++ audioQueue (processAudioQueue s).1
  = audioQueue s /\
  (ready s -> ready (processAudioQueue s).1 /\
              (audioQueue s <> [] ->
               (length (audioQueue (processAudioQueue s).1)
                < length (audioQueue s))%nat)).
Proof.
  unfold processAudioQueue, ready.
  destruct (audioContext s) as [ctx|] eqn:Hctx; [|split; [done|by intros []]].
  destruct (isProcessingQueue s) eqn:Hproc;
    [split; [done|by intros (_ & _ & H)]|].
  destruct (bool_decide (playbackState s = playing)) eqn:Hplay;
    [|split; [done|]; intros (_ & H & _); apply bool_decide_eq_false in Hplay; done].
  cbn [orb negb].
  destruct (schedule_queue (currentTime ctx) (audioQueue s)
              (set_isProcessingQueue true s)) as (H1 & H2 & H3 & H4 & H5); [done|].
  simpl_fields.
  destruct (schedule (currentTime ctx) (audioQueue s) _) as [s2 t3].
  simpl_fields.
  destruct (negb _ && _); cbn [fst snd]; simpl_fields;
    rewrite ?started_app; cbn [started]; rewrite ?app_nil_r;
    (split; [done|]); intros (_ & Hp & _); rewrite H2, H3, Hctx; done.
Qed.

Lemma applyFadeIn_length (data : list Q) (fadeSamples : Z) :
  length (applyFadeIn data fadeSamples) = length data.
Proof.
  unfold applyFadeIn.
  apply (for_loop_alter_length
           (fun i x => (x * (inject_Z (Z.of_nat i) / inject_Z _))%Q) 0).
Qed.

Lemma queueAudioChunk_valid (c : string) (s : AudioService) :
  ready s -> valid_chunk c ->
  ready (queueAudioChunk c s).1 /\
  exists b, is_chunk_of b c /\
    started (queueAudioChunk c s).2 ++ audioQueue (queueAudioChunk c s).1
    = audioQueue s ++ [b].
Proof.
  intros (Hctx & Hplay & Hproc) (data & Hdata & Hne).
  unfold queueAudioChunk.
  destruct (audioContext s) as [ctx|] eqn:Hc; [|done].
  rewrite Hdata. cbn [bind].
  set (processedData := if _ && _ then _ else _).
  assert (processedData <> [] /\
          (processedData = data \/ processedData = applyFadeIn data fadeSamples))
    as [Hpne Hpd].
  { unfold processedData. destruct (_ && _); [|by auto].
    split; [|by auto]. intros H.
    apply (f_equal length) in H. rewrite applyFadeIn_length in H.
    by destruct data. }
  unfold createAudioBuffer. destruct processedData as [|x p] eqn:Hp; [done|].
  unfold ret. simpl_fields. rewrite Hplay.
  destruct (decide (playing = playing)) as [_|]; [|done].
  set (b := {| channelData := x :: p; sampleRate := AUDIO_CONFIG.SAMPLE_RATE |}).
  set (s1 := set_bufferLevel _ _).
  assert (ready s1) as Hready.
  { unfold ready, s1. simpl_fields. by rewrite Hc. }
  destruct (processAudioQueue_queue s1) as [Hq Hr].
  destruct (Hr Hready) as [Hr' _].
  destruct (processAudioQueue s1) as [s2 t2]. cbn [fst snd] in *.
  split; [done|]. exists b. split.
  - split; [done|]. exists data. by split.
  - cbn [emit app started]. rewrite Hq. unfold s1. by simpl_fields.
Qed.

Lemma step_queue (o : op) (s : AudioService) :
  ready s -> playing_op o = true -> Forall valid_chunk (chunks [o]) ->
  ready (step o s).1 /\
  exists bufs,
    started (step o s).2 ++ audioQueue (step o s).1 = audioQueue s ++ bufs /\
    Forall2 is_chunk_of bufs (chunks [o]).
Proof.
  intros Hready Hop Hvalid.
  destruct o as [created|created| | | |v|c| |source|t]; try discriminate Hop;
    cbn [step chunks].
  - (* setVolume *)
    unfold setVolume. simpl_fields.
    split; [|exists []; rewrite app_nil_r; split; [|constructor]].
    + destruct (gainNode s); [destruct (is_nan_b _)|]; exact Hready.
    + destruct (gainNode s); [destruct (is_nan_b _)|]; done.
  - (* queueAudioChunk *)
    cbn [chunks] in Hvalid. inversion_clear Hvalid as [|? ? Hc _].
    destruct (queueAudioChunk_valid c s Hready Hc) as (Hr & b & Hb & Hq).
    split; [done|]. exists [b]. split; [done|].
    constructor; [done|constructor].
  - (* the animation frame *)
    destruct (processAudioQueue_queue s) as [Hq Hr].
    split; [by apply Hr|]. exists []. rewrite app_nil_r. split; [done|constructor].
  - (* onended *)
    unfold onended. split.
    + destruct (indexOf _ _); exact Hready.
    + exists []. rewrite app_nil_r. split; [|constructor].
      by destruct (indexOf _ _).
  - (* the clock *)
    unfold advance_clock. destruct Hready as (Hctx & Hplay & Hproc).
    destruct (audioContext s) as [ctx|] eqn:Hc; [|done].
    split; [done|]. exists []. rewrite app_nil_r. split; [done|constructor].
Qed.

Lemma chunks_cons (o : op) (ops : list op) :
  chunks (o :: ops) = chunks [o] ++ chunks ops.
Proof. by destruct o. Qed.

Lemma run_queue (ops : list op) (s : AudioService) :
  ready s -> Forall (fun o => playing_op o = true) ops ->
  Forall valid_chunk (chunks ops) ->
  ready (run ops s).1 /\
  exists bufs,
    started (run ops s).2 ++ audioQueue (run ops s).1 = audioQueue s ++ bufs /\
    Forall2 is_chunk_of bufs (chunks ops).
Proof.
  intros Hready Hops. revert s Hready.
  induction Hops as [|o ops Ho _ IH]; intros s Hready Hvalid.
  - split; [done|]. exists []. by rewrite app_nil_r.
  - rewrite chunks_cons in Hvalid. apply Forall_app in Hvalid as [Hv1 Hv2].
    cbn [run]. destruct (step_queue o s Hready Ho Hv1) as (Hr1 & bufs1 & Hq1 & Hb1).
    destruct (step o s) as [s1 t1]. cbn [fst snd] in *.
    destruct (IH s1 Hr1 Hv2) as (Hr2 & bufs2 & Hq2 & Hb2).
    destruct (run ops s1) as [s2 t2]. cbn [fst snd] in *.
    split; [done|]. exists (bufs1 ++ bufs2). split.
    + rewrite started_app, <- app_assoc, Hq2, app_assoc, Hq1.
      by rewrite app_assoc.
    + rewrite chunks_cons. by apply Forall2_app.
Qed.

(** The animation frames requested by the draining routine empty the
    queue: each one dequeues at least one buffer. *)
Lemma drain_frames (n : nat) (s : AudioService) :
  ready s -> (length (audioQueue s) <= n)%nat ->
  audioQueue (run (replicate n AnimationFrame) s).1 = [] /\
  started (run (replicate n AnimationFrame) s).2 = audioQueue s.
Proof.
  revert s. induction n as [|n IH]; intros s Hready Hlen.
  - cbn [replicate run fst snd started]. destruct (audioQueue s); [done|].
    cbn in Hlen. lia.
  - cbn [replicate run step].
    destruct (processAudioQueue_queue s) as [Hq Hr].
    destruct (Hr Hready) as [Hr1 Hlt].
    destruct (processAudioQueue s) as [s1 t1]. cbn [fst snd] in *.
    assert (length (audioQueue s1) <= n)%nat as Hlen1.
    { destruct (audioQueue s) as [|b q] eqn:Hs.
      - apply app_eq_nil in Hq as [_ ->]. cbn. lia.
      - specialize (Hlt ltac:(done)). lia. }
    destruct (IH s1 Hr1 Hlen1) as [He Hs].
    destruct (run (replicate n AnimationFrame) s1) as [s2 t2]. cbn [fst snd] in *.
    split; [done|]. by rewrite started_app, Hs.
Qed.

(** * Further properties of the audio service *)

(** ** What a drain does and does not touch *)

Lemma schedule_fields (now : Q) (queue : list AudioBuffer) (s : AudioService) :
  let s' := (schedule now queue s).1 in
  audioContext s' = audioContext s /\ gainNode s' = gainNode s /\
  playbackState s' = playbackState s /\ volume s' = volume s /\
  isProcessingQueue s' = isProcessingQueue s /\
  bufferLevel s' = bufferLevel s /\
  totalBufferedDuration s' = totalBufferedDuration s.
Proof.
  revert s. induction queue as [|b rest IH]; intros s; [done|].
  cbv zeta. rewrite schedule_cons. cbv zeta.
  set (start := if Qltb (nextStartTime s) now then now else nextStartTime s).
  destruct (Qltb lookahead_ceiling _); [done|].
  specialize (IH (scheduled_one start b rest s)). cbv zeta in IH.
  destruct (schedule now rest _) as [s2 t3]. exact IH.
Qed.

Lemma ready_dec (s : AudioService) :
  ready s \/ (~ ready s /\ processAudioQueue s = (s, [])).
Proof.
  unfold ready, processAudioQueue.
  destruct (audioContext s) as [ctx|]; [|right; split; [by intros []|done]].
  destruct (isProcessingQueue s);
    [right; split; [by intros (_ & _ & H)|done]|].
  destruct (bool_decide (playbackState s = playing)) eqn:Hplay.
  - left. apply bool_decide_eq_true in Hplay. done.
  - right. apply bool_decide_eq_false in Hplay. split; [by intros (_ & H & _)|done].
Qed.

(** Past its guard the routine is the loop run on the queue, followed
    by the request of an animation frame when buffers remain. *)
Lemma processAudioQueue_ready (s : AudioService) (ctx : AudioContext) :
  audioContext s = Some ctx -> ready s ->
  let r := schedule (currentTime ctx) (audioQueue s) (set_isProcessingQueue true s) in
  processAudioQueue s =
  (set_isProcessingQueue false r.1,
   r.2 ++ if negb (length (audioQueue r.1) =? 0)%nat then [RequestAnimationFrame]
          else []).
Proof.
  intros Hctx (_ & Hplay & Hproc). cbv zeta. unfold processAudioQueue.
  rewrite Hctx, Hproc, Hplay. rewrite bool_decide_eq_true_2 by done.
  cbn [orb negb]. simpl_fields.
  pose proof (schedule_fields (currentTime ctx) (audioQueue s)
                (set_isProcessingQueue true s)) as H.
  cbv zeta in H. simpl_fields.
  destruct (schedule (currentTime ctx) (audioQueue s) _) as [s2 t3].
  simpl_fields. destruct H as (_ & _ & H3 & _). rewrite H3, Hplay.
  rewrite bool_decide_eq_true_2 by done. rewrite andb_true_r.
  destruct (negb _); [done|]. by rewrite app_nil_r.
Qed.

Lemma processAudioQueue_fields (s : AudioService) :
  let s' := (processAudioQueue s).1 in
  audioContext s' = audioContext s /\ gainNode s' = gainNode s /\
  playbackState s' = playbackState s /\ volume s' = volume s /\
  isProcessingQueue s' = isProcessingQueue s /\
  bufferLevel s' = bufferLevel s /\
  totalBufferedDuration s' = totalBufferedDuration s.
Proof.
  cbv zeta. destruct (ready_dec s) as [Hready|[_ ->]]; [|done].
  destruct (audioContext s) as [ctx|] eqn:Hctx; [|by destruct Hready].
  rewrite (processAudioQueue_ready s ctx Hctx Hready). cbv zeta. cbn [fst].
  pose proof (schedule_fields (currentTime ctx) (audioQueue s)
                (set_isProcessingQueue true s)) as H.
  cbv zeta in H. simpl_fields. destruct Hready as (_ & _ & Hproc).
  rewrite ?Hctx in H. rewrite Hproc. tauto.
Qed.

Lemma schedule_starts_after_clock (now : Q) (queue : list AudioBuffer)
    (s : AudioService) (source : AudioBufferSourceNode) (when : Q) :
  In (Start source when) (schedule now queue s).2 -> (now <= when)%Q.
Proof.
  revert s. induction queue as [|b rest IH]; intros s; [intros []|].
  rewrite schedule_cons. cbv zeta.
  set (start := if Qltb (nextStartTime s) now then now else nextStartTime s).
  assert (now <= start)%Q as Hstart.
  { unfold start. destruct (Qltb (nextStartTime s) now) eqn:Hlt.
    - apply Qle_refl.
    - by apply Qltb_ge in Hlt. }
  set (t0 := if Qltb (nextStartTime s) now then _ else _).
  assert (~ In (Start source when) t0) as Ht0.
  { unfold t0. destruct (Qltb (nextStartTime s) now); cbn [In emit];
      intros H; repeat destruct H as [H|H]; try discriminate H; done. }
  destruct (Qltb lookahead_ceiling _).
  - cbn [snd]. rewrite in_app_iff. intros [H|[H|[]]]; [done|].
    by injection H as _ <-.
  - specialize (IH (scheduled_one start b rest s)).
    destruct (schedule now rest _) as [s2 t3]. cbn [snd] in *.
    rewrite in_app_iff. intros [H|[H|H]]; [done| |by apply IH].
    by injection H as _ <-.
Qed.

(** X1: a segment is never given a start time before the clock reading
    of the drain that schedules it. *)
Theorem start_not_in_the_past (s : AudioService) (ctx : AudioContext)
    (source : AudioBufferSourceNode) (when : Q) :
  audioContext s = Some ctx ->
  In (Start source when) (processAudioQueue s).2 ->
  (currentTime ctx <= when)%Q.
Proof.
  intros Hctx. destruct (ready_dec s) as [Hready|[_ ->]]; [|intros []].
  rewrite (processAudioQueue_ready s ctx Hctx Hready). cbv zeta. cbn [snd].
  rewrite in_app_iff. intros [H|H].
  - by eapply schedule_starts_after_clock.
  - destruct (negb _); [|done]. destruct H as [H|[]]. discriminate H.
Qed.

Lemma start_not_in_the_past_witness :
  (5 <= 5 + duration (silence 3))%Q.
Proof.
  apply (start_not_in_the_past (playing_at 5 0 [silence 3; silence 2])
           {| state := running; currentTime := 5 |}
           {| node := 1; buffer := silence 2 |}).
  - reflexivity.
  - vm_compute. right. right. right. left. reflexivity.
Defined.

Lemma schedule_underrun_iff (now : Q) (queue : list AudioBuffer) (s : AudioService) :
  In (Emit Underrun) (schedule now queue s).2 <->
  queue <> [] /\ (nextStartTime s < now)%Q.
Proof.
  destruct queue as [|b rest].
  - cbn [schedule snd In]. split; [done|by intros []].
  - rewrite schedule_cons. cbv zeta.
    destruct (Qltb (nextStartTime s) now) eqn:Hlt.
    + apply Qltb_lt in Hlt. split; [done|]. intros _.
      destruct (Qltb lookahead_ceiling _); [|destruct (schedule now rest _)];
        cbn [snd app In]; auto.
    + apply Qltb_ge in Hlt as Hge.
      assert (now <= nextStartTime (scheduled_one (nextStartTime s) b rest s))%Q
        as Hnext by (simpl_fields; by apply Qle_plus_duration).
      pose proof (schedule_no_underrun now rest _ Hnext) as [Hno _].
      split; [|intros [_ H]; by apply Qlt_not_le in H].
      destruct (Qltb lookahead_ceiling _);
        [|destruct (schedule now rest _)]; cbn [fst snd app In] in *;
        intros [H|H]; try discriminate H; done.
Qed.

(** X2: a drain reports an underrun exactly when it gets past its guard
    with a buffer waiting and [nextStartTime] behind the clock. *)
Theorem underrun_iff (s : AudioService) :
  In (Emit Underrun) (processAudioQueue s).2 <->
  ready s /\ audioQueue s <> [] /\ (nextStartTime s < clock s)%Q.
Proof.
  destruct (ready_dec s) as [Hready|[Hnot Hidle]].
  - destruct (audioContext s) as [ctx|] eqn:Hctx; [|by destruct Hready].
    rewrite (processAudioQueue_ready s ctx Hctx Hready). cbv zeta. cbn [snd].
    unfold clock. rewrite Hctx. rewrite in_app_iff, schedule_underrun_iff.
    simpl_fields. split; [|tauto].
    intros [H|H]; [tauto|]. destruct (negb _); [|done].
    destruct H as [H|[]]. discriminate H.
  - rewrite Hidle. cbn [snd In]. tauto.
Qed.

Lemma schedule_trace_kinds (now : Q) (queue : list AudioBuffer) (s : AudioService)
    (e : effect) :
  In e (schedule now queue s).2 ->
  e = ConsoleWarn "Audio underrun detected" \/ e = Emit Underrun \/
  exists source when, e = Start source when.
Proof.
  revert s. induction queue as [|b rest IH]; intros s; [intros []|].
  rewrite schedule_cons. cbv zeta.
  set (start := if Qltb (nextStartTime s) now then now else nextStartTime s).
  set (t0 := if Qltb (nextStartTime s) now then _ else _).
  assert (In e t0 -> e = ConsoleWarn "Audio underrun detected" \/ e = Emit Underrun)
    as Ht0.
  { unfold t0. destruct (Qltb (nextStartTime s) now); cbn [In];
      intros H; repeat destruct H as [H|H]; auto; done. }
  destruct (Qltb lookahead_ceiling _).
  - cbn [snd]. rewrite in_app_iff. intros [H|[H|[]]]; [tauto|].
    right. right. by eexists _, _.
  - specialize (IH (scheduled_one start b rest s)).
    destruct (schedule now rest _) as [s2 t3]. cbn [snd] in *.
    rewrite in_app_iff. intros [H|[H|H]]; [tauto| |by apply IH].
    right. right. by eexists _, _.
Qed.

Lemma processAudioQueue_trace_kinds (s : AudioService) (e : effect) :
  In e (processAudioQueue s).2 ->
  e = ConsoleWarn "Audio underrun detected" \/ e = Emit Underrun \/
  e = RequestAnimationFrame \/ exists source when, e = Start source when.
Proof.
  destruct (ready_dec s) as [Hready|[_ ->]]; [|intros []].
  destruct (audioContext s) as [ctx|] eqn:Hctx; [|by destruct Hready].
  rewrite (processAudioQueue_ready s ctx Hctx Hready). cbv zeta. cbn [snd].
  rewrite in_app_iff. intros [H|H].
  - apply schedule_trace_kinds in H. tauto.
  - destruct (negb _); [|done]. destruct H as [<-|[]]. tauto.
Qed.

(** X3: the routine asks for another animation frame exactly when it
    got past its guard and left buffers in the queue. *)
Theorem animation_frame_iff (s : AudioService) :
  In RequestAnimationFrame (processAudioQueue s).2 <->
  ready s /\ audioQueue (processAudioQueue s).1 <> [].
Proof.
  destruct (ready_dec s) as [Hready|[Hnot ->]]; [|cbn [snd In]; tauto].
  destruct (audioContext s) as [ctx|] eqn:Hctx; [|by destruct Hready].
  rewrite (processAudioQueue_ready s ctx Hctx Hready). cbv zeta. cbn [fst snd].
  simpl_fields. rewrite in_app_iff.
  destruct (audioQueue (schedule _ _ _).1) as [|b q] eqn:Hq; cbn [length Nat.eqb negb].
  - split; [|tauto]. intros [H|[]].
    apply schedule_trace_kinds in H as [H|[H|(? & ? & H)]]; discriminate H.
  - split; [done|]. intros _. right. by left.
Qed.

(** ** The hard stop *)

Lemma stop_state (s : AudioService) :
  (stop s).1 =
  {| audioContext :=
       option_map
         (fun ctx => {| state := suspended; currentTime := currentTime ctx |})
         (audioContext s);
     gainNode := gainNode s; playbackState := stopped; volume := volume s;
     nextStartTime := 0; scheduledSources := []; audioQueue := [];
     isProcessingQueue := isProcessingQueue s; bufferLevel := 0;
     totalBufferedDuration := 0; nextNode := nextNode s |}.
Proof.
  unfold stop, setPlaybackState. simpl_fields.
  destruct (audioContext s) eqn:Hctx; cbv beta iota; simpl_fields;
    destruct (decide (playbackState s <> stopped)) as [Hst|Hst]; cbn [fst];
    try apply dec_stable in Hst;
    unfold set_playbackState, set_audioContext, set_nextStartTime,
      set_bufferLevel, set_totalBufferedDuration, set_audioQueue,
      set_scheduledSources;
    simpl_fields; rewrite ?Hctx, ?Hst; reflexivity.
Qed.

Lemma stop_trace (s : AudioService) :
  (stop s).2 =
  flat_map (fun source => [StopSource source; Disconnect source])
    (scheduledSources s)
  ++ match audioContext s with Some _ => [Suspend] | None => [] end
  ++ (if decide (playbackState s <> stopped)
      then [Emit (StateChange stopped)] else [])
  ++ [Emit (BufferUpdate 0)].
Proof.
  unfold stop, setPlaybackState. simpl_fields.
  by destruct (audioContext s); cbv beta iota; simpl_fields;
    destruct (decide (playbackState s <> stopped)).
Qed.

Lemma started_stop_sources (l : list AudioBufferSourceNode) :
  started (flat_map (fun source => [StopSource source; Disconnect source]) l) = [].
Proof. induction l as [|x l IH]; [done|]. exact IH. Qed.

(** ** Nothing is scheduled unless the service is playing *)

Lemma step_not_playing (o : op) (s : AudioService) :
  playbackState s <> playing -> is_play o = false ->
  started (step o s).2 = [] /\ playbackState (step o s).1 <> playing.
Proof.
  intros Hplay Ho.
  destruct o as [created|created| | | |v|c| |source|t]; try discriminate Ho;
    cbn [step].
  - unfold initialize. destruct (audioContext s); [done|].
    destruct created; [done|]. simpl_fields. by destruct (is_nan_b (volume s)).
  - unfold pause, setPlaybackState.
    destruct (audioContext s); repeat case_decide; simpl_fields; done.
  - rewrite stop_state, stop_trace. split; [|done].
    rewrite !started_app, started_stop_sources.
    by destruct (audioContext s), (decide (playbackState s <> stopped)).
  - unfold dispose. pose proof (stop_state s) as Hs. pose proof (stop_trace s) as Ht.
    destruct (stop s) as [s1 t1]. cbn [fst snd] in Hs, Ht. subst s1 t1.
    simpl_fields. split.
    + destruct (audioContext s); cbn [option_map fst snd];
        rewrite !started_app, started_stop_sources;
        by destruct (decide (playbackState s <> stopped)).
    + by destruct (audioContext s).
  - unfold setVolume. simpl_fields.
    destruct (gainNode s); [destruct (is_nan_b _)|]; done.
  - unfold queueAudioChunk. destruct (audioContext s); [|done].
    destruct (bind _ _); [done|]. simpl_fields. by case_decide.
  - destruct (ready_dec s) as [(_ & H & _)|[_ ->]]; done.
  - unfold onended. by destruct (indexOf _ _).
  - unfold advance_clock. by destruct (audioContext s).
Qed.

(** X4: while the service is not playing, no operation other than
    [play] hands anything to the output or makes the service play; chunks
    that arrive meanwhile only wait in the queue. *)
Theorem no_scheduling_unless_playing (ops : list op) (s : AudioService) :
  playbackState s <> playing ->
  Forall (fun o => is_play o = false) ops ->
  started (run ops s).2 = [] /\ playbackState (run ops s).1 <> playing.
Proof.
  intros Hplay Hops. revert s Hplay.
  induction Hops as [|o ops Ho _ IH]; intros s Hplay; [done|].
  cbn [run]. destruct (step_not_playing o s Hplay Ho) as [H1 H2].
  destruct (step o s) as [s1 t1]. cbn [fst snd] in *.
  destruct (IH s1 H2) as [H3 H4].
  destruct (run ops s1) as [s2 t2]. cbn [fst snd] in *.
  by rewrite started_app, H1, H3.
Qed.

Lemma no_scheduling_unless_playing_witness :
  let ops := [Initialize (inr running); QueueAudioChunk "ZADIANT+";
              AnimationFrame; Pause; Clock 3; QueueAudioChunk "AAAA"] in
  started (run ops new_AudioService).2 = [] /\
  playbackState (run ops new_AudioService).1 <> playing.
Proof.
  apply (no_scheduling_unless_playing
           [Initialize (inr running); QueueAudioChunk "ZADIANT+";
            AnimationFrame; Pause; Clock 3; QueueAudioChunk "AAAA"]
           new_AudioService).
  - discriminate.
  - repeat constructor.
Defined.

(** X5: a stop from any state leaves nothing queued or in flight, the
    telemetry at zero and the service stopped; it stops every source that
    was scheduled, hands nothing to the output, and a second stop changes
    nothing more. *)
Theorem hard_stop (s : AudioService) :
  let s' := (stop s).1 in
  audioQueue s' = [] /\ scheduledSources s' = [] /\
  bufferLevel s' = 0%Q /\ totalBufferedDuration s' = 0%Q /\
  playbackState s' = stopped /\
  (forall source, In source (scheduledSources s) ->
                  In (StopSource source) (stop s).2) /\
  In (Emit (BufferUpdate 0)) (stop s).2 /\
  started (stop s).2 = [] /\
  (stop s').1 = s'.
Proof.
  cbv zeta. rewrite !stop_state, stop_trace. simpl_fields.
  repeat split.
  - intros source Hin. rewrite in_app_iff. left.
    apply in_flat_map. exists source. split; [done|]. by left.
  - rewrite !in_app_iff. right. right. right. by left.
  - rewrite !started_app, started_stop_sources.
    by destruct (audioContext s), (decide (playbackState s <> stopped)).
  - by destruct (audioContext s).
Qed.

(** ** What every reachable state satisfies *)

Lemma schedule_sources (now : Q) (queue : list AudioBuffer) (s : AudioService) :
  let r := schedule now queue s in
  scheduledSources r.1 = scheduledSources s ++ started_sources r.2 /\
  map node (started_sources r.2)
  = seq (nextNode s) (length (started_sources r.2)) /\
  nextNode r.1 = (nextNode s + length (started_sources r.2))%nat.
Proof.
  revert s. induction queue as [|b rest IH]; intros s.
  - cbn [schedule fst snd started_sources length seq map]. rewrite app_nil_r.
    repeat split; (done || lia).
  - cbv zeta. rewrite schedule_cons. cbv zeta.
    set (start := if Qltb (nextStartTime s) now then now else nextStartTime s).
    set (t0 := if Qltb (nextStartTime s) now then _ else _).
    assert (forall t, started_sources (t0 ++ t) = started_sources t) as Ht0.
    { intros t. unfold t0. by destruct (Qltb (nextStartTime s) now). }
    destruct (Qltb lookahead_ceiling _).
    + cbn [fst snd]. rewrite Ht0. simpl_fields.
      cbn [started_sources length seq map node]. split; [done|]. split; [done|lia].
    + specialize (IH (scheduled_one start b rest s)). cbv zeta in IH.
      destruct (schedule now rest _) as [s2 t3]. cbn [fst snd] in *.
      rewrite Ht0. simpl_fields. destruct IH as (H1 & H2 & H3).
      cbn [app started_sources length seq map node].
      rewrite H1, H2, H3, <- app_assoc. split; [done|]. split; [done|lia].
Qed.

Lemma processAudioQueue_inv (s : AudioService) :
  service_inv s -> service_inv (processAudioQueue s).1.
Proof.
  intros Hinv. destruct (ready_dec s) as [Hready|[_ ->]]; [|done].
  destruct (audioContext s) as [ctx|] eqn:Hctx; [|by destruct Hready].
  pose proof (processAudioQueue_fields s) as (F1 & F2 & F3 & F4 & F5 & F6 & F7).
  pose proof (processAudioQueue_monotone s) as [Hmono _].
  destruct Hinv as (I1 & I2 & I3 & I4 & I5 & I6 & I7 & I8 & I9).
  unfold service_inv, clock. rewrite F1, F2, F3, F5, F6, F7.
  unfold clock in I4.
  split; [done|]. split; [done|]. split; [done|]. split; [done|].
  split; [by eapply Qle_trans|]. split; [done|]. split; [done|]. split.
  - rewrite (processAudioQueue_ready s ctx Hctx Hready). cbv zeta. cbn [fst].
    pose proof (schedule_sources (currentTime ctx) (audioQueue s)
                  (set_isProcessingQueue true s)) as (H1 & H2 & H3).
    simpl_fields. rewrite H1, H3. apply Forall_app. split.
    + eapply Forall_impl; [exact I8|]. intros x Hx. cbn beta in *. lia.
    + apply Forall_forall. intros x Hx.
      assert (In (node x) (map node (started_sources
                (schedule (currentTime ctx) (audioQueue s)
                   (set_isProcessingQueue true s)).2))) as Hn.
      { apply in_map. by apply list_elem_of_In. }
      rewrite H2 in Hn. apply in_seq in Hn. lia.
  - rewrite (processAudioQueue_ready s ctx Hctx Hready). cbv zeta. cbn [fst].
    pose proof (schedule_sources (currentTime ctx) (audioQueue s)
                  (set_isProcessingQueue true s)) as (H1 & H2 & H3).
    simpl_fields. rewrite H1, map_app, H2.
    apply NoDup_app. split; [done|]. split; [|apply NoDup_seq].
    intros n Hn1 Hn2. apply list_elem_of_In in Hn1, Hn2.
    apply in_map_iff in Hn1 as (x & <- & Hx). apply in_seq in Hn2.
    rewrite Forall_forall in I8. apply list_elem_of_In in Hx.
    specialize (I8 x Hx). cbn beta in I8. lia.
Qed.

Lemma service_inv_frame (s s' : AudioService) :
  service_inv s ->
  isProcessingQueue s' = isProcessingQueue s ->
  totalBufferedDuration s' = totalBufferedDuration s ->
  bufferLevel s' = bufferLevel s ->
  nextStartTime s' = nextStartTime s ->
  scheduledSources s' = scheduledSources s ->
  nextNode s' = nextNode s ->
  (0 <= clock s')%Q ->
  (audioContext s' = None <-> gainNode s' = None) ->
  (playbackState s' = playing -> audioContext s' <> None) ->
  service_inv s'.
Proof.
  intros (I1 & I2 & I3 & I4 & I5 & I6 & I7 & I8 & I9) E1 E2 E3 E4 E5 E6 H1 H2 H3.
  unfold service_inv. by rewrite E1, E2, E3, E4, E5, E6.
Qed.

Lemma delete_sources_inv (l : list AudioBufferSourceNode) (i n : nat) :
  Forall (fun source => (node source < n)%nat) l -> NoDup (map node l) ->
  Forall (fun source => (node source < n)%nat) (delete i l) /\
  NoDup (map node (delete i l)).
Proof.
  intros HF HN. split; [by apply Forall_delete|].
  eapply sublist_NoDup; [exact HN|].
  apply (fmap_sublist node). apply sublist_delete.
Qed.

Lemma stop_inv (s : AudioService) : service_inv s -> service_inv (stop s).1.
Proof.
  intros (I1 & I2 & I3 & I4 & I5 & I6 & I7 & I8 & I9).
  rewrite stop_state. unfold service_inv, clock in *. simpl_fields.
  split; [done|]. split; [apply Qle_refl|]. split; [reflexivity|].
  split. { destruct (audioContext s); cbn [option_map]; [done|apply Qle_refl]. }
  split; [apply Qle_refl|].
  split. { destruct (audioContext s), (gainNode s); cbn [option_map]; intuition congruence. }
  split; [done|].
  split; constructor.
Qed.


Lemma initialize_inv (created : throws AudioContextState) (s : AudioService) :
  service_inv s -> service_inv (initialize created s).1.1.
Proof.
  intros Hinv. pose proof Hinv as (I1 & I2 & I3 & I4 & I5 & I6 & I7 & I8 & I9).
  unfold initialize. destruct (audioContext s) eqn:Hctx; [done|].
  destruct created; [done|]. simpl_fields.
  destruct (is_nan_b (volume s)); cbn [fst];
    (apply (service_inv_frame s); [done..| | |]); unfold clock; simpl_fields;
    done.
Qed.

Lemma setPlaybackState_inv (st : PlaybackState) (s : AudioService) :
  service_inv s -> (st = playing -> audioContext s <> None) ->
  service_inv (setPlaybackState st s).1.
Proof.
  intros Hinv Hst. unfold setPlaybackState. case_decide; [|done]. cbn [fst].
  apply (service_inv_frame s); try done; destruct Hinv as (_&_&_&?&_&?&_); done.
Qed.

(** [play] on a service that has its context. *)
Lemma play_initialized (created : throws AudioContextState) (s : AudioService)
    (ctx : AudioContext) :
  audioContext s = Some ctx ->
  play created s =
  let s1 := if decide (state ctx = suspended)
            then set_audioContext
                   (Some {| state := running; currentTime := currentTime ctx |}) s
            else s in
  let t1 := if decide (state ctx = suspended) then [Resume] else [] in
  ((processAudioQueue (setPlaybackState playing s1).1).1,
   t1 ++ (setPlaybackState playing s1).2
   ++ (processAudioQueue (setPlaybackState playing s1).1).2,
   true).
Proof.
  intros Hctx. unfold play. rewrite Hctx. cbv beta iota. cbn [negb].
  rewrite Hctx. cbv zeta.
  destruct (decide (state ctx = suspended));
    destruct (setPlaybackState playing _) as [s2 t2]; cbn [fst snd];
    destruct (processAudioQueue s2) as [s3 t3]; reflexivity.
Qed.

(** [play] on a service without a context: it stops at a failed
    [initialize], and goes on as above after a successful one. *)
Lemma play_uninitialized (created : throws AudioContextState) (s : AudioService) :
  audioContext s = None ->
  play created s =
  if (initialize created s).2 then play created (initialize created s).1.1
  else initialize created s.
Proof.
  intros Hctx. unfold play at 1. rewrite Hctx.
  destruct (initialize created s) as [[s0 t0] ok] eqn:Hinit. cbn [fst snd].
  destruct ok; cbn [negb].
  - unfold initialize in Hinit. rewrite Hctx in Hinit.
    destruct created as [error|st]; [discriminate|]. simpl_fields.
    destruct (is_nan_b (volume s)); [discriminate|].
    injection Hinit as <- <-. simpl_fields.
    rewrite (play_initialized _ _ {| state := st; currentTime := 0 |}) by done.
    cbv zeta.
    destruct (decide (state {| state := st; currentTime := 0 |} = suspended));
      destruct (setPlaybackState playing _) as [s2 t2]; cbn [fst snd];
      destruct (processAudioQueue s2) as [s3 t3]; reflexivity.
  - reflexivity.
Qed.

Lemma play_inv (created : throws AudioContextState) (s : AudioService) :
  service_inv s -> service_inv (play created s).1.1.
Proof.
  assert (forall s ctx, audioContext s = Some ctx -> service_inv s ->
                        service_inv (play created s).1.1) as Hinit.
  { clear s. intros s ctx Hctx Hinv.
    rewrite (play_initialized created s ctx Hctx). cbv zeta. cbn [fst].
    apply processAudioQueue_inv, setPlaybackState_inv.
    - pose proof Hinv as (I1 & I2 & I3 & I4 & I5 & I6 & I7 & I8 & I9).
      case_decide; [|done].
      apply (service_inv_frame s); try done; unfold clock in *; simpl_fields;
        rewrite ?Hctx in *; try done.
      split; [done|]. intros Hg. apply I6 in Hg. done.
    - intros _. case_decide; simpl_fields; by rewrite ?Hctx. }
  intros Hinv. destruct (audioContext s) as [ctx|] eqn:Hctx; [by eapply Hinit|].
  rewrite (play_uninitialized created s Hctx).
  pose proof (initialize_inv created s Hinv) as H0.
  destruct (initialize created s) as [[s0 t0] ok] eqn:Hi. cbn [fst snd] in *.
  destruct ok; [|done].
  unfold initialize in Hi. rewrite Hctx in Hi.
  destruct created as [error|st]; [discriminate|]. simpl_fields.
  destruct (is_nan_b (volume s)); [discriminate|]. injection Hi as <- _.
  by eapply Hinit.
Qed.
Lemma step_inv (o : op) (s : AudioService) :
  service_inv s -> service_inv (step o s).1.
Proof.
  intros Hinv. pose proof Hinv as (I1 & I2 & I3 & I4 & I5 & I6 & I7 & I8 & I9).
  destruct o as [created|created| | | |v|c| |source|t]; cbn [step].
  - (* initialize *)
    pose proof (initialize_inv created s Hinv).
    by destruct (initialize created s) as [[] ].
  - (* play *)
    pose proof (play_inv created s Hinv).
    by destruct (play created s) as [[] ].
  - (* pause *)
    unfold pause.
    set (s1t1 := match audioContext s with Some _ => _ | None => _ end).
    assert (service_inv s1t1.1) as H1.
    { unfold s1t1. destruct (audioContext s) as [ctx|] eqn:Hctx; [|done].
      case_decide; [|done]. cbn [fst].
      apply (service_inv_frame s); try done; unfold clock in *; simpl_fields;
        rewrite ?Hctx in *; try done.
      split; [done|]. intros Hg. by apply I6 in Hg. }
    destruct s1t1 as [s1 t1]. cbn [fst] in H1.
    pose proof (setPlaybackState_inv paused s1 H1 ltac:(done)).
    by destruct (setPlaybackState paused s1).
  - (* stop *)
    by apply stop_inv.
  - (* dispose *)
    unfold dispose. pose proof (stop_inv s Hinv) as Hs.
    pose proof (stop_state s) as Hst.
    destruct (stop s) as [s1 t1]. cbn [fst] in Hs, Hst.
    destruct Hs as (J1 & J2 & J3 & J4 & J5 & J6 & J7 & J8 & J9).
    assert (playbackState s1 = stopped) as Hp by (by rewrite Hst).
    destruct (audioContext s1) eqn:Hc1; simpl_fields; cbn [fst];
      unfold service_inv, clock; simpl_fields; rewrite ?Hp, ?Hc1;
      (split; [done|]); (split; [done|]); (split; [done|]);
      (split; [apply Qle_refl|]); (split; [done|]); (split; [done|]);
      (split; [done|]); done.
  - (* setVolume *)
    unfold setVolume, throw, ret. simpl_fields.
    destruct (gainNode s) eqn:Hg; [destruct (is_nan_b _)|]; cbv beta iota;
      cbn [fst]; (apply (service_inv_frame s); [done..| | |]);
      unfold clock in *; simpl_fields; rewrite ?Hg in *; try done;
      intuition congruence.
  - (* queueAudioChunk *)
    unfold queueAudioChunk. destruct (audioContext s) as [ctx|] eqn:Hctx; [|done].
    destruct (bind _ _) as [error|b]; [done|]. simpl_fields.
    set (s1 := set_bufferLevel _ _).
    assert (service_inv s1) as H1.
    { unfold service_inv, s1, clock in *. simpl_fields.
      split; [done|]. split.
      { rewrite <- (Qplus_0_r 0). apply Qplus_le_compat; [done|apply duration_nonneg]. }
      split; [reflexivity|].
      destruct Hinv as (_ & _ & _ & H4 & H5 & H6 & H7 & H8 & H9).
      unfold clock in H4. done. }
    case_decide; [|done]. pose proof (processAudioQueue_inv s1 H1) as H2.
    by destruct (processAudioQueue s1).
  - (* the animation frame *)
    by apply processAudioQueue_inv.
  - (* onended *)
    unfold onended. cbn [fst].
    unfold service_inv, clock in *.
    destruct (indexOf (scheduledSources s) source) as [i|]; simpl_fields.
    + destruct (delete_sources_inv (scheduledSources s) i (nextNode s) I8 I9).
      split; [done|]. split; [apply Q.le_max_l|]. split; [reflexivity|]. done.
    + split; [done|]. split; [apply Q.le_max_l|]. split; [reflexivity|]. done.
  - (* the clock *)
    unfold advance_clock. cbn [fst].
    destruct (audioContext s) as [ctx|] eqn:Hctx; [|done].
    apply (service_inv_frame s); try done; unfold clock in *; simpl_fields.
    + rewrite Hctx in I4. eapply Qle_trans; [exact I4|apply Q.le_max_l].
    + split; [done|]. intros Hg. by apply I6 in Hg.
Qed.

Lemma new_AudioService_inv : service_inv new_AudioService.
Proof.
  unfold service_inv, new_AudioService, clock. simpl_fields.
  repeat split; try done; try constructor.
Qed.

Lemma run_inv (ops : list op) (s : AudioService) :
  service_inv s -> service_inv (run ops s).1.
Proof.
  revert s. induction ops as [|o ops IH]; intros s Hinv; [done|].
  cbn [run]. pose proof (step_inv o s Hinv) as H1.
  destruct (step o s) as [s1 t1]. specialize (IH s1 H1).
  by destruct (run ops s1).
Qed.
(** X6: after any sequence of operations on a new service the buffer
    level is [min(1, totalBufferedDuration / 5)], it lies between 0 and 1,
    and the total buffered duration is not negative. *)
Theorem buffer_level_bounds (ops : list op) :
  let s := (run ops new_AudioService).1 in
  (0 <= getBufferLevel s <= 1)%Q /\
  (getBufferLevel s == Qmin 1 (totalBufferedDuration s / 5))%Q /\
  (0 <= totalBufferedDuration s)%Q.
Proof.
  cbv zeta. unfold getBufferLevel.
  destruct (run_inv ops new_AudioService new_AudioService_inv)
    as (_ & I2 & I3 & _).
  split; [|done]. rewrite I3. split; [|apply Q.le_min_l].
  apply Q.min_glb; [done|]. by apply Qle_shift_div_l.
Qed.

(** X7: after any sequence of operations on a new service the
    in-progress flag of the draining routine is clear, the gain node
    exists exactly when the audio context does, and a playing service has
    its context; so a drain is never turned away by a flag left set and
    always has a gain node to connect a source to. *)
Theorem reachable_shape (ops : list op) :
  let s := (run ops new_AudioService).1 in
  isProcessingQueue s = false /\
  (audioContext s = None <-> gainNode s = None) /\
  (playbackState s = playing -> ready s).
Proof.
  cbv zeta.
  destruct (run_inv ops new_AudioService new_AudioService_inv)
    as (I1 & _ & _ & _ & _ & I6 & I7 & _).
  unfold ready. tauto.
Qed.
Lemma start_in_started (t : list effect) (source : AudioBufferSourceNode) (when : Q) :
  In (Start source when) t -> In (buffer source) (started t).
Proof.
  induction t as [|x t IH]; [intros []|]. intros [->|H].
  - by left.
  - destruct x; cbn [started]; try (by apply IH). right. by apply IH.
Qed.

Lemma drain_start_nonneg (s : AudioService) (source : AudioBufferSourceNode)
    (when : Q) :
  service_inv s -> In (Start source when) (processAudioQueue s).2 ->
  (0 <= when)%Q.
Proof.
  intros (_ & _ & _ & I4 & _) Hin.
  destruct (ready_dec s) as [Hready|[_ Hidle]]; [|by rewrite Hidle in Hin].
  destruct (audioContext s) as [ctx|] eqn:Hctx; [|by destruct Hready].
  rewrite (processAudioQueue_ready s ctx Hctx Hready) in Hin. cbv zeta in Hin.
  cbn [snd] in Hin. apply in_app_iff in Hin as [Hin|Hin].
  - apply schedule_starts_after_clock in Hin.
    unfold clock in I4. rewrite Hctx in I4. by eapply Qle_trans.
  - destruct (negb _); [|done]. destruct Hin as [Hin|[]]. discriminate Hin.
Qed.

Lemma setPlaybackState_trace (st : PlaybackState) (s : AudioService) (e : effect) :
  In e (setPlaybackState st s).2 ->
  e = Emit (StateChange st) /\ playbackState s <> st.
Proof.
  unfold setPlaybackState. case_decide; [|intros []].
  intros [<-|[]]. done.
Qed.

Lemma setPlaybackState_state (st : PlaybackState) (s : AudioService) :
  playbackState (setPlaybackState st s).1 = st /\
  audioContext (setPlaybackState st s).1 = audioContext s /\
  audioQueue (setPlaybackState st s).1 = audioQueue s /\
  nextStartTime (setPlaybackState st s).1 = nextStartTime s /\
  scheduledSources (setPlaybackState st s).1 = scheduledSources s.
Proof.
  unfold setPlaybackState. by case_decide as H.
Qed.

Lemma step_start_nonneg (o : op) (s : AudioService)
    (source : AudioBufferSourceNode) (when : Q) :
  service_inv s -> In (Start source when) (step o s).2 -> (0 <= when)%Q.
Proof.
  intros Hinv.
  assert (forall s ctx created, audioContext s = Some ctx -> service_inv s ->
            In (Start source when) (play created s).1.2 -> (0 <= when)%Q)
    as Hplay.
  { clear s Hinv. intros s ctx created Hctx Hinv.
    pose proof (play_inv created s Hinv) as _.
    rewrite (play_initialized created s ctx Hctx). cbv zeta. cbn [fst snd].
    set (s1 := if decide (state ctx = suspended) then _ else s).
    assert (service_inv (setPlaybackState playing s1).1) as Hmid.
    { apply setPlaybackState_inv.
      - pose proof Hinv as (I1 & I2 & I3 & I4 & I5 & I6 & I7 & I8 & I9).
        unfold s1. case_decide; [|done].
        apply (service_inv_frame s); try done; unfold clock in *; simpl_fields;
          rewrite ?Hctx in *; try done.
        split; [done|]. intros Hg. by apply I6 in Hg.
      - intros _. unfold s1. case_decide; simpl_fields; by rewrite ?Hctx. }
    rewrite !in_app_iff. intros [H|[H|H]].
    - case_decide; [|done]. destruct H as [H|[]]. discriminate H.
    - apply setPlaybackState_trace in H as [H _]. discriminate H.
    - by eapply drain_start_nonneg. }
  destruct o as [created|created| | | |v|c| |src|t]; cbn [step].
  - unfold initialize. destruct (audioContext s); [intros []|].
    destruct created; [intros [H|[]]; discriminate H|]. simpl_fields.
    destruct (is_nan_b (volume s)); [intros [H|[]]; discriminate H|intros []].
  - intros Hin.
    assert (In (Start source when) (play created s).1.2) as Hin'
      by (by destruct (play created s) as [[] ]).
    clear Hin. destruct (audioContext s) as [ctx|] eqn:Hctx; [by eapply Hplay|].
    rewrite (play_uninitialized created s Hctx) in Hin'.
    pose proof (initialize_inv created s Hinv) as H0.
    unfold initialize in *. rewrite Hctx in *.
    destruct created as [error|st];
      [cbn [fst snd] in Hin'; destruct Hin' as [H|[]]; discriminate H|].
    simpl_fields. destruct (is_nan_b (volume s));
      [cbn [fst snd] in Hin'; destruct Hin' as [H|[]]; discriminate H|].
    cbn [fst snd] in *.
    eapply (Hplay _ {| state := st; currentTime := 0 |} (inr st));
      [|exact H0|exact Hin']. reflexivity.
  - unfold pause, setPlaybackState.
    destruct (audioContext s); repeat case_decide; cbn [snd app emit In];
      intros Hin; repeat destruct Hin as [Hin|Hin]; try discriminate Hin; done.
  - rewrite stop_trace. intros H. apply start_in_started in H.
    rewrite !started_app, started_stop_sources in H.
    by destruct (audioContext s), (decide (playbackState s <> stopped)).
  - unfold dispose. pose proof (stop_trace s) as Ht.
    destruct (stop s) as [s1 t1]. cbn [snd] in Ht. subst t1.
    intros H. apply start_in_started in H.
    destruct (audioContext s1); cbn [snd] in H;
      rewrite !started_app, started_stop_sources in H;
      by destruct (audioContext s), (decide (playbackState s <> stopped)).
  - unfold setVolume, throw, ret. simpl_fields.
    destruct (gainNode s); [destruct (is_nan_b _)|]; cbn [snd app emit In];
      intros Hin; repeat destruct Hin as [Hin|Hin]; try discriminate Hin; done.
  - unfold queueAudioChunk. destruct (audioContext s) as [ctx|] eqn:Hctx;
      [|intros [H|[]]; discriminate H].
    destruct (bind _ _) as [error|b]; [intros [H|[]]; discriminate H|].
    simpl_fields. set (s1 := set_bufferLevel _ _).
    assert (service_inv s1) as H1.
    { pose proof Hinv as (I1 & I2 & I3 & I4 & I5 & I6 & I7 & I8 & I9).
      unfold service_inv, s1, clock in *. simpl_fields.
      split; [done|]. split.
      { rewrite <- (Qplus_0_r 0). apply Qplus_le_compat; [done|apply duration_nonneg]. }
      split; [reflexivity|]. done. }
    case_decide; [|intros [Hin|[]]; discriminate Hin].
    pose proof (drain_start_nonneg s1 source when H1) as H2.
    destruct (processAudioQueue s1) as [s2 t2]. cbn [snd app emit In] in *.
    intros [Hin|Hin]; [discriminate Hin|by apply H2].
  - by apply drain_start_nonneg.
  - unfold onended. destruct (indexOf _ _); intros [H|[]]; discriminate H.
  - intros [].
Qed.

(** X8: after any sequence of operations on a new service, no segment
    has been given a negative start time, so [source.start] is never
    refused for its time. *)
Theorem start_times_nonnegative (ops : list op)
    (source : AudioBufferSourceNode) (when : Q) :
  In (Start source when) (run ops new_AudioService).2 -> (0 <= when)%Q.
Proof.
  assert (forall s, service_inv s ->
            In (Start source when) (run ops s).2 -> (0 <= when)%Q) as H;
    [|apply H, new_AudioService_inv].
  induction ops as [|o ops IH]; intros s Hinv; [intros []|].
  cbn [run]. pose proof (step_inv o s Hinv) as H1.
  pose proof (step_start_nonneg o s source when Hinv) as H2.
  destruct (step o s) as [s1 t1]. specialize (IH s1 H1).
  destruct (run ops s1) as [s2 t2]. cbn [fst snd] in *.
  rewrite in_app_iff. tauto.
Qed.

Lemma start_times_nonnegative_witness : (0 <= 2)%Q.
Proof.
  apply (start_times_nonnegative
           [Play (inr running); Clock 2; QueueAudioChunk "AAAA"]
           {| node := 0;
              buffer := {| channelData := [0 # 32768]%Q;
                           sampleRate := AUDIO_CONFIG.SAMPLE_RATE |} |} 2).
  vm_compute. right. right. right. right. left. reflexivity.
Defined.
(** ** Segment completion *)

Lemma remove_source_spec (l : list AudioBufferSourceNode)
    (source x : AudioBufferSourceNode) :
  NoDup (map node l) ->
  In x (match indexOf l source with
        | Some index => delete index l
        | None => l
        end) <->
  In x l /\ (indexOf l source <> None -> node x <> node source).
Proof.
  induction l as [|y l IH]; intros Hnd; [cbn; tauto|].
  cbn [map] in Hnd. apply NoDup_cons in Hnd as [Hy Hnd].
  cbn [indexOf]. destruct (Nat.eqb_spec (node y) (node source)) as [Heq|Hne].
  - cbn [delete list_delete In]. split.
    + intros Hx. split; [by right|]. intros _ Hxs. apply Hy.
      apply list_elem_of_In. rewrite Heq, <- Hxs. by apply in_map.
    + intros [[->|Hx] Hn]; [|done]. by destruct Hn.
  - specialize (IH Hnd). destruct (indexOf l source) as [i|];
      cbn [option_map delete list_delete In] in *.
    + rewrite IH. split.
      * intros [->|[Hx Hn]]; [split; [by left|done]|].
        split; [by right|]. intros _. by apply Hn.
      * intros [[->|Hx] Hn]; [by left|]. right. split; [done|]. intros _. by apply Hn.
    + split; [|tauto]. intros H. split; [done|]. by intros [].
Qed.

(** X9: when a source reports its end, in any reachable state, it is
    taken out of the in-flight set and nothing else is; the buffered
    duration goes down by the duration of its buffer, not below zero, and
    the buffer level does not go up. *)
Theorem ended_source_removed (ops : list op) (source x : AudioBufferSourceNode) :
  let s := (run ops new_AudioService).1 in
  let s' := (onended source s).1 in
  (In source (scheduledSources s) ->
   (In x (scheduledSources s') <->
    In x (scheduledSources s) /\ node x <> node source)) /\
  totalBufferedDuration s'
  = Qmax 0 (totalBufferedDuration s - duration (buffer source)) /\
  (bufferLevel s' <= bufferLevel s)%Q.
Proof.
  cbv zeta.
  destruct (run_inv ops new_AudioService new_AudioService_inv)
    as (_ & I2 & I3 & _ & _ & _ & _ & _ & I9).
  set (s := (run ops new_AudioService).1) in *.
  unfold onended. cbn [fst]. split; [|split].
  - intros Hin.
    pose proof (remove_source_spec (scheduledSources s) source x I9) as H.
    assert (indexOf (scheduledSources s) source <> None) as Hidx.
    { clear -Hin. induction (scheduledSources s) as [|y l IH]; [done|].
      cbn [indexOf]. destruct (node y =? node source)%nat eqn:Hy; [done|].
      destruct Hin as [->|Hin]; [by rewrite Nat.eqb_refl in Hy|].
      specialize (IH Hin). by destruct (indexOf l source). }
    destruct (indexOf (scheduledSources s) source); simpl_fields; tauto.
  - by destruct (indexOf (scheduledSources s) source).
  - assert (Qmax 0 (totalBufferedDuration s - duration (buffer source))
            <= totalBufferedDuration s)%Q as Hle.
    { apply Q.max_lub; [done|].
      rewrite <- (Qplus_0_r (totalBufferedDuration s)) at 2.
      apply Qplus_le_compat; [apply Qle_refl|].
      pose proof (duration_nonneg (buffer source)) as Hd.
      apply (Qopp_le_compat 0). exact Hd. }
    destruct (indexOf (scheduledSources s) source); simpl_fields; rewrite I3;
      apply Q.min_le_compat_l; apply Qmult_le_compat_r; done.
Qed.
(** ** State changes *)

Lemma play_state_change (created : throws AudioContextState) (s : AudioService)
    (ctx : AudioContext) (st : PlaybackState) :
  audioContext s = Some ctx ->
  playbackState (play created s).1.1 = playing /\
  (In (Emit (StateChange st)) (play created s).1.2 ->
   playbackState s <> st /\ st = playing).
Proof.
  intros Hctx. rewrite (play_initialized created s ctx Hctx). cbv zeta.
  cbn [fst snd].
  set (s1 := if decide (state ctx = suspended) then _ else s).
  assert (playbackState s1 = playbackState s) as Hs1
    by (unfold s1; by case_decide).
  pose proof (processAudioQueue_fields (setPlaybackState playing s1).1)
    as (_ & _ & F3 & _).
  destruct (setPlaybackState_state playing s1) as (P1 & _).
  split; [by rewrite F3|].
  rewrite !in_app_iff. intros [H|[H|H]].
  - case_decide; [|done]. destruct H as [H|[]]. discriminate H.
  - apply setPlaybackState_trace in H as [H Hne]. injection H as ->.
    by rewrite <- Hs1.
  - apply processAudioQueue_trace_kinds in H as [H|[H|[H|(? & ? & H)]]];
      discriminate H.
Qed.

(** X10: a state-change event is emitted only for a real change: it
    carries the state the service is in after the operation, and that
    state differs from the one before. *)
Theorem state_change_is_a_change (o : op) (s : AudioService) (st : PlaybackState) :
  In (Emit (StateChange st)) (step o s).2 ->
  playbackState s <> st /\ playbackState (step o s).1 = st.
Proof.
  destruct o as [created|created| | | |v|c| |source|t]; cbn [step].
  - unfold initialize. destruct (audioContext s); [intros []|].
    destruct created; [intros [H|[]]; discriminate H|]. simpl_fields.
    destruct (is_nan_b (volume s)); [intros [H|[]]; discriminate H|intros []].
  - intros Hin.
    assert (In (Emit (StateChange st)) (play created s).1.2) as Hin'
      by (by destruct (play created s) as [[] ]).
    assert (playbackState s <> st /\ playbackState (play created s).1.1 = st);
      [|by destruct (play created s) as [[] ]].
    clear Hin. destruct (audioContext s) as [ctx|] eqn:Hctx.
    + destruct (play_state_change created s ctx st Hctx) as [H1 H2].
      destruct (H2 Hin') as [H3 ->]. done.
    + rewrite (play_uninitialized created s Hctx) in Hin' |- *.
      unfold initialize in *. rewrite Hctx in *.
      destruct created as [error|st0];
        [cbn [fst snd] in Hin'; destruct Hin' as [H|[]]; discriminate H|].
      simpl_fields. destruct (is_nan_b (volume s));
        [cbn [fst snd] in Hin'; destruct Hin' as [H|[]]; discriminate H|].
      cbn [fst snd] in *.
      edestruct (play_state_change (inr st0)
                   (set_gainNode (Some (volume s))
                      (set_audioContext
                         (Some {| state := st0; currentTime := 0 |}) s))
                   {| state := st0; currentTime := 0 |} st) as [H1 H2];
        [reflexivity|].
      destruct (H2 Hin') as [H3 ->]. done.
  - unfold pause.
    set (s1t1 := match audioContext s with Some _ => _ | None => _ end).
    assert (playbackState s1t1.1 = playbackState s /\
            forall e, In e s1t1.2 -> e = Suspend) as [Hs1 Ht1].
    { unfold s1t1. destruct (audioContext s); [case_decide|]; cbn [fst snd In];
        (split; [done|]); intros e He; repeat destruct He as [He|He]; done. }
    destruct s1t1 as [s1 t1]. cbn [fst snd] in *.
    pose proof (setPlaybackState_trace paused s1) as H2.
    destruct (setPlaybackState_state paused s1) as (P1 & _).
    destruct (setPlaybackState paused s1) as [s2 t2]. cbn [fst snd] in *.
    rewrite in_app_iff. intros [H|H].
    + apply Ht1 in H. discriminate H.
    + apply H2 in H as [H Hne]. injection H as ->. by rewrite <- Hs1.
  - rewrite stop_state, stop_trace. simpl_fields. rewrite !in_app_iff.
    intros [H|[H|[H|H]]].
    + apply in_flat_map in H as (x & _ & [H|[H|[]]]); discriminate H.
    + destruct (audioContext s); [|done]. destruct H as [H|[]]. discriminate H.
    + case_decide; [|done]. destruct H as [H|[]]. by injection H as <-.
    + destruct H as [H|[]]. discriminate H.
  - unfold dispose. pose proof (stop_state s) as Hs. pose proof (stop_trace s) as Ht.
    destruct (stop s) as [s1 t1]. cbn [fst snd] in Hs, Ht. subst s1 t1.
    simpl_fields.
    assert (In (Emit (StateChange st))
              (flat_map (fun source => [StopSource source; Disconnect source])
                 (scheduledSources s)
               ++ match audioContext s with Some _ => [Suspend] | None => [] end
               ++ (if decide (playbackState s <> stopped)
                   then [Emit (StateChange stopped)] else [])
               ++ [Emit (BufferUpdate 0)]) ->
            playbackState s <> st /\ stopped = st) as Hstop.
    { rewrite !in_app_iff. intros [H|[H|[H|H]]].
      + apply in_flat_map in H as (x & _ & [H|[H|[]]]); discriminate H.
      + destruct (audioContext s); [|done]. destruct H as [H|[]]. discriminate H.
      + case_decide; [|done]. destruct H as [H|[]]. by injection H as <-.
      + destruct H as [H|[]]. discriminate H. }
    destruct (audioContext s); cbn [option_map fst snd]; simpl_fields.
    + rewrite in_app_iff. intros [H|[H|[]]]; [by apply Hstop|discriminate H].
    + rewrite app_nil_r. apply Hstop.
  - unfold setVolume, throw, ret. simpl_fields.
    destruct (gainNode s); [destruct (is_nan_b _)|]; cbn [snd app emit In];
      intros Hin; repeat destruct Hin as [Hin|Hin]; try discriminate Hin; done.
  - unfold queueAudioChunk. destruct (audioContext s) as [ctx|] eqn:Hctx;
      [|intros [H|[]]; discriminate H].
    destruct (bind _ _) as [error|b]; [intros [H|[]]; discriminate H|].
    simpl_fields. case_decide; [|intros [Hin|[]]; discriminate Hin].
    set (s1 := set_bufferLevel _ _).
    pose proof (processAudioQueue_trace_kinds s1 (Emit (StateChange st))) as H2.
    destruct (processAudioQueue s1) as [s2 t2]. cbn [snd app emit In] in *.
    intros [Hin|Hin]; [discriminate Hin|].
    apply H2 in Hin as [Hk|[Hk|[Hk|(? & ? & Hk)]]]; discriminate Hk.
  - intros H.
    apply processAudioQueue_trace_kinds in H as [H|[H|[H|(? & ? & H)]]];
      discriminate H.
  - unfold onended. destruct (indexOf _ _); intros [H|[]]; discriminate H.
  - intros [].
Qed.

Lemma state_change_is_a_change_witness :
  playbackState new_AudioService <> playing /\
  playbackState (step (Play (inr suspended)) new_AudioService).1 = playing.
Proof.
  apply (state_change_is_a_change (Play (inr suspended)) new_AudioService playing).
  vm_compute. right. left. reflexivity.
Defined.
(** ** Starting, pausing and disposing *)

Lemma setPlaybackState_started (st : PlaybackState) (s : AudioService)
    (t : list effect) :
  started ((setPlaybackState st s).2 ++ t) = started t.
Proof. unfold setPlaybackState. by case_decide. Qed.

Lemma play_initialized_outcome (created : throws AudioContextState)
    (s : AudioService) (ctx : AudioContext) :
  audioContext s = Some ctx ->
  (play created s).2 = true /\
  playbackState (play created s).1.1 = playing /\
  audioContext (play created s).1.1
  = Some {| state := if decide (state ctx = suspended) then running else state ctx;
            currentTime := currentTime ctx |} /\
  started (play created s).1.2 ++ audioQueue (play created s).1.1 = audioQueue s /\
  (nextStartTime s <= nextStartTime (play created s).1.1)%Q.
Proof.
  intros Hctx. rewrite (play_initialized created s ctx Hctx). cbv zeta.
  cbn [fst snd].
  set (s1 := if decide (state ctx = suspended) then _ else s).
  assert (audioContext s1
          = Some {| state := if decide (state ctx = suspended)
                             then running else state ctx;
                    currentTime := currentTime ctx |} /\
          audioQueue s1 = audioQueue s /\ nextStartTime s1 = nextStartTime s)
    as (A1 & A2 & A3).
  { unfold s1. case_decide; simpl_fields; [done|]. rewrite Hctx.
    by destruct ctx. }
  pose proof (processAudioQueue_fields (setPlaybackState playing s1).1)
    as (F1 & _ & F3 & _).
  pose proof (processAudioQueue_queue (setPlaybackState playing s1).1) as [Hq _].
  pose proof (processAudioQueue_monotone (setPlaybackState playing s1).1)
    as [Hmono _].
  destruct (setPlaybackState_state playing s1) as (P1 & P2 & P3 & P4 & _).
  split; [done|]. split; [by rewrite F3|]. split; [by rewrite F1, P2|].
  split.
  - assert (started (if decide (state ctx = suspended) then [Resume] else []) = [])
      as Hr by (by case_decide).
    rewrite started_app, Hr. cbn [app].
    rewrite setPlaybackState_started. by rewrite Hq, P3.
  - by rewrite <- A3, <- P4.
Qed.

(** X11: [play] either fails, and then the playback state is as
    before, nothing reached the output and no state change was announced;
    or it succeeds, and then the service is playing on a context that is
    not suspended and every buffer that was waiting is either handed to the
    output, in order, or still waiting. *)
Theorem play_outcome (created : throws AudioContextState) (s : AudioService) :
  let r := play created s in
  if r.2
  then playbackState r.1.1 = playing /\
       (exists ctx, audioContext r.1.1 = Some ctx /\ state ctx <> suspended) /\
       started r.1.2 ++ audioQueue r.1.1 = audioQueue s
  else playbackState r.1.1 = playbackState s /\
       audioQueue r.1.1 = audioQueue s /\
       started r.1.2 = [] /\
       (forall st, ~ In (Emit (StateChange st)) r.1.2).
Proof.
  cbv zeta. destruct (audioContext s) as [ctx|] eqn:Hctx.
  - destruct (play_initialized_outcome created s ctx Hctx)
      as (-> & H1 & H2 & H3 & _).
    split; [done|]. split; [|done]. eexists. split; [exact H2|].
    cbn [state]. by destruct (decide (state ctx = suspended)).
  - rewrite (play_uninitialized created s Hctx).
    unfold initialize. rewrite Hctx.
    destruct created as [error|st0].
    { cbn [fst snd started]. repeat split; try done.
      intros st [H|[]]. discriminate H. }
    simpl_fields. destruct (is_nan_b (volume s)).
    { cbn [fst snd started]. simpl_fields. repeat split; try done.
      intros st [H|[]]. discriminate H. }
    cbn [fst snd].
    edestruct (play_initialized_outcome (inr st0)
                 (set_gainNode (Some (volume s))
                    (set_audioContext
                       (Some {| state := st0; currentTime := 0 |}) s))
                 {| state := st0; currentTime := 0 |})
      as (-> & H1 & H2 & H3 & _); [reflexivity|].
    split; [done|]. split; [|done]. eexists. split; [exact H2|].
    cbn [state]. by destruct (decide (st0 = suspended)).
Qed.

(** X12: pausing discards nothing, and a [play] after a pause resumes
    the context with its clock where it was and loses no audio: what was
    queued is handed to the output in order or is still queued, what was
    scheduled stays scheduled, and [nextStartTime] does not move back. *)
Theorem pause_then_play (created : throws AudioContextState) (s : AudioService)
    (ctx : AudioContext) :
  audioContext s = Some ctx ->
  let s1 := (pause s).1 in
  let r := play created s1 in
  playbackState s1 = paused /\ audioQueue s1 = audioQueue s /\
  scheduledSources s1 = scheduledSources s /\
  nextStartTime s1 = nextStartTime s /\ started (pause s).2 = [] /\
  r.2 = true /\ playbackState r.1.1 = playing /\
  (exists ctx', audioContext r.1.1 = Some ctx' /\ state ctx' <> suspended /\
                currentTime ctx' = currentTime ctx) /\
  started r.1.2 ++ audioQueue r.1.1 = audioQueue s /\
  (nextStartTime s <= nextStartTime r.1.1)%Q.
Proof.
  intros Hctx. cbv zeta.
  assert (exists st, audioContext (pause s).1
                     = Some {| state := st; currentTime := currentTime ctx |} /\
          playbackState (pause s).1 = paused /\
          audioQueue (pause s).1 = audioQueue s /\
          scheduledSources (pause s).1 = scheduledSources s /\
          nextStartTime (pause s).1 = nextStartTime s /\
          started (pause s).2 = []) as (st & A1 & A2 & A3 & A4 & A5 & A6).
  { unfold pause. rewrite Hctx.
    set (s1t1 := if decide (state ctx = running) then _ else _).
    assert (exists st, audioContext s1t1.1
                       = Some {| state := st; currentTime := currentTime ctx |} /\
            audioQueue s1t1.1 = audioQueue s /\
            scheduledSources s1t1.1 = scheduledSources s /\
            nextStartTime s1t1.1 = nextStartTime s /\
            started s1t1.2 = []) as (st & C1 & C2 & C3 & C4 & C5).
    { unfold s1t1. destruct (decide (state ctx = running)); cbn [fst snd];
        simpl_fields; [exists suspended|exists (state ctx)];
        (split; [try reflexivity|done]).
      rewrite Hctx. by destruct ctx. }
    destruct s1t1 as [s1 t1]. cbn [fst snd] in *.
    destruct (setPlaybackState_state paused s1) as (P1 & P2 & P3 & P4 & P5).
    pose proof (setPlaybackState_started paused s1 []) as P6.
    destruct (setPlaybackState paused s1) as [s2 t2]. cbn [fst snd] in *.
    exists st. rewrite started_app, C5. rewrite app_nil_r in P6.
    rewrite P1, P2, P3, P4, P5, P6. done. }
  destruct (play_initialized_outcome created (pause s).1 _ A1)
    as (B1 & B2 & B3 & B4 & B5).
  repeat split; try done.
  - eexists. split; [exact B3|]. cbn [state currentTime]. split; [|done].
    by destruct (decide (st = suspended)).
  - by rewrite B4.
  - by rewrite <- A5.
Qed.

Lemma pause_then_play_witness :
  let s := playing_at 5 0 [silence 3] in
  let s1 := (pause s).1 in
  let r := play (inr running) s1 in
  playbackState s1 = paused /\ audioQueue s1 = audioQueue s /\
  scheduledSources s1 = scheduledSources s /\
  nextStartTime s1 = nextStartTime s /\ started (pause s).2 = [] /\
  r.2 = true /\ playbackState r.1.1 = playing /\
  (exists ctx', audioContext r.1.1 = Some ctx' /\ state ctx' <> suspended /\
                currentTime ctx' = currentTime {| state := running; currentTime := 5 |}) /\
  started r.1.2 ++ audioQueue r.1.1 = audioQueue s /\
  (nextStartTime s <= nextStartTime r.1.1)%Q.
Proof.
  apply (pause_then_play (inr running) (playing_at 5 0 [silence 3])
           {| state := running; currentTime := 5 |}).
  reflexivity.
Defined.

(** X13: after [dispose] the service has no context and no gain node
    and is stopped with nothing queued or in flight; a chunk that arrives
    afterwards is dropped with a warning and a drain does nothing. *)
Theorem dispose_then_idle (s : AudioService) (base64Data : string) :
  let s' := (dispose s).1 in
  audioContext s' = None /\ gainNode s' = None /\
  playbackState s' = stopped /\ audioQueue s' = [] /\
  scheduledSources s' = [] /\
  queueAudioChunk base64Data s' = (s', [ConsoleWarn "AudioContext not initialized"]) /\
  processAudioQueue s' = (s', []).
Proof.
  cbv zeta. unfold dispose. pose proof (stop_state s) as Hs.
  destruct (stop s) as [s1 t1]. cbn [fst] in Hs. subst s1. simpl_fields.
  unfold queueAudioChunk, processAudioQueue.
  destruct (audioContext s); cbn [option_map fst]; simpl_fields; done.
Qed.
(** ** What a queued chunk changes *)

(** A chunk that decodes to samples, on an initialized service: the
    buffer made from it is queued and accounted for, and the draining
    routine runs when the service is playing. *)
Lemma queueAudioChunk_queued (c : string) (s : AudioService) (ctx : AudioContext)
    (data : list Q) :
  audioContext s = Some ctx ->
  base64PcmToFloat32 c = inr data ->
  data <> [] ->
  let b := {| channelData :=
                if (length (audioQueue s) =? 0)%nat
                   && (length (scheduledSources s) =? 0)%nat
                then applyFadeIn data fadeSamples else data;
              sampleRate := AUDIO_CONFIG.SAMPLE_RATE |} in
  let s1 :=
    set_bufferLevel (Qmin 1 ((totalBufferedDuration s + duration b) / 5))
      (set_totalBufferedDuration (totalBufferedDuration s + duration b)
         (set_audioQueue (audioQueue s ++ [b]) s)) in
  queueAudioChunk c s =
  if decide (playbackState s = playing)
  then ((processAudioQueue s1).1,
        Emit (BufferUpdate (bufferLevel s1)) :: (processAudioQueue s1).2)
  else (s1, [Emit (BufferUpdate (bufferLevel s1))]).
Proof.
  intros Hctx Hdata Hne. cbv zeta.
  set (processedData := if _ && _ then _ else _).
  assert (length processedData = length data) as Hlen.
  { unfold processedData. destruct (_ && _); [apply applyFadeIn_length|done]. }
  unfold queueAudioChunk. rewrite Hctx, Hdata. cbn [bind]. fold processedData.
  unfold createAudioBuffer. destruct processedData as [|x p] eqn:Hp;
    [by destruct data|].
  unfold ret. simpl_fields. case_decide; [|done].
  by destruct (processAudioQueue _).
Qed.

Lemma queueAudioChunk_accounts (c : string) (s : AudioService)
    (ctx : AudioContext) (data : list Q) :
  audioContext s = Some ctx ->
  base64PcmToFloat32 c = inr data ->
  data <> [] ->
  let b := {| channelData :=
                if (length (audioQueue s) =? 0)%nat
                   && (length (scheduledSources s) =? 0)%nat
                then applyFadeIn data fadeSamples else data;
              sampleRate := AUDIO_CONFIG.SAMPLE_RATE |} in
  let r := queueAudioChunk c s in
  started r.2 ++ audioQueue r.1 = audioQueue s ++ [b] /\
  duration b = Z.of_nat (length data) # 24000 /\
  totalBufferedDuration r.1 = (totalBufferedDuration s + duration b)%Q /\
  bufferLevel r.1 = Qmin 1 (totalBufferedDuration r.1 / 5) /\
  (exists t, r.2 = Emit (BufferUpdate (bufferLevel r.1)) :: t).
Proof.
  intros Hctx Hdata Hne. cbv zeta.
  rewrite (queueAudioChunk_queued c s ctx data Hctx Hdata Hne). cbv zeta.
  set (b := {| channelData := _; sampleRate := _ |}).
  assert (duration b = Z.of_nat (length data) # 24000) as Hdur.
  { unfold duration, b. cbn [channelData sampleRate].
    destruct (_ && _); by rewrite ?applyFadeIn_length. }
  set (s1 := set_bufferLevel _ _).
  case_decide.
  - pose proof (processAudioQueue_queue s1) as [Hq _].
    pose proof (processAudioQueue_fields s1) as (_ & _ & _ & _ & _ & F6 & F7).
    cbv zeta in F6, F7. cbn [fst snd started].
    rewrite Hq, F6, F7. unfold s1. simpl_fields.
    repeat split; try done. by eexists.
  - cbn [fst snd started app]. unfold s1. simpl_fields.
    repeat split; try done. by eexists.
Qed.

(** X14: a chunk that decodes to at least one sample, given to an
    initialized service, becomes one buffer at the configured rate that
    holds the decoded samples, passed through [applyFadeIn] exactly when
    nothing is queued or in flight; the buffer goes to the end of the
    queue (or, while playing, to the output after what was queued), the
    buffered duration grows by the duration of the buffer, and the buffer
    level is recomputed from it and announced first. *)
Theorem chunk_bookkeeping (c : string) (s : AudioService) (ctx : AudioContext)
    (data : list Q) :
  audioContext s = Some ctx ->
  base64PcmToFloat32 c = inr data ->
  data <> [] ->
  let b := {| channelData :=
                if (length (audioQueue s) =? 0)%nat
                   && (length (scheduledSources s) =? 0)%nat
                then applyFadeIn data fadeSamples else data;
              sampleRate := AUDIO_CONFIG.SAMPLE_RATE |} in
  let r := queueAudioChunk c s in
  started r.2 ++ audioQueue r.1 = audioQueue s ++ [b] /\
  duration b = Z.of_nat (length data) # 24000 /\
  totalBufferedDuration r.1 = (totalBufferedDuration s + duration b)%Q /\
  bufferLevel r.1 = Qmin 1 (totalBufferedDuration r.1 / 5) /\
  (exists t, r.2 = Emit (BufferUpdate (bufferLevel r.1)) :: t).
Proof. intros Hctx Hdata Hne. by apply (queueAudioChunk_accounts c s ctx data). Qed.

Lemma chunk_bookkeeping_witness :
  let s := playing_at 0 0 [] in
  let data := [100 # 32768; 200 # 32768; -300 # 32768]%Q in
  let b := {| channelData :=
                if (length (audioQueue s) =? 0)%nat
                   && (length (scheduledSources s) =? 0)%nat
                then applyFadeIn data fadeSamples else data;
              sampleRate := AUDIO_CONFIG.SAMPLE_RATE |} in
  let r := queueAudioChunk "ZADIANT+" s in
  started r.2 ++ audioQueue r.1 = audioQueue s ++ [b] /\
  duration b = Z.of_nat (length data) # 24000 /\
  totalBufferedDuration r.1 = (totalBufferedDuration s + duration b)%Q /\
  bufferLevel r.1 = Qmin 1 (totalBufferedDuration r.1 / 5) /\
  (exists t, r.2 = Emit (BufferUpdate (bufferLevel r.1)) :: t).
Proof.
  apply (chunk_bookkeeping "ZADIANT+" (playing_at 0 0 [])
           {| state := running; currentTime := 0 |}
           [100 # 32768; 200 # 32768; -300 # 32768]%Q).
  - reflexivity.
  - vm_compute. reflexivity.
  - discriminate.
Defined.

(** ** The fades *)

Lemma ramp_bounds (j : nat) (fadeLength : Z) :
  (j < Z.to_nat fadeLength)%nat ->
  (0 <= inject_Z (Z.of_nat j) / inject_Z fadeLength)%Q /\
  (inject_Z (Z.of_nat j) / inject_Z fadeLength < 1)%Q.
Proof.
  intros Hj.
  assert (0 < inject_Z fadeLength)%Q as Hpos.
  { unfold Qlt. cbn. lia. }
  split.
  - apply Qle_shift_div_l; [done|]. rewrite Qmult_0_l.
    unfold Qle. cbn. lia.
  - apply Qlt_shift_div_r; [done|]. rewrite Qmult_1_l.
    rewrite <- Zlt_Qlt. lia.
Qed.

Lemma attenuate (x g : Q) :
  (0 <= g)%Q -> (g <= 1)%Q -> (Qabs (x * g) <= Qabs x)%Q.
Proof.
  intros H0 H1. rewrite Qabs_Qmult, (Qabs_pos g) by done.
  rewrite <- (Qmult_1_r (Qabs x)) at 2.
  rewrite !(Qmult_comm (Qabs x)).
  apply Qmult_le_compat_r; [done|apply Qabs_nonneg].
Qed.

(** X15: both fades keep the length and never raise the magnitude of a
    sample; the entry fade leaves everything from index [fadeSamples] on
    untouched and silences the first sample; the exit fade leaves
    everything before the last [fadeSamples] samples untouched. *)
Theorem fades_attenuate (data : list Q) (fadeSamples : Z) :
  length (applyFadeIn data fadeSamples) = length data /\
  length (applyFadeOut data fadeSamples) = length data /\
  forall i x, data !! i = Some x ->
    exists y z,
      applyFadeIn data fadeSamples !! i = Some y /\
      applyFadeOut data fadeSamples !! i = Some z /\
      (Qabs y <= Qabs x)%Q /\ (Qabs z <= Qabs x)%Q /\
      (fadeSamples <= Z.of_nat i -> y = x) /\
      (Z.of_nat i + fadeSamples < Z.of_nat (length data) -> z = x) /\
      (i = 0%nat -> 0 < fadeSamples -> (y == 0)%Q).
Proof.
  split; [apply applyFadeIn_length|]. split; [apply applyFadeOut_length|].
  intros i x Hx. rewrite applyFadeIn_lookup, applyFadeOut_lookup, Hx.
  cbv zeta. cbn [fmap option_fmap option_map].
  set (fadeLength := Z.min fadeSamples (Z.of_nat (length data))).
  set (start := (length data - Z.to_nat fadeLength)%nat).
  pose proof (lookup_lt_Some _ _ _ Hx) as Hi.
  eexists _, _. split; [done|]. split; [done|].
  split; [|split; [|split; [|split]]].
  - case_decide as Hin; [|apply Qle_refl].
    destruct (ramp_bounds i fadeLength Hin) as [H0 H1].
    apply attenuate; [done|by apply Qlt_le_weak].
  - case_decide as Hin; [|apply Qle_refl].
    destruct (ramp_bounds (i - start) fadeLength) as [H0 H1];
      [unfold start in *; lia|].
    apply attenuate; lra.
  - intros Hge. rewrite decide_False; [done|]. unfold fadeLength. lia.
  - intros Hlt. rewrite decide_False; [done|]. unfold start, fadeLength. lia.
  - intros -> Hpos. rewrite decide_True by (unfold fadeLength; lia).
    unfold Qdiv. cbn [Z.of_nat]. ring.
Qed.

(** X16: where the two fade windows of a crossfade have the full length
    [fadeSamples], the faded tail of the current data and the faded head
    of the next data add up to the straight line between the two samples:
    at offset [d] into the window, [x + (y - x) * d / fadeSamples]. *)
Theorem crossfade_interpolates (current next : list Q) (fadeSamples : Z)
    (d : nat) (x y : Q) :
  fadeSamples <= Z.of_nat (length current) ->
  fadeSamples <= Z.of_nat (length next) ->
  (d < Z.to_nat fadeSamples)%nat ->
  let tail := (length current - Z.to_nat fadeSamples + d)%nat in
  current !! tail = Some x ->
  next !! d = Some y ->
  exists a b,
    (applyCrossfade current next fadeSamples).1 !! tail = Some a /\
    (applyCrossfade current next fadeSamples).2 !! d = Some b /\
    (a + b == x + (y - x) * (inject_Z (Z.of_nat d) / inject_Z fadeSamples))%Q.
Proof.
  intros Hc Hn Hd tail Hx Hy. unfold applyCrossfade. cbn [fst snd].
  rewrite applyFadeIn_lookup, applyFadeOut_lookup, Hx, Hy. cbv zeta.
  cbn [fmap option_fmap option_map].
  rewrite !Z.min_l by done.
  eexists _, _. split; [done|]. split; [done|].
  rewrite decide_True by (unfold tail; lia). rewrite decide_True by done.
  replace (tail - (length current - Z.to_nat fadeSamples))%nat with d
    by (unfold tail; lia).
  ring.
Qed.

Lemma crossfade_interpolates_witness :
  exists a b,
    (applyCrossfade [1; 1; 1; 1]%Q [3; 3; 3]%Q 2).1 !! 3%nat = Some a /\
    (applyCrossfade [1; 1; 1; 1]%Q [3; 3; 3]%Q 2).2 !! 1%nat = Some b /\
    (a + b == 1 + (3 - 1) * (inject_Z (Z.of_nat 1) / inject_Z 2))%Q.
Proof.
  apply (crossfade_interpolates [1; 1; 1; 1]%Q [3; 3; 3]%Q 2 1 1%Q 3%Q);
    (reflexivity || (cbn; lia)).
Defined.
(** ** Peak and normalisation *)

Lemma sample_lookup (l : list Q) (i : nat) (x : Q) :
  l !! i = Some x -> sample l i = x.
Proof. unfold sample. by intros ->. Qed.

(** The scan of [calculatePeak] over the first [n] samples. *)
Lemma peak_scan (l : list Q) (n : nat) :
  (n <= length l)%nat ->
  let peak := for_loop n
                (fun i peak =>
                   let abs := Qabs (sample l i) in
                   if Qltb peak abs then abs else peak) 0%Q in
  (0 <= peak)%Q /\
  (forall i x, (i < n)%nat -> l !! i = Some x -> (Qabs x <= peak)%Q) /\
  (peak = 0%Q \/ exists i x, (i < n)%nat /\ l !! i = Some x /\ peak = Qabs x).
Proof.
  induction n as [|n IH]; intros Hn; cbn [for_loop]; cbv zeta.
  - split; [done|]. split; [intros; lia|by left].
  - destruct IH as (IH0 & IHle & IHat); [lia|]. cbv zeta in *.
    set (peak := for_loop n _ _) in *.
    destruct (lookup_lt_is_Some_2 l n) as [xn Hxn]; [lia|].
    rewrite (sample_lookup _ _ _ Hxn).
    destruct (Qltb peak (Qabs xn)) eqn:Hcmp.
    + apply Qltb_lt in Hcmp. split; [apply Qabs_nonneg|]. split.
      * intros i x Hi Hx. destruct (decide (i = n)) as [->|Hne].
        -- rewrite Hxn in Hx. injection Hx as <-. apply Qle_refl.
        -- apply (Qle_trans _ peak); [apply (IHle i); [lia|done]|].
           by apply Qlt_le_weak.
      * right. exists n, xn. split; [lia|done].
    + apply Qltb_ge in Hcmp. split; [done|]. split.
      * intros i x Hi Hx. destruct (decide (i = n)) as [->|Hne].
        -- rewrite Hxn in Hx. by injection Hx as <-.
        -- apply (IHle i); [lia|done].
      * destruct IHat as [H0|(i & x & Hi & Hx & Hp)]; [by left|].
        right. exists i, x. split; [lia|done].
Qed.

Lemma calculatePeak_spec (l : list Q) :
  (0 <= calculatePeak l)%Q /\
  Forall (fun x => (Qabs x <= calculatePeak l)%Q) l /\
  (l = [] /\ calculatePeak l = 0%Q \/
   exists x, x ∈ l /\ (calculatePeak l == Qabs x)%Q).
Proof.
  destruct (peak_scan l (length l)) as (H0 & Hle & Hat); [done|].
  cbv zeta in *. fold (calculatePeak l) in *.
  split; [done|]. split.
  - apply Forall_lookup. intros i x Hx. apply (Hle i); [|done].
    by eapply lookup_lt_Some.
  - destruct Hat as [Hz|(i & x & _ & Hx & Hp)].
    + destruct l as [|x l]; [by left|]. right. exists x.
      split; [by left|]. rewrite Hz.
      assert (Qabs x <= calculatePeak (x :: l))%Q as Hx
        by (apply (Hle 0%nat); [cbn; lia|done]).
      rewrite Hz in Hx.
      apply Qle_antisym; [apply Qabs_nonneg|done].
    + right. exists x. split; [by eapply list_elem_of_lookup_2|by rewrite Hp].
Qed.

(** X17: [calculatePeak] gives the largest magnitude in the data: no
    sample exceeds it, it is never negative, and unless the data is empty
    (where it is 0) some sample attains it. *)
Theorem calculatePeak_is_maximum (l : list Q) :
  (0 <= calculatePeak l)%Q /\
  Forall (fun x => (Qabs x <= calculatePeak l)%Q) l /\
  (l = [] /\ calculatePeak l = 0%Q \/
   exists x, x ∈ l /\ (calculatePeak l == Qabs x)%Q).
Proof. apply calculatePeak_spec. Qed.

(** The peak is determined by these three facts. *)
Lemma peak_unique (l : list Q) (p : Q) :
  Forall (fun x => (Qabs x <= p)%Q) l ->
  (exists x, x ∈ l /\ (p == Qabs x)%Q) ->
  (calculatePeak l == p)%Q.
Proof.
  intros Hle (x & Hx & Hp).
  destruct (calculatePeak_spec l) as (_ & Hle' & [[-> _]|(x' & Hx' & Hp')]).
  { by apply not_elem_of_nil in Hx. }
  apply Qle_antisym.
  - rewrite Hp'. by apply (proj1 (Forall_forall _ _) Hle).
  - rewrite Hp. by apply (proj1 (Forall_forall _ _) Hle').
Qed.

Lemma normalize_scaled (l : list Q) (targetPeak : Q) :
  Qeq_bool (calculatePeak l) 0 = false ->
  normalize l targetPeak
  = map (fun x => (x * (targetPeak / calculatePeak l))%Q) l.
Proof.
  intros Hnz. unfold normalize. rewrite Hnz.
  rewrite (for_loop_fill _
    (fun i => (sample l i * (targetPeak / calculatePeak l))%Q)) by done.
  apply list_eq. intros i. rewrite !list_lookup_fmap.
  destruct (decide (i < length l)%nat) as [Hi|Hi].
  - rewrite lookup_seq_lt by done.
    destruct (lookup_lt_is_Some_2 l i Hi) as [x Hx]. rewrite Hx. cbn.
    by rewrite (sample_lookup _ _ _ Hx).
  - rewrite lookup_seq_ge by lia. by rewrite lookup_ge_None_2 by lia.
Qed.

(** X18: [normalize] keeps the length.  Data whose peak is 0 (silence,
    or no data) is returned as it is, with no division.  Otherwise every
    sample is multiplied by [targetPeak / peak], and in exact arithmetic
    the peak of the result is the magnitude of [targetPeak]. *)
Theorem normalize_reaches_target (l : list Q) (targetPeak : Q) :
  length (normalize l targetPeak) = length l /\
  ((calculatePeak l == 0)%Q -> normalize l targetPeak = l) /\
  (~ (calculatePeak l == 0)%Q ->
   normalize l targetPeak
   = map (fun x => (x * (targetPeak / calculatePeak l))%Q) l /\
   (calculatePeak (normalize l targetPeak) == Qabs targetPeak)%Q).
Proof.
  destruct (Qeq_bool (calculatePeak l) 0) eqn:Hz.
  - assert (normalize l targetPeak = l) as Hsame
      by (unfold normalize; by rewrite Hz).
    apply Qeq_bool_iff in Hz. rewrite Hsame. done.
  - pose proof (normalize_scaled l targetPeak Hz) as Hmap.
    assert (~ (calculatePeak l == 0)%Q) as Hnz.
    { intros H. apply Qeq_bool_iff in H. congruence. }
    split; [by rewrite Hmap, length_map|]. split; [done|]. intros _.
    split; [done|]. rewrite Hmap.
    destruct (calculatePeak_spec l) as (H0 & Hle & [[_ Hp]|(x & Hx & Hp)]).
    { by rewrite Hp in Hnz. }
    assert (0 < calculatePeak l)%Q as Hpos.
    { destruct (Qle_lt_or_eq _ _ H0) as [?|Heq]; [done|]. by symmetry in Heq. }
    set (peak := calculatePeak l) in *.
    assert (forall y, (Qabs (y * (targetPeak / peak))
                       == Qabs y * (Qabs targetPeak / peak))%Q) as Habs.
    { intros y. unfold Qdiv. rewrite !Qabs_Qmult.
      rewrite (Qabs_pos (/ peak)); [done|].
      apply Qlt_le_weak, Qinv_lt_0_compat. done. }
    apply peak_unique.
    + apply Forall_fmap. eapply Forall_impl; [exact Hle|].
      intros y Hy. unfold compose. cbv beta in *. rewrite Habs.
      assert (Qabs targetPeak == peak * (Qabs targetPeak / peak))%Q as Heq
        by (field; done).
      rewrite Heq at 2. apply Qmult_le_compat_r; [done|].
      apply Qle_shift_div_l; [done|]. rewrite Qmult_0_l. apply Qabs_nonneg.
    + exists (x * (targetPeak / peak))%Q. split.
      * by apply (list_elem_of_fmap_2 (fun x => x * (targetPeak / peak))%Q).
      * rewrite Habs, <- Hp. field. done.
Qed.
(** ** Concatenation and mixing *)

Lemma for_loop_store_at_length (g : nat -> Q) (offset n : nat) (l0 : list Q) :
  length (for_loop n (fun i l => <[(offset + i)%nat := g i]> l) l0) = length l0.
Proof. induction n as [|n IH]; cbn [for_loop]; by rewrite ?length_insert. Qed.

Lemma for_loop_store_at (g : nat -> Q) (offset n : nat) (l0 : list Q) (j : nat) :
  for_loop n (fun i l => <[(offset + i)%nat := g i]> l) l0 !! j =
  if decide (offset <= j < offset + n /\ j < length l0)%nat
  then Some (g (j - offset)%nat)
  else l0 !! j.
Proof.
  induction n as [|n IH]; cbn [for_loop].
  - case_decide; [lia|done].
  - rewrite list_lookup_insert, for_loop_store_at_length, IH.
    destruct (decide (offset + n = j /\ offset + n < length l0)%nat)
      as [[<- Hlt]|Hne].
    + rewrite decide_True by lia.
      by replace (offset + n - offset)%nat with n by lia.
    + destruct (decide (offset + n = j)%nat) as [<-|Hj].
      * rewrite !decide_False by lia. done.
      * repeat case_decide; (done || lia).
Qed.

Lemma typed_array_set_app (pre mid post source : list Q) :
  length mid = length source ->
  typed_array_set (pre ++ mid ++ post) source (length pre)
  = pre ++ source ++ post.
Proof.
  intros Hlen. unfold typed_array_set. apply list_eq. intros j.
  rewrite (for_loop_store_at (sample source)). rewrite !length_app.
  case_decide as Hj.
  - rewrite lookup_app_r by lia. rewrite lookup_app_l by lia.
    destruct (lookup_lt_is_Some_2 source (j - length pre)) as [x Hx]; [lia|].
    by rewrite Hx, (sample_lookup _ _ _ Hx).
  - destruct (decide (j < length pre)%nat).
    + by rewrite !lookup_app_l by lia.
    + rewrite !(lookup_app_r pre) by lia.
      destruct (decide (j - length pre < length mid)%nat); [lia|].
      rewrite !lookup_app_r by lia. by rewrite Hlen.
Qed.

Lemma totalLength_concat (arrays : list (list Q)) (k : nat) :
  fold_left (fun sum arr => (sum + length arr)%nat) arrays k
  = (k + length (concat arrays))%nat.
Proof.
  revert k. induction arrays as [|a arrays IH]; intros k; cbn [fold_left concat].
  - cbn. lia.
  - rewrite IH, length_app. lia.
Qed.

Lemma concatenate_loop (arrays : list (list Q)) (pre : list Q) :
  (fold_left
     (fun '(result, offset) arr =>
        (typed_array_set result arr offset, (offset + length arr)%nat))
     arrays (pre ++ replicate (length (concat arrays)) 0%Q, length pre)).1
  = pre ++ concat arrays.
Proof.
  revert pre. induction arrays as [|a arrays IH]; intros pre;
    cbn [fold_left concat].
  - cbn. done.
  - rewrite length_app, replicate_add.
    rewrite typed_array_set_app by apply length_replicate.
    rewrite <- length_app, (app_assoc pre a), IH. by rewrite <- app_assoc.
Qed.

(** X19: [concatenateAudioData] gives the arrays one after the other:
    the offsets it keeps tile the result exactly, so nothing is
    overwritten and no zero is left between two arrays. *)
Theorem concatenateAudioData_is_concat (arrays : list (list Q)) :
  concatenateAudioData arrays = concat arrays /\
  length (concatenateAudioData arrays) = sum_list (map length arrays).
Proof.
  assert (concatenateAudioData arrays = concat arrays) as Heq.
  { unfold concatenateAudioData. rewrite totalLength_concat. cbn [Nat.add].
    apply (concatenate_loop arrays []). }
  split; [done|]. rewrite Heq. clear Heq.
  induction arrays as [|a arrays IH]; cbn; [done|].
  by rewrite length_app, IH.
Qed.

Lemma mix_step_lookup (a : Track) (result : list Q) (j : nat) :
  for_loop (length (data a))
    (fun i result => alter (fun r => (r + sample (data a) i * gain a)%Q) i result)
    result !! j
  = (fun r => if decide (j < length (data a))%nat
              then (r + sample (data a) j * gain a)%Q else r) <$> result !! j.
Proof.
  pose proof (for_loop_alter_lookup
    (fun i r => (r + sample (data a) i * gain a)%Q) 0 (length (data a)) result j)
    as H.
  cbn [Nat.add] in H. rewrite H. clear H.
  destruct (result !! j) as [r|]; repeat case_decide; try lia; try done.
  cbn. by rewrite Nat.sub_0_r.
Qed.

Lemma mix_loop (arrays : list Track) (result : list Q) (j : nat) (r : Q) :
  result !! j = Some r ->
  exists v,
    fold_left
      (fun result a =>
         for_loop (length (data a))
           (fun i result =>
              alter (fun r => (r + sample (data a) i * gain a)%Q) i result)
           result)
      arrays result !! j = Some v /\
    (v == r + foldr (fun a acc => contribution j a + acc) 0 arrays)%Q.
Proof.
  revert result r. induction arrays as [|a arrays IH]; intros result r Hr;
    cbn [fold_left foldr].
  - exists r. split; [done|ring].
  - edestruct IH as (v & Hv & Heq).
    { rewrite mix_step_lookup, Hr. cbn. done. }
    exists v. split; [exact Hv|]. rewrite Heq. unfold contribution.
    case_decide as Hj.
    + destruct (lookup_lt_is_Some_2 (data a) j Hj) as [x Hx].
      rewrite Hx, (sample_lookup _ _ _ Hx). ring.
    + rewrite lookup_ge_None_2 by lia. ring.
Qed.

Lemma mix_loop_length (arrays : list Track) (result : list Q) :
  length
    (fold_left
       (fun result a =>
          for_loop (length (data a))
            (fun i result =>
               alter (fun r => (r + sample (data a) i * gain a)%Q) i result)
            result)
       arrays result)
  = length result.
Proof.
  revert result. induction arrays as [|a arrays IH]; intros result;
    cbn [fold_left]; [done|].
  rewrite IH.
  apply (for_loop_alter_length
           (fun i r => (r + sample (data a) i * gain a)%Q) 0).
Qed.

Lemma max_length_spec (lengths : list nat) :
  Forall (fun n => (n <= max_length lengths)%nat) lengths /\
  (lengths = [] \/ max_length lengths ∈ lengths).
Proof.
  induction lengths as [|n lengths [IHle IHin]]; cbn [max_length foldr].
  - split; [constructor|by left].
  - fold (max_length lengths). split.
    + constructor; [lia|]. eapply Forall_impl; [exact IHle|].
      intros m Hm. cbv beta in *. lia.
    + right. destruct (Nat.max_spec n (max_length lengths)) as [[Hlt ->]|[Hge ->]].
      * destruct IHin as [->|Hin].
        -- cbn in Hlt. lia.
        -- by right.
      * by left.
Qed.

(** X20: the mix is as long as the longest argument, and its sample at
    [i] is, in exact arithmetic, the sum over the arguments that reach
    [i] of their sample times their gain; no arguments give no samples. *)
Theorem mixAudioData_sums (arrays : list Track) :
  Forall (fun a => (length (data a) <= length (mixAudioData arrays))%nat) arrays /\
  (arrays = [] /\ mixAudioData arrays = [] \/
   exists a, a ∈ arrays /\ length (mixAudioData arrays) = length (data a)) /\
  forall i, (i < length (mixAudioData arrays))%nat ->
    exists v, mixAudioData arrays !! i = Some v /\
      (v == foldr (fun a acc => contribution i a + acc) 0 arrays)%Q.
Proof.
  destruct arrays as [|a0 arrays].
  { split; [constructor|]. split; [by left|]. cbn. intros; lia. }
  set (tracks := a0 :: arrays).
  assert (mixAudioData tracks
          = fold_left
              (fun result a =>
                 for_loop (length (data a))
                   (fun i result =>
                      alter (fun r => (r + sample (data a) i * gain a)%Q) i result)
                   result)
              tracks
              (replicate (max_length (map (fun a => length (data a)) tracks)) 0%Q))
    as Hmix by done.
  assert (length (mixAudioData tracks)
          = max_length (map (fun a => length (data a)) tracks)) as Hlen
    by (by rewrite Hmix, mix_loop_length, length_replicate).
  destruct (max_length_spec (map (fun a => length (data a)) tracks))
    as [Hle Hin].
  split; [|split].
  - rewrite Hlen. by apply Forall_fmap in Hle.
  - right. destruct Hin as [Hnil|Hin]; [done|].
    apply list_elem_of_fmap_1 in Hin as (a & Ha & Hin).
    exists a. split; [done|]. by rewrite Hlen.
  - intros i Hi. rewrite Hlen in Hi.
    destruct (mix_loop tracks
                (replicate (max_length (map (fun a => length (data a)) tracks)) 0%Q)
                i 0%Q) as (v & Hv & Heq).
    { by apply lookup_replicate_2. }
    exists v. rewrite Hmix. split; [done|]. rewrite Heq. ring.
Qed.
(** ** Silence *)

Lemma calculatePeak_silence (n : nat) : calculatePeak (replicate n 0%Q) = 0%Q.
Proof.
  destruct (peak_scan (replicate n 0%Q) (length (replicate n 0%Q)))
    as (_ & _ & [Hz|(i & x & _ & Hx & Hp)]); [done|done|].
  cbv zeta in Hp. fold (calculatePeak (replicate n 0%Q)) in Hp.
  apply lookup_replicate in Hx as [-> _]. done.
Qed.

(** The sample counts of up to ten seconds of silence at 24000 Hz,
    evaluated in double precision one duration at a time. *)
Lemma silence_sample_counts :
  forallb
    (fun k =>
       match ToIndex (Math_round (SFmul 53 1024
                                    (SFdiv 53 1024 (of_Z k) (of_Z 1000))
                                    (of_Z 24000))) with
       | Some n => n =? 24 * k
       | None => false
       end)
    (map Z.of_nat (seq 0 (Z.to_nat 10001))) = true.
Proof. vm_cast_no_check (eq_refl true). Qed.

(** X21: what [createSilence] returns is silent: every sample is 0, its
    peak is 0, and [normalize] gives it back unchanged.  In double
    precision, at 24000 Hz every whole number [k] of milliseconds up to
    ten seconds gives exactly [24 * k] samples, 145 ms at 100 Hz give 14
    samples (the product rounds below 14.5), and a duration of -1 ms is
    refused with the [RangeError] of the array constructor. *)
Theorem createSilence_is_silent :
  (forall durationMs sampleRate l,
     createSilence durationMs sampleRate = Some l ->
     Forall (fun x => x = 0%Q) l /\ calculatePeak l = 0%Q /\
     forall targetPeak, normalize l targetPeak = l) /\
  (forall k : Z, 0 <= k <= 10000 ->
     createSilence (of_Z k) (of_Z 24000)
     = Some (replicate (Z.to_nat (24 * k)) 0%Q)) /\
  createSilence (of_Z 145) (of_Z 100) = Some (replicate 14 0%Q) /\
  createSilence (of_Z (-1)) (of_Z 24000) = None.
Proof.
  split; [|split; [|split]].
  - intros durationMs sampleRate l Hl. unfold createSilence, new_Float32Array in Hl.
    destruct (ToIndex _); [|done]. injection Hl as <-.
    split; [by apply Forall_replicate|].
    split; [apply calculatePeak_silence|].
    intros targetPeak. unfold normalize. by rewrite calculatePeak_silence.
  - intros k Hk. pose proof silence_sample_counts as Hall.
    rewrite forallb_forall in Hall. specialize (Hall k).
    unfold createSilence, new_Float32Array.
    destruct (ToIndex _) as [n|].
    + assert ((n =? 24 * k) = true) as Hn.
      { apply Hall, in_map_iff. exists (Z.to_nat k). split; [lia|].
        apply in_seq. lia. }
      apply Z.eqb_eq in Hn. by rewrite Hn.
    + assert (false = true) as Hn; [|done].
      apply Hall, in_map_iff. exists (Z.to_nat k). split; [lia|].
      apply in_seq. lia.
  - vm_compute. reflexivity.
  - vm_compute. reflexivity.
Qed.

(** ** The decoder on arbitrary input *)

Lemma base64PcmToFloat32_spec (c : string) (out : list Q) :
  base64PcmToFloat32 c = inr out ->
  exists bytes,
    base64ToUint8Array c = inr bytes /\
    out = map (fun z => (inject_Z z * scale)%Q) (uint8ArrayToInt16Array bytes).
Proof.
  unfold base64PcmToFloat32. destruct (base64ToUint8Array c) as [e|bytes];
    cbn [bind]; [done|].
  intros [= <-]. exists bytes. split; [done|].
  apply int16ArrayToFloat32Array_spec.
Qed.

(** X23: whatever text is decoded, if [base64PcmToFloat32] returns, it
    returns one sample for every two bytes (a last odd byte is left
    out), each an int16 divided by 32768 and so at least -1 and below 1;
    the peak of the decoded data is at most 1. *)
Theorem decoded_samples_in_range (c : string) (out : list Q) :
  base64PcmToFloat32 c = inr out ->
  (exists bytes, base64ToUint8Array c = inr bytes /\
                 length out = (length bytes / 2)%nat) /\
  Forall (fun x => (exists k, is_int16 k /\ x = (inject_Z k * scale)%Q) /\
                   (-1 <= x)%Q /\ (x < 1)%Q) out /\
  (calculatePeak out <= 1)%Q.
Proof.
  intros Hout. destruct (base64PcmToFloat32_spec c out Hout) as (bytes & Hb & ->).
  assert (Forall (fun x => (exists k, is_int16 k /\ x = (inject_Z k * scale)%Q) /\
                           (-1 <= x)%Q /\ (x < 1)%Q)
            (map (fun z => (inject_Z z * scale)%Q) (uint8ArrayToInt16Array bytes)))
    as Hrange.
  { apply Forall_fmap. rewrite uint8ArrayToInt16Array_spec.
    apply Forall_fmap, Forall_forall. intros i _. unfold compose.
    set (k := to_int16 _).
    assert (is_int16 k) as Hk' by apply to_int16_range.
    split; [by exists k|].
    unfold is_int16 in Hk'. unfold scale, Qle, Qlt. cbn. lia. }
  split; [|split; [done|]].
  - exists bytes. split; [done|].
    by rewrite length_map, uint8ArrayToInt16Array_length.
  - set (out := map _ _) in *.
    destruct (calculatePeak_spec out) as (_ & _ & [[_ ->]|(x & Hx & ->)]);
      [done|].
    destruct (proj1 (Forall_forall _ _) Hrange x Hx) as (_ & Hlo & Hhi).
    apply Qabs_Qle_condition. split; [done|by apply Qlt_le_weak].
Qed.

Lemma decoded_samples_in_range_witness :
  (exists bytes, base64ToUint8Array "AAD/fwCA" = inr bytes /\
                 length [0 # 32768; 32767 # 32768; -32768 # 32768]%Q = (length bytes / 2)%nat) /\
  Forall (fun x => (exists k, is_int16 k /\ x = (inject_Z k * scale)%Q) /\
                   (-1 <= x)%Q /\ (x < 1)%Q) [0 # 32768; 32767 # 32768; -32768 # 32768]%Q /\
  (calculatePeak [0 # 32768; 32767 # 32768; -32768 # 32768]%Q <= 1)%Q.
Proof.
  apply (decoded_samples_in_range "AAD/fwCA"). vm_compute. reflexivity.
Defined.

Lemma base64PcmToFloat32_encode (samples : list Z) :
  Forall is_int16 samples ->
  base64PcmToFloat32 (Base64.encode (pcm16le samples))
  = inr (map (fun z => (inject_Z z * scale)%Q) samples).
Proof.
  intros Hss. unfold base64PcmToFloat32.
  rewrite base64ToUint8Array_encode by apply pcm16le_bytes. cbn [bind].
  rewrite uint8ArrayToInt16Array_pcm16le by done.
  by rewrite int16ArrayToFloat32Array_spec.
Qed.

(** X24: at a sample rate between 8000 and 96000 Hz, which every
    audio context supports, [decodeBase64ToAudioBuffer] on the base64 text
    of N 16-bit samples gives, for N > 0, one buffer at that rate that
    holds the N scaled samples and lasts N / sampleRate seconds; for N = 0
    the audio context refuses the empty buffer. *)
Theorem decode_to_buffer (ctx : AudioContext) (samples : list Z)
    (rate : positive) :
  8000 <= Z.pos rate <= 96000 ->
  Forall is_int16 samples ->
  match decodeBase64ToAudioBuffer ctx (Base64.encode (pcm16le samples)) rate with
  | inr b =>
      samples <> [] /\
      channelData b = map (fun z => (inject_Z z * scale)%Q) samples /\
      sampleRate b = rate /\
      duration b = Z.of_nat (length samples) # rate
  | inl e => samples = [] /\ e = NotSupportedError
  end.
Proof.
  intros _ Hss. unfold decodeBase64ToAudioBuffer.
  rewrite base64PcmToFloat32_encode by done. cbn [bind].
  destruct samples as [|s samples]; [done|]. cbn [map createAudioBuffer].
  unfold ret. split; [done|]. split; [done|]. split; [done|].
  unfold duration. cbn [channelData sampleRate length]. by rewrite length_map.
Qed.

Lemma decode_to_buffer_witness :
  match decodeBase64ToAudioBuffer {| state := running; currentTime := 0 |}
          (Base64.encode (pcm16le [0; 32767; -32768])) 24000 with
  | inr b =>
      [0; 32767; -32768] <> [] /\
      channelData b = map (fun z => (inject_Z z * scale)%Q) [0; 32767; -32768] /\
      sampleRate b = 24000%positive /\
      duration b = Z.of_nat (length [0; 32767; -32768]) # 24000
  | inl e => [0; 32767; -32768] = [] /\ e = NotSupportedError
  end.
Proof.
  apply (decode_to_buffer {| state := running; currentTime := 0 |}
           [0; 32767; -32768] 24000); [lia|].
  repeat constructor; cbn; lia.
Defined.
(** * Chunks of an odd number of bytes *)

(** A last byte without a partner takes no part in the decoding. *)
Lemma uint8ArrayToInt16Array_odd (bytes : list Z) :
  Nat.Odd (length bytes) ->
  uint8ArrayToInt16Array bytes
  = uint8ArrayToInt16Array (take (length bytes - 1) bytes).
Proof.
  intros [m Hm]. rewrite !uint8ArrayToInt16Array_spec.
  rewrite length_take_le by lia.
  replace ((length bytes - 1) / 2)%nat with m
    by (rewrite Hm; replace (2 * m + 1 - 1)%nat with (m * 2)%nat by lia;
        by rewrite Nat.div_mul).
  replace (length bytes / 2)%nat with m
    by (rewrite Hm; replace (2 * m + 1)%nat with (1 + m * 2)%nat by lia;
        by rewrite Nat.div_add).
  apply map_ext_in. intros i Hi. apply in_seq in Hi.
  unfold get. rewrite !lookup_take_lt by lia. done.
Qed.

Lemma queueAudioChunk_empty (c : string) (s : AudioService) :
  base64PcmToFloat32 c = inr [] ->
  queueAudioChunk c s =
  (s, match audioContext s with
      | Some _ => [ConsoleError "Failed to queue audio chunk:" NotSupportedError]
      | None => [ConsoleWarn "AudioContext not initialized"]
      end).
Proof.
  intros Hdata. unfold queueAudioChunk. rewrite Hdata.
  destruct (audioContext s); [|done]. cbn [bind].
  by destruct (_ && _).
Qed.

(** C7, as the code has it: a chunk that [atob] rejects, and a chunk of
    a single byte, are logged and dropped with the service unchanged.  A
    chunk of an odd number of bytes, three or more, is not dropped: it
    decodes as the same bytes without the last one, and on an initialized
    service the samples are queued as one buffer, whose duration is added
    to the buffered duration. *)
Theorem decode_error_dropped (base64Data : string) (s : AudioService) :
  match base64ToUint8Array base64Data with
  | inl error =>
      queueAudioChunk base64Data s =
      (s, match audioContext s with
          | Some _ => [ConsoleError "Failed to queue audio chunk:" error]
          | None => [ConsoleWarn "AudioContext not initialized"]
          end)
  | inr bytes =>
      (length bytes = 1%nat ->
       queueAudioChunk base64Data s =
       (s, match audioContext s with
           | Some _ =>
               [ConsoleError "Failed to queue audio chunk:" NotSupportedError]
           | None => [ConsoleWarn "AudioContext not initialized"]
           end)) /\
      (Nat.Odd (length bytes) -> (3 <= length bytes)%nat ->
       audioContext s <> None ->
       let r := queueAudioChunk base64Data s in
       exists data b,
         base64PcmToFloat32 base64Data = inr data /\
         data = int16ArrayToFloat32Array
                  (uint8ArrayToInt16Array (take (length bytes - 1) bytes)) /\
         length data = ((length bytes - 1) / 2)%nat /\
         is_chunk_of b base64Data /\
         started r.2 ++ audioQueue r.1 = audioQueue s ++ [b] /\
         totalBufferedDuration r.1 = (totalBufferedDuration s + duration b)%Q /\
         (0 < duration b)%Q)
  end.
Proof.
  destruct (base64ToUint8Array base64Data) as [error|bytes] eqn:Hdec.
  - unfold queueAudioChunk, base64PcmToFloat32. rewrite Hdec.
    by destruct (audioContext s).
  - assert (base64PcmToFloat32 base64Data
            = inr (int16ArrayToFloat32Array (uint8ArrayToInt16Array bytes)))
      as Hdata by (unfold base64PcmToFloat32; by rewrite Hdec).
    split.
    + intros Hone. apply queueAudioChunk_empty. rewrite Hdata.
      destruct bytes as [|x [|y bytes]]; done.
    + intros Hodd Hlen Hctx. cbv zeta.
      destruct (audioContext s) as [ctx|] eqn:Hc; [|done].
      set (data := int16ArrayToFloat32Array (uint8ArrayToInt16Array bytes)) in *.
      assert (length data = ((length bytes - 1) / 2)%nat) as Hn.
      { unfold data.
        rewrite int16ArrayToFloat32Array_spec, length_map.
        rewrite uint8ArrayToInt16Array_odd by done.
        rewrite uint8ArrayToInt16Array_length, length_take_le by lia. done. }
      assert (1 <= (length bytes - 1) / 2)%nat as Hpos.
      { destruct Hodd as [m Hm]. rewrite Hm.
        replace (2 * m + 1 - 1)%nat with (m * 2)%nat by lia.
        rewrite Nat.div_mul by done. lia. }
      assert (data <> []) as Hne.
      { intros H. rewrite H in Hn. cbn [length] in Hn. lia. }
      destruct (queueAudioChunk_accounts base64Data s ctx data Hc Hdata Hne)
        as (Hq & Hdur & Htotal & _).
      cbv zeta in *.
      set (b := {| channelData := _; sampleRate := _ |}) in *.
      exists data, b. split; [done|].
      split; [unfold data; by rewrite <- uint8ArrayToInt16Array_odd|].
      split; [done|]. split.
      { split; [done|]. exists data. split; [done|].
        unfold b. cbn [channelData]. destruct (_ && _); auto. }
      split; [done|]. split; [done|].
      rewrite Hdur. rewrite <- Hn in Hpos. unfold Qlt. cbn [Qnum Qden]. lia.
Qed.

(** * Order preservation under the event loop *)












